(** * Integrity and verification engine of the transparency portal

    A shallow embedding of [utils/crypto.js] (class [CryptoUtils]) and of the
    verification routes in [routes/verification.js], with the properties the
    specification states about them and further properties of the code.

    Conventions of the embedding.

    - A JavaScript string is a [string]: a sequence of 8-bit code units.
    - A JavaScript object is the list of its own enumerable properties in
      the order [Object.keys] reports them (array indices in ascending
      order first, the other names in creation order).
    - Code that can throw returns a [result]; [try]/[catch] is [try_catch].
    - Numbers are IEEE doubles in the source; their type and the text
      [JSON.stringify] gives them are left to the [Host], like SHA-256 and
      the RSA and PEM routines of node-forge, which are not part of the
      repository.
    - A callable is opaque and is never invoked, and prototypes are not
      modelled: field maps with a property named [__proto__] or [toJSON]
      are outside the embedding ([plain_object] says which are inside).
    - Fields that only carry the wall-clock time of a call ([verifiedAt],
      [issuedAt], ...) are left out. *)

From Stdlib Require Import String Ascii List Bool Arith NArith ZArith Lia.
From Stdlib Require Import Permutation Sorted DecimalString.
From Stdlib Require Import Strings.Byte.
Import ListNotations.
Local Open Scope list_scope.
Local Open Scope string_scope.

(** ** Thrown values and results *)

(** A thrown [Error] object: its constructor name and its [message]. *)
Record jserror : Type := mkError { err_name : string; message : string }.

Inductive result (A : Type) : Type :=
| Ok (a : A)
| Throw (e : jserror).
Arguments Ok {A} a.
Arguments Throw {A} e.

Definition bind {A B : Type} (c : result A) (k : A -> result B) : result B :=
  match c with
  | Ok a => k a
  | Throw e => Throw e
  end.

Notation "x <- c ;; k" := (bind c (fun x => k))
  (at level 61, c at next level, right associativity).

(** [try { body } catch (error) { handler }] *)
Definition try_catch {A : Type} (body : result A) (handler : jserror -> result A)
  : result A :=
  match body with
  | Ok a => Ok a
  | Throw e => handler e
  end.

(** ** The host: what the code calls and the repository does not contain *)

Class Host : Type := {
  (** IEEE double *)
  number : Type;
  (** [JSON.stringify] of a number: its shortest decimal text, or [null]
      for [NaN] and the infinities *)
  number_json : number -> string;
  (** [crypto.createHash('sha256').update(s).digest()] *)
  sha256 : string -> list byte;
  (** forge key objects *)
  publicKeyT : Type;
  privateKeyT : Type;
  (** [forge.pki.publicKeyFromPem], [forge.pki.privateKeyFromPem] *)
  publicKeyFromPem : string -> result publicKeyT;
  privateKeyFromPem : string -> result privateKeyT;
  (** [privateKeyObj.sign(hash)] *)
  rsa_sign : privateKeyT -> list byte -> result (list byte);
  (** [publicKeyObj.verify(hash, signatureBytes)] *)
  rsa_verify : publicKeyT -> list byte -> list byte -> result bool;
  (** [forge.util.encode64], [forge.util.decode64] *)
  encode64 : list byte -> string;
  decode64 : string -> result (list byte)
}.

(** ** JavaScript values and JSON.stringify *)

Module JS.
Section WithHost.
Context {H : Host}.

#[local] Unset Elimination Schemes.
Inductive value : Type :=
| VUndefined
| VNull
| VBool (b : bool)
| VNumber (n : number)
| VString (s : string)
| VBigInt (z : Z)
| VFunction
| VDate (iso : option string)      (* [toISOString()]; [None]: an invalid Date *)
| VBuffer (data : list byte)
| VArray (elements : list value)
| VObject (props : list (string * value)).

#[local] Set Elimination Schemes.

Definition object : Type := list (string * value).

(** [o[key]] *)
Fixpoint get (o : object) (key : string) : value :=
  match o with
  | [] => VUndefined
  | (k, v) :: o' => if k =? key then v else get o' key
  end.

(** [Object.keys(o)] *)
Definition Object_keys (o : object) : list string := map fst o.

(** [xs.includes(x)] on an array of strings *)
Definition includes (xs : list string) (x : string) : bool :=
  existsb (String.eqb x) xs.

(** *** Property order of an ordinary object *)

Definition decimal (n : N) : string := NilEmpty.string_of_uint (N.to_uint n).

(** An array index: the canonical decimal text of an integer below 2^32 - 1. *)
Definition array_index (k : string) : option N :=
  match NilEmpty.uint_of_string k with
  | Some u =>
      let n := N.of_uint u in
      if (decimal n =? k) && (n <? 4294967295)%N then Some n else None
  | None => None
  end.

(** Whether a new property [k] is listed before the existing property [k']. *)
Definition goes_before (k k' : string) : bool :=
  match array_index k, array_index k' with
  | Some i, Some j => (i <? j)%N
  | Some _, None => true
  | None, _ => false
  end.

(** [o[k] = v] on an ordinary object. *)
Fixpoint obj_set (o : object) (k : string) (v : value) : object :=
  match o with
  | [] => [(k, v)]
  | (k', v') :: o' =>
      if k' =? k then (k, v) :: o'
      else if goes_before k k' then (k, v) :: o
      else (k', v') :: obj_set o' k v
  end.

(** *** Array.prototype.sort() on strings: ascending by code unit *)

Fixpoint insert (x : string) (l : list string) : list string :=
  match l with
  | [] => [x]
  | y :: l' => if (x <=? y) then x :: l else y :: insert x l'
  end.

Fixpoint sort (l : list string) : list string :=
  match l with
  | [] => []
  | x :: l' => insert x (sort l')
  end.

(** *** QuoteJSONString *)

Definition dquote : ascii := ascii_of_nat 34.
Definition backslash : ascii := ascii_of_nat 92.
Definition str (c : ascii) : string := String c EmptyString.

Definition hex_digit (n : N) : ascii :=
  if (n <? 10)%N then ascii_of_N (48 + n) else ascii_of_N (87 + n).

Definition escape_char (c : ascii) : string :=
  let n := N_of_ascii c in
  if (n =? 34)%N then String backslash (str dquote)
  else if (n =? 92)%N then String backslash (str backslash)
  else if (n =? 8)%N then String backslash "b"
  else if (n =? 12)%N then String backslash "f"
  else if (n =? 10)%N then String backslash "n"
  else if (n =? 13)%N then String backslash "r"
  else if (n =? 9)%N then String backslash "t"
  else if (n <? 32)%N then
    String backslash ("u00" ++ str (hex_digit (n / 16)) ++ str (hex_digit (n mod 16)))
  else str c.

Fixpoint escape (s : string) : string :=
  match s with
  | EmptyString => EmptyString
  | String c s' => escape_char c ++ escape s'
  end.

Definition quote (s : string) : string := str dquote ++ escape s ++ str dquote.

(** *** SerializeJSONProperty *)

Definition sep : string := ",".

(** The text of the object with the properties type and data that
    [Buffer.prototype.toJSON] returns. *)
Definition buffer_json (data : list byte) : string :=
  "{" ++ quote "type" ++ ":" ++ quote "Buffer" ++ "," ++ quote "data" ++ ":["
      ++ String.concat sep (map (fun b => decimal (Byte.to_N b)) data) ++ "]}".

Definition bigint_error : jserror :=
  mkError "TypeError" "Do not know how to serialize a BigInt".

(** One member of an object: the quoted name, a colon, the text. *)
Definition member_text (k s : string) : string := quote k ++ ":" ++ s.

Section Serialize.
Variable ser : value -> result (option string).

(** elements of an array: [undefined] and callables are written [null] *)
Fixpoint elements_text (l : list value) : result (list string) :=
  match l with
  | [] => Ok []
  | x :: l' =>
      t <- ser x ;;
      ts <- elements_text l' ;;
      Ok (match t with Some s => s | None => "null" end :: ts)
  end.

(** members of an object: [undefined] and callables are left out *)
Fixpoint members_text (l : object) : result (list string) :=
  match l with
  | [] => Ok []
  | (k, x) :: l' =>
      t <- ser x ;;
      ms <- members_text l' ;;
      Ok (match t with
          | Some s => (quote k ++ ":" ++ s) :: ms
          | None => ms
          end)
  end.

Definition array_text (l : list value) : result string :=
  ts <- elements_text l ;; Ok ("[" ++ String.concat sep ts ++ "]").

Definition object_text (o : object) : result string :=
  ms <- members_text o ;; Ok ("{" ++ String.concat sep ms ++ "}").
End Serialize.

Fixpoint serialize (v : value) : result (option string) :=
  match v with
  | VUndefined => Ok None
  | VFunction => Ok None
  | VNull => Ok (Some "null")
  | VBool true => Ok (Some "true")
  | VBool false => Ok (Some "false")
  | VNumber n => Ok (Some (number_json n))
  | VString s => Ok (Some (quote s))
  | VBigInt _ => Throw bigint_error
  | VDate (Some iso) => Ok (Some (quote iso))
  | VDate None => Ok (Some "null")
  | VBuffer data => Ok (Some (buffer_json data))
  | VArray l => s <- array_text serialize l ;; Ok (Some s)
  | VObject o => s <- object_text serialize o ;; Ok (Some s)
  end.

(** [JSON.stringify(o, null, 0)] for an object [o] *)
Definition JSON_stringify (o : object) : result string :=
  object_text serialize o.

(** A typed array (a [Uint8Array], say) as [JSON.stringify] sees it: an
    object whose own enumerable properties are its indices. *)
Fixpoint indexed (i : N) (elements : list number) : object :=
  match elements with
  | [] => []
  | x :: elements' => (decimal i, VNumber x) :: indexed (i + 1) elements'
  end.

Definition typed_array (elements : list number) : value :=
  VObject (indexed 0 elements).

(** The members and the text [JSON.stringify] writes for a typed array. *)
Fixpoint index_members (i : N) (elements : list number) : list string :=
  match elements with
  | [] => []
  | x :: elements' =>
      member_text (decimal i) (number_json x) :: index_members (i + 1) elements'
  end.

Definition typed_array_json (elements : list number) : string :=
  "{" ++ String.concat sep (index_members 0 elements) ++ "}".

(** *** Vocabulary of the statements *)

(** The object [o] with the value of its property [k] replaced by [v]. *)
Definition replace_field (o : object) (k : string) (v : value) : object :=
  map (fun kv => if fst kv =? k then (fst kv, v) else kv) o.

(** Property names the embedding covers: an assignment to [__proto__]
    reaches an accessor of [Object.prototype], and [JSON.stringify] invokes
    a callable it finds under [toJSON]. *)
Definition ordinary_name (k : string) : bool :=
  negb (k =? "__proto__") && negb (k =? "toJSON").

(** Values all of whose property names, at any depth, are ordinary. *)
Fixpoint plain (v : value) : bool :=
  match v with
  | VArray l => forallb plain l
  | VObject o =>
      (fix props (o : object) : bool :=
         match o with
         | [] => true
         | (k, x) :: o' => ordinary_name k && plain x && props o'
         end) o
  | _ => true
  end.

Definition plain_object (o : object) : bool := plain (VObject o).

(** Whether a BigInt occurs in a value. *)
Fixpoint has_bigint (v : value) : bool :=
  match v with
  | VBigInt _ => true
  | VArray l => existsb has_bigint l
  | VObject o =>
      (fix props (o : object) : bool :=
         match o with
         | [] => false
         | (_, x) :: o' => has_bigint x || props o'
         end) o
  | _ => false
  end.

(** The order in which an ordinary object lists two of its properties. *)
Definition precedes (k1 k2 : string) : Prop :=
  match array_index k1, array_index k2 with
  | Some i, Some j => (i < j)%N
  | Some _, None => True
  | None, Some _ => False
  | None, None => True
  end.

(** An object whose properties stand in the order of an ordinary object. *)
Definition ordered (o : object) : Prop :=
  StronglySorted precedes (Object_keys o).

(** Two properties with one name: both hold [v] and [v'] when the name is
    [k], and one value otherwise. *)
Definition related (k : string) (v v' : value) (e e' : string * value) : Prop :=
  fst e = fst e'
  /\ ((fst e = k /\ snd e = v /\ snd e' = v')
      \/ (fst e <> k /\ snd e = snd e')).

(** What stands before and after one entry of a separated list. *)
Definition before_entry (ms : list string) : string :=
  match ms with
  | [] => ""
  | _ => String.concat sep ms ++ sep
  end.

Definition after_entry (ms : list string) : string :=
  match ms with
  | [] => ""
  | _ => sep ++ String.concat sep ms
  end.

(** Reading a quoted text back: the value of a hexadecimal digit, and the
    character that the first escape of a text stands for. The closing quote
    stands for none. *)
Definition hex_value (c : ascii) : N :=
  let n := N_of_ascii c in
  if (n <? 58)%N then (n - 48)%N else (n - 87)%N.

Definition unescape_head (s : string) : option ascii :=
  match s with
  | EmptyString => None
  | String c rest =>
      if (N_of_ascii c =? 92)%N then
        match rest with
        | EmptyString => None
        | String d rest' =>
            if (N_of_ascii d =? 117)%N then
              match rest' with
              | String _ (String _ (String h (String l _))) =>
                  Some (ascii_of_N (16 * hex_value h + hex_value l))
              | _ => None
              end
            else if (N_of_ascii d =? 98)%N then Some (ascii_of_N 8)
            else if (N_of_ascii d =? 102)%N then Some (ascii_of_N 12)
            else if (N_of_ascii d =? 110)%N then Some (ascii_of_N 10)
            else if (N_of_ascii d =? 114)%N then Some (ascii_of_N 13)
            else if (N_of_ascii d =? 116)%N then Some (ascii_of_N 9)
            else Some d
        end
      else if (N_of_ascii c =? 34)%N then None
      else Some c
  end.

(** Induction on values, with the elements of arrays and the properties of
    objects as sub-values. *)
Section ValueInduction.
Variable P : value -> Prop.
Hypothesis P_undefined : P VUndefined.
Hypothesis P_null : P VNull.
Hypothesis P_bool : forall b, P (VBool b).
Hypothesis P_number : forall n, P (VNumber n).
Hypothesis P_string : forall s, P (VString s).
Hypothesis P_bigint : forall z, P (VBigInt z).
Hypothesis P_function : P VFunction.
Hypothesis P_date : forall iso, P (VDate iso).
Hypothesis P_buffer : forall data, P (VBuffer data).
Hypothesis P_array : forall l, Forall P l -> P (VArray l).
Hypothesis P_object : forall o, Forall (fun kv => P (snd kv)) o -> P (VObject o).

Fixpoint value_induction (v : value) : P v :=
  match v with
  | VUndefined => P_undefined
  | VNull => P_null
  | VBool b => P_bool b
  | VNumber n => P_number n
  | VString s => P_string s
  | VBigInt z => P_bigint z
  | VFunction => P_function
  | VDate iso => P_date iso
  | VBuffer data => P_buffer data
  | VArray l =>
      P_array l
        ((fix all (l : list value) : Forall P l :=
            match l with
            | [] => Forall_nil P
            | x :: l' => Forall_cons x (value_induction x) (all l')
            end) l)
  | VObject o =>
      P_object o
        ((fix all (o : object) : Forall (fun kv => P (snd kv)) o :=
            match o with
            | [] => Forall_nil _
            | kv :: o' =>
                Forall_cons kv (value_induction (snd kv)) (all o')
            end) o)
  end.
End ValueInduction.

End WithHost.
End JS.

(** ** utils/crypto.js: class CryptoUtils *)

Module CryptoUtils.
Import JS.
Section WithHost.
Context {H : Host}.

(** The fields of the singleton once [loadKeys] has run: two PEM texts. *)
Record instance : Type := {
  privateKey : string;
  publicKey : string
}.

(** *** loadKeys *)

(** What a path names. *)
Inductive node : Type :=
| File (content : string)
| Directory.

(** The file system as [loadKeys] sees it: what each path names, if
    anything. Its operations fail as those of [fs] do on a path that is
    missing or of the wrong kind; failures of other kinds (permissions, a
    full disk) are not part of it. *)
Definition filesystem : Type := string -> option node.

Definition fs_error (code : string) : jserror := mkError "Error" code.

(** [fs.existsSync(path)] *)
Definition existsSync (fs : filesystem) (path : string) : bool :=
  match fs path with
  | Some _ => true
  | None => false
  end.

(** [fs.readFileSync(path, 'utf8')] *)
Definition readFileSync (fs : filesystem) (path : string) : result string :=
  match fs path with
  | Some (File content) => Ok content
  | Some Directory => Throw (fs_error "EISDIR")
  | None => Throw (fs_error "ENOENT")
  end.

Definition put (fs : filesystem) (path : string) (n : node) : filesystem :=
  fun p => if p =? path then Some n else fs p.

Section LoadKeys.
(** [path.dirname]: the path of the directory a path lies in, which is
    shorter than the path unless the path is a root. *)
Variable dirname : string -> string.

(** The directory [path] and the directories above it that are missing, made
    from the top down; [fuel] bounds the number of directories above. *)
Fixpoint make_directories (fuel : nat) (fs : filesystem) (path : string)
  : result filesystem :=
  match fs path with
  | Some Directory => Ok fs
  | Some (File _) => Throw (fs_error "EEXIST")
  | None =>
      match fuel with
      | O => Throw (fs_error "ENOENT")
      | S fuel' =>
          fs <- make_directories fuel' fs (dirname path) ;;
          Ok (put fs path Directory)
      end
  end.

(** [fs.mkdirSync(path, { recursive: true })] *)
Definition mkdirSync (fs : filesystem) (path : string) : result filesystem :=
  make_directories (String.length path) fs path.

(** [fs.writeFileSync(path, content)] *)
Definition writeFileSync (fs : filesystem) (path content : string)
  : result filesystem :=
  match fs path with
  | Some Directory => Throw (fs_error "EISDIR")
  | _ =>
      match fs (dirname path) with
      | Some Directory => Ok (put fs path (File content))
      | _ => Throw (fs_error "ENOENT")
      end
  end.

(** [loadKeys], given the two paths it resolves and what [generateKeyPair]
    gives this time: the PEM texts of a new private and public key, or an
    error. It returns the fields it sets and the file system it leaves; when
    it throws, no instance comes to be, and what it has written by then is
    not described. *)
Definition loadKeys (privateKeyPath publicKeyPath : string)
    (generateKeyPair : result (string * string)) (fs : filesystem)
  : result (instance * filesystem) :=
  try_catch
    (let keysDir := dirname privateKeyPath in
     fs <- (if negb (existsSync fs keysDir) then mkdirSync fs keysDir
            else Ok fs) ;;
     if existsSync fs privateKeyPath && existsSync fs publicKeyPath then
       privateKey <- readFileSync fs privateKeyPath ;;
       publicKey <- readFileSync fs publicKeyPath ;;
       Ok ({| privateKey := privateKey; publicKey := publicKey |}, fs)
     else
       pair <- generateKeyPair ;;
       fs <- writeFileSync fs privateKeyPath (fst pair) ;;
       fs <- writeFileSync fs publicKeyPath (snd pair) ;;
       Ok ({| privateKey := fst pair; publicKey := snd pair |}, fs))
    (fun error =>
       Throw (mkError "Error" "Failed to initialize cryptographic keys")).
End LoadKeys.

(** *** createCanonicalJson *)

Definition excludeFields : list string :=
  ["record_hash"; "created_at"; "updated_at"; "verification_status";
   "canonical_json"].

(** [record[key] !== null && record[key] !== undefined] *)
Definition present (v : value) : bool :=
  match v with
  | VNull | VUndefined => false
  | _ => true
  end.

(** One turn of the [forEach]. *)
Definition copy_field (record cleanRecord : object) (key : string) : object :=
  if present (get record key) then obj_set cleanRecord key (get record key)
  else cleanRecord.

Definition createCanonicalJson (record : object) : result string :=
  let cleanRecord :=
    fold_left (copy_field record)
      (sort (filter (fun key => negb (includes excludeFields key))
                    (Object_keys record)))
      [] in
  JSON_stringify cleanRecord.

(** The keys [createCanonicalJson] goes through, in order; the fields it
    keeps; and the object it builds from a list of keys. *)
Definition hashed_keys (record : object) : list string :=
  sort (filter (fun key => negb (includes excludeFields key)) (Object_keys record)).

Definition kept (kv : string * value) : bool :=
  negb (includes excludeFields (fst kv)).

Definition clean (record : object) (keys : list string) : object :=
  fold_left (copy_field record) keys [].

(** The properties [JSON.stringify] writes: those whose value is neither
    undefined nor a callable. *)
Definition written (kv : string * value) : bool :=
  match snd kv with
  | VUndefined | VFunction => false
  | _ => true
  end.

(** One turn of the [forEach] that copies only what will be written. *)
Definition copy_written (record cleanRecord : object) (key : string) : object :=
  if present (get record key) && written (key, get record key)
  then obj_set cleanRecord key (get record key)
  else cleanRecord.

(** What the canonical JSON writes of the value of a field: nothing for null
    and undefined, which are not copied, and nothing for a callable, which
    [JSON.stringify] leaves out; the JSON text of the value otherwise. *)
Definition field_text (v : value) : result (option string) :=
  if present v then serialize v else Ok None.

(** One turn of the [forEach] that copies only the fields a test lets by. *)
Definition copy_where (P : string * value -> bool) (record cleanRecord : object)
    (key : string) : object :=
  if present (get record key) && P (key, get record key)
  then obj_set cleanRecord key (get record key)
  else cleanRecord.

(** Whether a name is an array index. *)
Definition is_index (k : string) : bool :=
  match array_index k with
  | Some _ => true
  | None => false
  end.

(** Ascending order of array indices. *)
Definition index_lt (k1 k2 : string) : Prop :=
  match array_index k1, array_index k2 with
  | Some i, Some j => (i < j)%N
  | _, _ => False
  end.

(** The characters of the hexadecimal digits in lower case. *)
Definition lower_hex (c : ascii) : bool :=
  let n := N_of_ascii c in
  ((48 <=? n) && (n <=? 57))%N || ((97 <=? n) && (n <=? 102))%N.

(** *** generateHash *)

Definition hex_byte (b : byte) : string :=
  let n := Byte.to_N b in
  str (hex_digit (n / 16)) ++ str (hex_digit (n mod 16)).

(** [digest('hex')] *)
Definition hex (bs : list byte) : string := String.concat "" (map hex_byte bs).

Definition generateHash (record : object) : result string :=
  canonicalJson <- createCanonicalJson record ;;
  Ok (hex (sha256 canonicalJson)).

(** *** signRecord *)

(** [x || d] for a string that may be missing *)
Definition or_default (x : option string) (d : string) : string :=
  match x with
  | Some s => if s =? "" then d else s
  | None => d
  end.

Record signerInfoT : Type := {
  si_name : option string;
  si_role : option string;
  si_email : option string
}.

Record signatureData : Type := {
  sd_signature : string;
  sd_publicKey : string;
  sd_name : string;
  sd_role : string;
  sd_email : string;
  sd_algorithm : string
}.

Definition signRecord (this : instance) (record : object)
    (signerInfo : signerInfoT) : result signatureData :=
  try_catch
    (canonicalJson <- createCanonicalJson record ;;
     let hash := sha256 canonicalJson in
     privateKeyObj <- privateKeyFromPem (privateKey this) ;;
     signature <- rsa_sign privateKeyObj hash ;;
     let signatureBase64 := encode64 signature in
     Ok {| sd_signature := signatureBase64;
           sd_publicKey := publicKey this;
           sd_name := or_default (si_name signerInfo) "System";
           sd_role := or_default (si_role signerInfo) "Automated";
           sd_email := or_default (si_email signerInfo) "system@transparency.gov";
           sd_algorithm := "RSA-SHA256" |})
    (fun error => Throw (mkError "Error" "Failed to create digital signature")).

(** *** verifySignature *)

Record signatureCheck : Type := {
  isValid : bool;
  algorithm : option string;
  error : option string
}.

(** What the [catch] block returns for a thrown error. *)
Definition refused (e : jserror) : signatureCheck :=
  {| isValid := false; algorithm := None; error := Some (message e) |}.

Definition verifySignature (this : instance) (record : object)
    (signature : string) (publicKey_arg : option string)
  : result signatureCheck :=
  try_catch
    (canonicalJson <- createCanonicalJson record ;;
     let hash := sha256 canonicalJson in
     let keyToUse := or_default publicKey_arg (publicKey this) in
     publicKeyObj <- publicKeyFromPem keyToUse ;;
     signatureBytes <- decode64 signature ;;
     isValid <- rsa_verify publicKeyObj hash signatureBytes ;;
     Ok {| isValid := isValid;
           algorithm := Some "RSA-SHA256";
           error := None |})
    (fun error => Ok (refused error)).

(** What node-forge does with the digest as the code hands it over. The
    digest is [digest()] of the hash object, a Node [Buffer] (l.147, l.177).
    [privateKeyObj.sign] (l.151) takes a message digest object, asks it for
    its algorithm, and throws for anything else; [publicKeyObj.verify]
    (l.187) takes the digest as a string of bytes and compares it by [===]
    with the string it reads from the signature, so for a [Buffer] it
    never answers true. *)
Record digest_handed_as_buffer : Prop := {
  sign_throws : forall key digest, exists e, rsa_sign key digest = Throw e;
  verify_never_true : forall key digest signature,
    rsa_verify key digest signature <> Ok true
}.

(** *** verifyRecordIntegrity *)

Record hashCheck : Type := {
  hc_isValid : bool;
  storedHash : option string;
  computedHash : string
}.

(** [s === stored], where [stored] is a text or, as [None], [null] *)
Definition strict_equal (s : string) (stored : option string) : bool :=
  match stored with
  | Some s' => s =? s'
  | None => false
  end.

Definition verifyRecordIntegrity (record : object) (storedHash : option string)
  : result hashCheck :=
  computedHash <- generateHash record ;;
  Ok {| hc_isValid := strict_equal computedHash storedHash;
        storedHash := storedHash;
        computedHash := computedHash |}.

(** *** completeVerification *)

(** A row of the table [approvals]. *)
Record approval : Type := {
  approver_name : string;
  approver_role : string;
  approver_email : option string;
  signed_at : string;
  signature : string;
  public_key : string;
  approval_status : string;
  comments : option string
}.

Record signer : Type := {
  name : string;
  role : string;
  email : option string;
  signedAt : string
}.

Record signatureVerification : Type := {
  sv_check : signatureCheck;
  sv_signer : signer
}.

Inductive status : Type := verified | pending | suspicious.

Record verification : Type := {
  recordId : value;
  verificationStatus : status;
  hashVerification : hashCheck;
  signatureVerifications : list signatureVerification;
  overallValid : bool
}.

(** [xs.map(f)] for an [f] that can throw *)
Fixpoint map_result {A B : Type} (f : A -> result B) (xs : list A)
  : result (list B) :=
  match xs with
  | [] => Ok []
  | x :: xs' => y <- f x ;; ys <- map_result f xs' ;; Ok (y :: ys)
  end.

Definition verify_one (this : instance) (record : object) (sig : approval)
  : result signatureVerification :=
  check <- verifySignature this record (signature sig) (Some (public_key sig)) ;;
  Ok {| sv_check := check;
        sv_signer := {| name := approver_name sig;
                        role := approver_role sig;
                        email := approver_email sig;
                        signedAt := signed_at sig |} |}.

Definition completeVerification (this : instance) (record : object)
    (storedHash : option string) (signatures : list approval)
  : result verification :=
  hashVerification <- verifyRecordIntegrity record storedHash ;;
  signatureVerifications <- map_result (verify_one this record) signatures ;;
  let allSignaturesValid :=
    (0 <? length signatureVerifications)%nat
    && forallb (fun sig => isValid (sv_check sig)) signatureVerifications in
  let verificationStatus :=
    if hc_isValid hashVerification && allSignaturesValid then verified
    else if hc_isValid hashVerification
            && (length signatureVerifications =? 0)%nat then pending
    else suspicious in
  Ok {| recordId := get record "id";
        verificationStatus := verificationStatus;
        hashVerification := hashVerification;
        signatureVerifications := signatureVerifications;
        overallValid :=
          hc_isValid hashVerification
          && (allSignaturesValid
              || (length signatureVerifications =? 0)%nat) |}.

End WithHost.
End CryptoUtils.

(** ** routes/verification.js *)

Module Routes.
Import JS CryptoUtils.

(** What a handler sends: [res.json(a)], or [res.status(code).json({error})]. *)
Inductive reply (A : Type) : Type :=
| Json (a : A)
| Failure (code : nat) (error : string).
Arguments Json {A} a.
Arguments Failure {A} code error.

Section WithHost.
Context {H : Host}.

(** The storage collaborator behind [pool.query], one field per statement
    of this file. *)
Record database : Type := {
  (** [SELECT * FROM <table> WHERE id = $1] *)
  select_record : string -> string -> result (list object);
  (** [SELECT * FROM approvals WHERE related_record_id = $1 AND
      related_record_type = $2 ORDER BY signed_at DESC] *)
  select_approvals : string -> string -> result (list approval);
  (** the ten latest rows of [audit_log] for a table and a record *)
  select_audit : string -> string -> result (list object)
}.

(** *** GET /api/verify/:recordType/:recordId *)

Definition validTypes : list string := ["budget"; "project"; "vendor"; "transaction"].

Definition tableMap : object (H := H) :=
  [("budget", VString "budgets"); ("project", VString "projects");
   ("vendor", VString "vendors"); ("transaction", VString "transactions")].

Definition table_name (recordType : string) : string :=
  match get tableMap recordType with
  | VString t => t
  | _ => "undefined"
  end.

(** The text of a column of type VARCHAR; [None] for [null] and for any
    other value, which no computed hash equals. *)
Definition as_text (v : value) : option string :=
  match v with
  | VString s => Some s
  | _ => None
  end.

Record approvalReport : Type := {
  ar_name : string;
  ar_role : string;
  ar_email : option string;
  ar_signedAt : string;
  ar_status : string;
  ar_comments : option string;
  hasValidSignature : bool
}.

Record verificationSummaryT : Type := {
  overallStatus : status;
  hashIntegrity : bool;
  signatureCount : nat;
  validSignatures : nat
}.

Record verificationReport : Type := {
  vr_recordId : string;
  vr_recordType : string;
  vr_record : object;
  vr_verification : verification;
  vr_approvals : list approvalReport;
  vr_auditTrail : list object;
  verificationSummary : verificationSummaryT
}.

(** [signatureVerifications.find(sig => sig.signer.name === n)?.isValid || false] *)
Definition valid_by_name (svs : list signatureVerification) (n : string) : bool :=
  match find (fun sig => name (sv_signer sig) =? n) svs with
  | Some sig => isValid (sv_check sig)
  | None => false
  end.

Definition report_approval (v : verification) (a : approval) : approvalReport :=
  {| ar_name := approver_name a;
     ar_role := approver_role a;
     ar_email := approver_email a;
     ar_signedAt := signed_at a;
     ar_status := approval_status a;
     ar_comments := comments a;
     hasValidSignature := valid_by_name (signatureVerifications v) (approver_name a) |}.

(** [res.json] writes the report with [JSON.stringify]: the record and the
    audit rows are the parts of it that hold arbitrary values. *)
Definition send_check (record : object) (rows : list object) : result unit :=
  _ <- JSON_stringify record ;;
  _ <- map_result JSON_stringify rows ;;
  Ok tt.

Definition verify_route (this : instance) (db : database)
    (recordType recordId : string) : reply verificationReport :=
  let body : result (reply verificationReport) :=
    if negb (includes validTypes recordType) then
      Ok (Failure 400 "Invalid record type")
    else
      let tableName := table_name recordType in
      rows <- select_record db tableName recordId ;;
      match rows with
      | [] => Ok (Failure 404 "Record not found")
      | record :: _ =>
          approvals <- select_approvals db recordId recordType ;;
          verification <-
            completeVerification this record
              (as_text (get record "record_hash")) approvals ;;
          history <- select_audit db tableName recordId ;;
          let shown := obj_set record "canonical_json" VUndefined in
          _ <- send_check shown history ;;
          Ok (Json
            {| vr_recordId := recordId;
               vr_recordType := recordType;
               vr_record := shown;
               vr_verification := verification;
               vr_approvals := map (report_approval verification) approvals;
               vr_auditTrail := history;
               verificationSummary :=
                 {| overallStatus := verificationStatus verification;
                    hashIntegrity := hc_isValid (hashVerification verification);
                    signatureCount := length approvals;
                    validSignatures :=
                      length (filter (fun sig => isValid (sv_check sig))
                                     (signatureVerifications verification)) |} |})
      end in
  match body with
  | Ok r => r
  | Throw _ => Failure 500 "Verification failed"
  end.

(** The two other routes ask the route above over HTTP. They put the two
    path parameters, as they are, into the address
    [`${req.protocol}://${req.get('host')}/api/verify/${recordType}/${recordId}`];
    [origin] is the part before [/api]. *)
Definition verify_url (origin recordType recordId : string) : string :=
  origin ++ "/api/verify/" ++ recordType ++ "/" ++ recordId.

(** What [fetch] and [json()] give for an address: the body of an answer
    that is a report, the status and the error of an answer that is not,
    or a thrown error when the request fails or the body is no JSON. Which
    server answers, how it reads the address and whether its rate limiter
    lets the request by is not decided here. Bodies of other shapes are
    outside the embedding. *)
Definition answer : Type := result (reply verificationReport).

(** *** POST /api/verify/batch *)

(** An element of [records] that is an object; its two fields are texts.
    An element that is [null] is the [None] of [batch_route] below. A field
    that is missing or no text is outside the embedding: the template
    literal of l.143 would make a text of it, inside the [try] of the
    item, and the entry would repeat the field as it came. *)
Record batchItem : Type := { recordType : string; recordId : string }.

(** One of the three statuses, or the text error. *)
Inductive itemStatus : Type :=
| item_status (s : status)
| item_error.

Record batchResult : Type := {
  br_recordId : string;
  br_recordType : string;
  br_status : itemStatus;
  br_verified : bool;
  br_error : option string
}.

Record batchSummary : Type := {
  totalRecords : nat;
  bs_verified : nat;
  bs_pending : nat;
  bs_suspicious : nat;
  bs_errors : nat
}.

Record batchReport : Type := {
  results : list batchResult;
  summary : batchSummary
}.

Definition is_status (s : itemStatus) (t : itemStatus) : bool :=
  match s, t with
  | item_error, item_error => true
  | item_status verified, item_status verified => true
  | item_status pending, item_status pending => true
  | item_status suspicious, item_status suspicious => true
  | _, _ => false
  end.

(** The entry pushed for an item, from what its request gave. *)
Definition entry (item : batchItem) (a : answer) : batchResult :=
  match a with
  | Ok (Json report) =>
      {| br_recordId := recordId item;
         br_recordType := recordType item;
         br_status := item_status (overallStatus (verificationSummary report));
         br_verified := overallValid (vr_verification report);
         br_error := None |}
  | Ok (Failure _ error) =>
      {| br_recordId := recordId item;
         br_recordType := recordType item;
         br_status := item_error;
         br_verified := false;
         br_error := if error =? "" then None else Some error |}
  | Throw error =>
      {| br_recordId := recordId item;
         br_recordType := recordType item;
         br_status := item_error;
         br_verified := false;
         br_error := Some (message error) |}
  end.

Definition count (s : itemStatus) (rs : list batchResult) : nat :=
  length (filter (fun r => is_status (br_status r) s) rs).

(** The address asked for an item, and the entries of a run of items from
    the answers they got. *)
Definition item_url (origin : string) (item : batchItem) : string :=
  verify_url origin (recordType item) (recordId item).

Definition entries (items : list batchItem) (answers : list answer)
  : list batchResult :=
  map (fun p => entry (fst p) (snd p)) (combine items answers).

Section Batch.
(** The servers that answer the requests of the handler, with all they
    remember between two requests (the counters of the rate limiter, the
    store): a state, and the answer to a request in a state with the state
    it leaves. *)
Variable server : Type.
Variable fetch : server -> string -> answer * server.
Variable origin : string.

(** The error of destructuring an element that is null or undefined. *)
Definition not_an_object : jserror :=
  mkError "TypeError" "Cannot destructure property of null or undefined".

(** The loop over [records]. An element is [None] when it is null or
    undefined: destructuring it in the head of the loop throws, outside the
    [try] of the body. The loop gives the entries pushed, or the error
    thrown; the state of the servers; and the addresses asked, in order. *)
Fixpoint batch_loop (records : list (option batchItem)) (s : server)
    (verificationResults : list batchResult) (sent : list string)
  : result (list batchResult) * server * list string :=
  match records with
  | [] => (Ok verificationResults, s, sent)
  | None :: _ => (Throw not_an_object, s, sent)
  | Some item :: records' =>
      let url := item_url origin item in
      let (a, s') := fetch s url in
      batch_loop records' s' (verificationResults ++ [entry item a])%list
        (sent ++ [url])%list
  end.

(** The handler: its reply, the state it leaves and the addresses it asked.
    [records] is [None] when [req.body.records] is not an array. *)
Definition batch_route (records : option (list (option batchItem))) (s : server)
  : reply batchReport * server * list string :=
  match records with
  | None => (Failure 400 "Records array is required", s, [])
  | Some records =>
      if (length records =? 0)%nat then
        (Failure 400 "Records array is required", s, [])
      else if (50 <? length records)%nat then
        (Failure 400 "Maximum 50 records allowed per batch", s, [])
      else
        match batch_loop records s [] [] with
        | (Ok verificationResults, s', sent) =>
            (Json {| results := verificationResults;
                     summary :=
                       {| totalRecords := length records;
                          bs_verified :=
                            length (filter br_verified verificationResults);
                          bs_pending :=
                            count (item_status pending) verificationResults;
                          bs_suspicious :=
                            count (item_status suspicious) verificationResults;
                          bs_errors := count item_error verificationResults |} |},
             s', sent)
        | (Throw _, s', sent) =>
            (Failure 500 "Batch verification failed", s', sent)
        end
  end.

(** The answers a run of requests gets, each in the state the requests
    before it left, and the state after the last. *)
Fixpoint serve (items : list batchItem) (s : server) : list answer * server :=
  match items with
  | [] => ([], s)
  | item :: items' =>
      let (a, s') := fetch s (item_url origin item) in
      let (rest, s'') := serve items' s' in
      (a :: rest, s'')
  end.
End Batch.

(** *** GET /api/verify/:recordType/:recordId/certificate *)

Record signerLine : Type := {
  sl_name : string;
  sl_role : string;
  sl_signedAt : string;
  valid : bool
}.

(** The fields of the certificate that come from the verification; the
    random identifier, the title and the audit excerpt are left out. *)
Record certificate : Type := {
  subject_recordId : string;
  subject_recordType : string;
  cert_status : status;
  hashVerified : bool;
  originalHash : option string;
  cert_computedHash : string;
  hashMatch : bool;
  totalSignatures : nat;
  cert_validSignatures : nat;
  signers : list signerLine;
  totalChanges : nat;
  issuer_publicKey : string
}.

(** The handler makes one request; [fetch] is what an address gives. *)
Definition certificate_route (fetch : string -> answer) (origin : string)
    (this : instance) (recordType recordId : string)
  : reply certificate :=
  match fetch (verify_url origin recordType recordId) with
  | Throw _ => Failure 500 "Failed to generate verification certificate"
  | Ok (Failure code error) => Failure code error
  | Ok (Json verificationData) =>
      let v := vr_verification verificationData in
      let s := verificationSummary verificationData in
      Json
        {| subject_recordId := vr_recordId verificationData;
           subject_recordType := vr_recordType verificationData;
           cert_status := overallStatus s;
           hashVerified := hashIntegrity s;
           originalHash := storedHash (hashVerification v);
           cert_computedHash := computedHash (hashVerification v);
           hashMatch := hc_isValid (hashVerification v);
           totalSignatures := signatureCount s;
           cert_validSignatures := validSignatures s;
           signers :=
             map (fun approval =>
                    {| sl_name := ar_name approval;
                       sl_role := ar_role approval;
                       sl_signedAt := ar_signedAt approval;
                       valid := hasValidSignature approval |})
                 (vr_approvals verificationData);
           totalChanges := length (vr_auditTrail verificationData);
           issuer_publicKey := publicKey this |}
  end.

End WithHost.

(** *** GET /api/verify/statistics *)

(** The four texts the query gives as [record_type]. *)
Inductive table : Type := budgets | projects | vendors | transactions.

Definition table_eqb (t t' : table) : bool :=
  match t, t' with
  | budgets, budgets | projects, projects | vendors, vendors
  | transactions, transactions => true
  | _, _ => false
  end.

(** A row of the query: the column [verification_status] is of an
    enumerated type with the three statuses, or null; [count] is the number
    [parseInt] reads, a count of rows, far below 2^53. *)
Record statsRow : Type := {
  record_type : table;
  verification_status : option status;
  row_count : N
}.

(** One of the five objects of counters. The property [null] comes to be
    when a row has no status, and then holds NaN. The percentages, which
    are rounded quotients of floating-point numbers, are left out. *)
Record counters : Type := {
  c_verified : N;
  c_pending : N;
  c_suspicious : N;
  c_total : N;
  c_null : bool
}.

Definition no_counts : counters :=
  {| c_verified := 0; c_pending := 0; c_suspicious := 0; c_total := 0;
     c_null := false |}.

(** [c[status] += count] *)
Definition add_status (c : counters) (s : option status) (n : N) : counters :=
  match s with
  | Some verified =>
      {| c_verified := c_verified c + n; c_pending := c_pending c;
         c_suspicious := c_suspicious c; c_total := c_total c;
         c_null := c_null c |}
  | Some pending =>
      {| c_verified := c_verified c; c_pending := c_pending c + n;
         c_suspicious := c_suspicious c; c_total := c_total c;
         c_null := c_null c |}
  | Some suspicious =>
      {| c_verified := c_verified c; c_pending := c_pending c;
         c_suspicious := c_suspicious c + n; c_total := c_total c;
         c_null := c_null c |}
  | None =>
      {| c_verified := c_verified c; c_pending := c_pending c;
         c_suspicious := c_suspicious c; c_total := c_total c;
         c_null := true |}
  end.

(** [c.total += count] *)
Definition add_total (c : counters) (n : N) : counters :=
  {| c_verified := c_verified c; c_pending := c_pending c;
     c_suspicious := c_suspicious c; c_total := c_total c + n;
     c_null := c_null c |}.

Record statistics : Type := {
  overall : counters;
  byRecordType : table -> counters
}.

(** One turn of [statsResult.rows.forEach]. *)
Definition stats_step (st : statistics) (row : statsRow) : statistics :=
  let count := row_count row in
  let recordType := record_type row in
  let status := verification_status row in
  {| overall := add_total (add_status (overall st) status count) count;
     byRecordType := fun t =>
       if table_eqb t recordType
       then add_total (add_status (byRecordType st t) status count) count
       else byRecordType st t |}.

Definition statistics_of (rows : list statsRow) : statistics :=
  fold_left stats_step rows
    {| overall := no_counts; byRecordType := fun _ => no_counts |}.

(** The sum of the counts of the rows that pass a test. *)
Definition sum_counts (p : statsRow -> bool) (rows : list statsRow) : N :=
  fold_right (fun row n => if p row then (row_count row + n)%N else n) 0%N rows.

(** The counter kept for a status. *)
Definition count_of (s : status) (c : counters) : N :=
  match s with
  | verified => c_verified c
  | pending => c_pending c
  | suspicious => c_suspicious c
  end.

Definition has_status (s : option status) (row : statsRow) : bool :=
  match s, verification_status row with
  | Some verified, Some verified => true
  | Some pending, Some pending => true
  | Some suspicious, Some suspicious => true
  | None, None => true
  | _, _ => false
  end.

End Routes.

(** ** A host to run the code on

    Small stand-ins for the routines of the [Host], so that the definitions
    above compute on concrete input. The digest of a text is its bytes, a
    key is the text after the PEM label, and a signature is the key
    followed by the digest. *)

Module Demo.
Import JS CryptoUtils Routes.

Definition byte_eqb (a b : byte) : bool := (Byte.to_N a =? Byte.to_N b)%N.

Fixpoint bytes_eqb (xs ys : list byte) : bool :=
  match xs, ys with
  | [], [] => true
  | x :: xs', y :: ys' => byte_eqb x y && bytes_eqb xs' ys'
  | _, _ => false
  end.

Definition pem_body (label pem : string) : result (list byte) :=
  if prefix label pem then
    Ok (list_byte_of_string
          (substring (String.length label) (String.length pem - String.length label) pem))
  else Throw (mkError "Error" "Invalid PEM formatted message.").

#[local] Instance host : Host := {|
  number := Z;
  number_json := fun z => NilEmpty.string_of_int (Z.to_int z);
  sha256 := list_byte_of_string;
  publicKeyT := list byte;
  privateKeyT := list byte;
  publicKeyFromPem := pem_body "PUBLIC:";
  privateKeyFromPem := pem_body "PRIVATE:";
  rsa_sign := fun key digest => Ok (key ++ digest)%list;
  rsa_verify := fun key digest signature =>
    if (length signature =? length key + length digest)%nat
    then Ok (bytes_eqb signature (key ++ digest)%list)
    else Throw (mkError "Error" "Encrypted message length is invalid.");
  encode64 := string_of_list_byte;
  decode64 := fun s => Ok (list_byte_of_string s)
|}.

Definition engine : instance :=
  {| privateKey := "PRIVATE:k1"; publicKey := "PUBLIC:k1" |}.

(** The first budget of the sample data: the fields that are hashed, then
    the row with its stored hash and the other excluded columns. *)
Definition budget_id : string := "550e8400-e29b-41d4-a716-446655440001".

Definition budget_fields : object :=
  [("id", VString budget_id);
   ("department", VString "Education");
   ("year", VNumber 2024%Z);
   ("total_amount", VString "5000000.00");
   ("description", VNull)].

Definition text_of (r : result string) : string :=
  match r with
  | Ok s => s
  | Throw _ => ""
  end.

Definition budget_hash : string := text_of (generateHash budget_fields).

Definition budget : object :=
  (budget_fields ++
   [("created_at", VDate (Some "2024-01-01T00:00:00.000Z"));
    ("updated_at", VDate (Some "2024-01-01T00:00:00.000Z"));
    ("record_hash", VString budget_hash);
    ("verification_status", VString "verified");
    ("canonical_json", VObject [])])%list.

(** The signature the engine gives the budget. *)
Definition system_signature : string :=
  match signRecord engine budget
          {| si_name := None; si_role := None; si_email := None |} with
  | Ok s => sd_signature s
  | Throw _ => ""
  end.

(** Two approvals under one approver name: the first carries the engine's
    signature, the second a signature that does not verify. *)
Definition approval_1 : approval :=
  {| approver_name := "A. Rao";
     approver_role := "Finance Secretary";
     approver_email := None;
     signed_at := "2024-02-02T10:00:00.000Z";
     signature := system_signature;
     public_key := "PUBLIC:k1";
     approval_status := "approved";
     comments := None |}.

Definition approval_2 : approval :=
  {| approver_name := "A. Rao";
     approver_role := "Auditor";
     approver_email := None;
     signed_at := "2024-02-01T10:00:00.000Z";
     signature := "forged";
     public_key := "PUBLIC:k2";
     approval_status := "approved";
     comments := None |}.

(** A store that holds the budget and its two approvals. *)
Definition db : database :=
  {| select_record := fun table id =>
       if (table =? "budgets") && (id =? budget_id) then Ok [budget] else Ok [];
     select_approvals := fun id type =>
       if (id =? budget_id) && (type =? "budget")
       then Ok [approval_1; approval_2] else Ok [];
     select_audit := fun _ _ => Ok [] |}.

End Demo.

(** ** More sample data *)

Module Samples.
Import JS CryptoUtils Routes Demo.
#[local] Existing Instance Demo.host.

(** The body of a request that creates the budget: the fields without the
    identifier and without a description. *)
Definition budget_data : object :=
  [("department", VString "Education");
   ("year", VNumber 2024%Z);
   ("total_amount", VString "5000000.00")].

(** An approval of the budget by another approver, with a signature that
    does not verify. *)
Definition approval_3 : approval :=
  {| approver_name := "B. Sen";
     approver_role := "Auditor";
     approver_email := None;
     signed_at := "2024-02-01T10:00:00.000Z";
     signature := "forged";
     public_key := "PUBLIC:k2";
     approval_status := "approved";
     comments := None |}.

(** A store that holds the budget and two approvals under two names, and
    what the address of the budget gives on a server that answers it with
    the verification route over that store. *)
Definition db_two_names : database :=
  {| select_record := select_record db;
     select_approvals := fun id type =>
       if (id =? budget_id) && (type =? "budget")
       then Ok [approval_1; approval_3] else Ok [];
     select_audit := select_audit db |}.

Definition origin : string := "http://localhost:5000".

Definition fetch_two_names : string -> answer :=
  fun url =>
    if url =? verify_url origin "budget" budget_id
    then Ok (verify_route engine db_two_names "budget" budget_id)
    else Ok (Failure 404 "Not found").

(** The two key files, their directory, and a disk that holds the root
    directory only. *)
Definition private_pem : string := "/srv/keys/private.pem".
Definition public_pem : string := "/srv/keys/public.pem".

(** [path.dirname] on the paths at or above the key files *)
Definition dirname (path : string) : string :=
  if (path =? private_pem) || (path =? public_pem) then "/srv/keys"
  else if path =? "/srv/keys" then "/srv"
  else "/".

Definition empty_disk : filesystem :=
  fun path => if path =? "/" then Some Directory else None.

Definition disk_with_keys : filesystem :=
  put (put (put (put empty_disk "/srv" Directory) "/srv/keys" Directory)
           private_pem (File "PRIVATE:k1"))
      public_pem (File "PUBLIC:k1").

End Samples.

(** ** A host that treats the digest as node-forge treats a Buffer

    Stand-ins as in [Demo], but signing throws and a check of a signature
    answers false, or throws when the signature has not the length of the
    key. *)

Module Forge.
Import JS CryptoUtils Routes.

#[local] Instance host : Host := {|
  number := Z;
  number_json := fun z => NilEmpty.string_of_int (Z.to_int z);
  sha256 := list_byte_of_string;
  publicKeyT := list byte;
  privateKeyT := list byte;
  publicKeyFromPem := Demo.pem_body "PUBLIC:";
  privateKeyFromPem := Demo.pem_body "PRIVATE:";
  rsa_sign := fun key digest =>
    Throw (mkError "Error" "Unknown message digest algorithm.");
  rsa_verify := fun key digest signature =>
    if (length signature =? length key)%nat then Ok false
    else Throw (mkError "Error" "Encrypted message length is invalid.");
  encode64 := string_of_list_byte;
  decode64 := fun s => Ok (list_byte_of_string s)
|}.

Definition engine : instance :=
  {| privateKey := "PRIVATE:k1"; publicKey := "PUBLIC:k1" |}.

(** A budget: the fields that are hashed, then the row with its stored
    hash. *)
Definition grant_id : string := "550e8400-e29b-41d4-a716-446655440002".

Definition grant_fields : object :=
  [("id", VString grant_id);
   ("department", VString "Health");
   ("year", VNumber 2025%Z);
   ("total_amount", VString "120000.00");
   ("description", VNull)].

Definition grant_hash : string := Demo.text_of (generateHash grant_fields).

Definition grant : object :=
  (grant_fields ++
   [("created_at", VDate (Some "2025-01-01T00:00:00.000Z"));
    ("record_hash", VString grant_hash);
    ("verification_status", VString "pending")])%list.

(** Two approvals under one approver name: the signature of the first has
    the length of its key, that of the second has not. *)
Definition approval_a : approval :=
  {| approver_name := "A. Rao";
     approver_role := "Finance Secretary";
     approver_email := None;
     signed_at := "2025-02-02T10:00:00.000Z";
     signature := "s1";
     public_key := "PUBLIC:k1";
     approval_status := "approved";
     comments := None |}.

Definition approval_b : approval :=
  {| approver_name := "A. Rao";
     approver_role := "Auditor";
     approver_email := None;
     signed_at := "2025-02-01T10:00:00.000Z";
     signature := "forged";
     public_key := "PUBLIC:k2";
     approval_status := "approved";
     comments := None |}.

(** A store that holds the grant and its two approvals, and a store that
    holds the grant and no approval. *)
Definition db : database :=
  {| select_record := fun table id =>
       if (table =? "budgets") && (id =? grant_id) then Ok [grant] else Ok [];
     select_approvals := fun id type =>
       if (id =? grant_id) && (type =? "budget")
       then Ok [approval_a; approval_b] else Ok [];
     select_audit := fun _ _ => Ok [] |}.

Definition db_unsigned : database :=
  {| select_record := select_record db;
     select_approvals := fun _ _ => Ok [];
     select_audit := select_audit db |}.

Definition origin : string := "http://localhost:5000".

Definition grant_item : batchItem :=
  {| recordType := "budget"; recordId := grant_id |}.

Definition missing_item : batchItem :=
  {| recordType := "budget"; recordId := "no-such-record" |}.

(** What an address gives on a server that answers the address of the grant
    and that of the missing record with the verification route. *)
Definition route_of (db : database) : string -> answer :=
  fun url =>
    if url =? item_url origin grant_item
    then Ok (verify_route engine db "budget" grant_id)
    else if url =? item_url origin missing_item
    then Ok (verify_route engine db "budget" "no-such-record")
    else Ok (Failure 404 "Not found").

(** That server with nothing to remember, and behind a rate limiter that
    remembers how many requests it still lets by: the body it sends for a
    request over the limit is a plain text, and reading it as JSON throws. *)
Definition steady (db : database) : unit -> string -> answer * unit :=
  fun s url => (route_of db url, s).

Definition limited (db : database) : nat -> string -> answer * nat :=
  fun left url =>
    match left with
    | O => (Throw (mkError "SyntaxError" "Unexpected token T in JSON at position 0"), O)
    | S left' => (route_of db url, left')
    end.

End Forge.

(** * Properties *)

(** ** Signature verification never throws *)

Section VerifySignature.
Import JS CryptoUtils.
Context {H : Host}.

Lemma verifySignature_returns (this : instance) (record : object)
    (signature : string) (key : option string) :
  exists check, verifySignature this record signature key = Ok check.
Proof.
  unfold verifySignature.
  destruct (createCanonicalJson record) as [json|e]; cbn; eauto.
  destruct (publicKeyFromPem _) as [pk|e]; cbn; eauto.
  destruct (decode64 signature) as [bytes|e]; cbn; eauto.
  destruct (rsa_verify pk _ bytes) as [b|e]; cbn; eauto.
Qed.

Lemma map_result_returns {A B : Type} (f : A -> result B) (xs : list A) :
  (forall x, exists y, f x = Ok y) ->
  exists ys, map_result f xs = Ok ys /\ length ys = length xs.
Proof.
  intros Hf. induction xs as [|x xs IH]; cbn.
  - exists []. split; reflexivity.
  - destruct (Hf x) as [y ->]. destruct IH as [ys [-> Hlen]]. cbn.
    exists (y :: ys). split; [reflexivity | cbn; congruence].
Qed.

Lemma verify_one_returns (this : instance) (record : object) (sig : approval) :
  exists sv, verify_one this record sig = Ok sv.
Proof.
  unfold verify_one.
  destruct (verifySignature_returns this record (signature sig)
              (Some (public_key sig))) as [check ->].
  cbn. eauto.
Qed.


End VerifySignature.

(** ** Resolution of the verification status *)

Section Status.
Import JS CryptoUtils.
Context {H : Host}.

Lemma strict_equal_true (s : string) (stored : option string) :
  strict_equal s stored = true <-> stored = Some s.
Proof.
  destruct stored as [s'|]; cbn.
  - rewrite String.eqb_eq. split; congruence.
  - split; discriminate.
Qed.

Lemma completeVerification_returns (this : instance) (record : object)
    (storedHash : option string) (signatures : list approval) (h : string) :
  generateHash record = Ok h ->
  exists svs,
    map_result (verify_one this record) signatures = Ok svs
    /\ length svs = length signatures
    /\ completeVerification this record storedHash signatures
       = Ok {| recordId := get record "id";
               verificationStatus :=
                 if strict_equal h storedHash
                    && ((0 <? length svs)%nat
                        && forallb (fun sig => isValid (sv_check sig)) svs)
                 then verified
                 else if strict_equal h storedHash && (length svs =? 0)%nat
                 then pending else suspicious;
               hashVerification :=
                 {| hc_isValid := strict_equal h storedHash;
                    storedHash := storedHash;
                    computedHash := h |};
               signatureVerifications := svs;
               overallValid :=
                 strict_equal h storedHash
                 && (((0 <? length svs)%nat
                      && forallb (fun sig => isValid (sv_check sig)) svs)
                     || (length svs =? 0)%nat) |}.
Proof.
  intros Hh.
  destruct (map_result_returns (verify_one this record) signatures
              (verify_one_returns this record)) as [svs [Hsvs Hlen]].
  exists svs. split; [exact Hsvs|]. split; [exact Hlen|].
  unfold completeVerification, verifyRecordIntegrity.
  rewrite Hh. cbn. rewrite Hsvs. cbn. reflexivity.
Qed.

(** C1. Whenever the hash recomputed from the record differs from the
    stored hash, [completeVerification] returns the status suspicious,
    whatever the signatures are and whether or not they verify. *)
Theorem tamper_signal_dominates (this : instance) (record : object)
    (storedHash : option string) (signatures : list approval) (h : string) :
  generateHash record = Ok h ->
  storedHash <> Some h ->
  exists v,
    completeVerification this record storedHash signatures = Ok v
    /\ verificationStatus v = suspicious.
Proof.
  intros Hh Hneq.
  destruct (completeVerification_returns this record storedHash signatures h Hh)
    as [svs [_ [_ Hv]]].
  eexists. split; [exact Hv|]. cbn.
  destruct (strict_equal h storedHash) eqn:Heq; [|reflexivity].
  apply strict_equal_true in Heq. contradiction.
Qed.

(** C2. [completeVerification] returns the status pending exactly when the
    recomputed hash equals the stored hash and there is no signature; in
    every other case the status is verified or suspicious. *)
Theorem pending_iff_hash_matches_and_unsigned (this : instance)
    (record : object) (storedHash : option string)
    (signatures : list approval) (h : string) :
  generateHash record = Ok h ->
  exists v,
    completeVerification this record storedHash signatures = Ok v
    /\ (verificationStatus v = pending
        <-> storedHash = Some h /\ signatures = [])
    /\ (~ (storedHash = Some h /\ signatures = []) ->
        verificationStatus v = verified \/ verificationStatus v = suspicious).
Proof.
  intros Hh.
  destruct (completeVerification_returns this record storedHash signatures h Hh)
    as [svs [_ [Hlen Hv]]].
  eexists. split; [exact Hv|]. cbn.
  assert (Hempty : (length svs =? 0)%nat = true <-> signatures = []).
  { rewrite Nat.eqb_eq, Hlen. destruct signatures; cbn; split;
      congruence || discriminate. }
  destruct (strict_equal h storedHash) eqn:Heq; cbn.
  - apply strict_equal_true in Heq.
    destruct svs as [|sv svs]; cbn in *.
    + split.
      * split; [intros _; split; [exact Heq | apply Hempty; reflexivity]
               | reflexivity].
      * intros Hn. exfalso. apply Hn.
        split; [exact Heq | apply Hempty; reflexivity].
    + assert (Hne : signatures <> []).
      { intros ->. cbn in Hlen. discriminate. }
      destruct (isValid (sv_check sv) && forallb _ svs); cbn.
      * split; [split; [discriminate | intros [_ Hs]; contradiction]
               | intros _; left; reflexivity].
      * split; [split; [discriminate | intros [_ Hs]; contradiction]
               | intros _; right; reflexivity].
  - assert (Hne : storedHash <> Some h).
    { intros Hs. apply strict_equal_true in Hs. congruence. }
    split; [split; [discriminate | intros [Hs _]; contradiction]
           | intros _; right; reflexivity].
Qed.

End Status.

(** ** Canonical JSON does not depend on the order of the fields *)

Section Order.
Import JS CryptoUtils.
Context {H : Host}.

Lemma ascii_compare_trans_le (a b c : ascii) :
  Ascii.compare a b <> Gt -> Ascii.compare b c <> Gt -> Ascii.compare a c <> Gt.
Proof.
  unfold Ascii.compare. rewrite !N.compare_le_iff. lia.
Qed.

Lemma string_compare_refl (s : string) : String.compare s s = Eq.
Proof.
  induction s as [|a s IH]; cbn; [reflexivity|].
  unfold Ascii.compare. rewrite N.compare_refl. exact IH.
Qed.

Lemma leb_trans (s1 s2 s3 : string) :
  (s1 <=? s2) = true -> (s2 <=? s3) = true -> (s1 <=? s3) = true.
Proof.
  unfold String.leb. revert s2 s3.
  induction s1 as [|a s1 IH]; intros [|b s2] [|c s3]; cbn; try congruence.
  unfold Ascii.compare.
  destruct (N.compare_spec (N_of_ascii a) (N_of_ascii b)) as [Hab|Hab|Hab];
    destruct (N.compare_spec (N_of_ascii b) (N_of_ascii c)) as [Hbc|Hbc|Hbc];
    destruct (N.compare_spec (N_of_ascii a) (N_of_ascii c)) as [Hac|Hac|Hac];
    try congruence; try lia.
  apply IH.
Qed.

Lemma leb_false_flip (x y : string) : (x <=? y) = false -> (y <=? x) = true.
Proof.
  intros Hxy. destruct (String.leb_total x y) as [Hc|Hc]; congruence.
Qed.

Lemma insert_insert (x y : string) (l : list string) :
  insert x (insert y l) = insert y (insert x l).
Proof.
  induction l as [|h t IH]; cbn.
  - destruct (x <=? y) eqn:Hxy, (y <=? x) eqn:Hyx; try reflexivity.
    + rewrite (String.leb_antisym x y Hxy Hyx). reflexivity.
    + apply leb_false_flip in Hxy. congruence.
  - destruct (y <=? h) eqn:Hyh, (x <=? h) eqn:Hxh; cbn.
    + destruct (x <=? y) eqn:Hxy, (y <=? x) eqn:Hyx;
        rewrite ?Hyh, ?Hxh; try reflexivity.
      * rewrite (String.leb_antisym x y Hxy Hyx). reflexivity.
      * apply leb_false_flip in Hxy. congruence.
    + rewrite Hyh.
      destruct (x <=? y) eqn:Hxy.
      * rewrite (leb_trans x y h Hxy Hyh) in Hxh. discriminate.
      * rewrite Hxh. reflexivity.
    + rewrite Hxh.
      destruct (y <=? x) eqn:Hyx.
      * rewrite (leb_trans y x h Hyx Hxh) in Hyh. discriminate.
      * rewrite Hyh. reflexivity.
    + rewrite Hyh, Hxh. rewrite IH. reflexivity.
Qed.

(** Sorting forgets the order of its input. *)
Lemma sort_permutation (l1 l2 : list string) :
  Permutation l1 l2 -> sort l1 = sort l2.
Proof.
  induction 1 as [|x l l' _ IH|x y l|l l' l'' _ IH1 _ IH2]; cbn.
  - reflexivity.
  - rewrite IH. reflexivity.
  - apply insert_insert.
  - congruence.
Qed.

Lemma get_not_in (o : object) (k : string) :
  ~ In k (Object_keys o) -> get o k = VUndefined.
Proof.
  induction o as [|[k' v] o IH]; cbn; [reflexivity|].
  intros Hn. destruct (String.eqb_spec k' k) as [->|Hk].
  - exfalso. apply Hn. left. reflexivity.
  - apply IH. intros Hin. apply Hn. right. exact Hin.
Qed.

(** Reading a field does not depend on the order of the fields. *)
Lemma get_permutation (o1 o2 : object) (k : string) :
  NoDup (Object_keys o1) -> Permutation o1 o2 -> get o1 k = get o2 k.
Proof.
  intros Hnd Hp. revert Hnd.
  induction Hp as [|[k' v] l l' Hp IH|[k1 v1] [k2 v2] l|l l' l'' Hp1 IH1 Hp2 IH2];
    intros Hnd; cbn.
  - reflexivity.
  - inversion Hnd; subst. rewrite IH by assumption. reflexivity.
  - cbn in Hnd. inversion Hnd as [|? ? Hn1 Hnd']; subst.
    destruct (String.eqb_spec k1 k) as [->|H1],
             (String.eqb_spec k2 k) as [->|H2]; try reflexivity.
    exfalso. apply Hn1. left. reflexivity.
  - rewrite IH1 by assumption. apply IH2.
    unfold Object_keys in *.
    eapply Permutation_NoDup; [|exact Hnd].
    apply Permutation_map. exact Hp1.
Qed.

Lemma filter_permutation {A : Type} (f : A -> bool) (l l' : list A) :
  Permutation l l' -> Permutation (filter f l) (filter f l').
Proof.
  induction 1 as [|x l l' _ IH|x y l|l l' l'' _ IH1 _ IH2]; cbn.
  - constructor.
  - destruct (f x); [constructor|]; exact IH.
  - destruct (f x), (f y); try reflexivity. constructor.
  - etransitivity; eassumption.
Qed.

Lemma fold_left_ext {A B : Type} (f g : A -> B -> A) (l : list B) (a : A) :
  (forall a b, f a b = g a b) -> fold_left f l a = fold_left g l a.
Proof.
  intros Hfg. revert a. induction l as [|b l IH]; intros a; cbn.
  - reflexivity.
  - rewrite Hfg. apply IH.
Qed.

(** C3. Two field maps that hold the same fields with the same values,
    listed in different orders, have the same canonical JSON and the same
    hash. *)
Theorem canonical_json_order_independent (r1 r2 : object) :
  NoDup (Object_keys r1) ->
  Permutation r1 r2 ->
  createCanonicalJson r1 = createCanonicalJson r2
  /\ generateHash r1 = generateHash r2.
Proof.
  intros Hnd Hp.
  assert (E : createCanonicalJson r1 = createCanonicalJson r2).
  { unfold createCanonicalJson.
    rewrite (sort_permutation
               (filter (fun key => negb (includes excludeFields key)) (Object_keys r1))
               (filter (fun key => negb (includes excludeFields key)) (Object_keys r2))).
    - f_equal. apply fold_left_ext. intros a k.
      unfold copy_field. rewrite (get_permutation r1 r2 k Hnd Hp). reflexivity.
    - apply filter_permutation. apply Permutation_map. exact Hp. }
  split; [exact E|]. unfold generateHash. rewrite E. reflexivity.
Qed.

End Order.

(** ** Facts about texts *)

Section Texts.
Import JS.

Lemma append_assoc (a b c : string) : (a ++ b) ++ c = a ++ (b ++ c).
Proof.
  induction a as [|x a IH]; cbn; [reflexivity|]. rewrite IH. reflexivity.
Qed.

Lemma append_nil_r (a : string) : a ++ "" = a.
Proof.
  induction a as [|x a IH]; cbn; [reflexivity|]. rewrite IH. reflexivity.
Qed.

Lemma append_inv_head (a b c : string) : a ++ b = a ++ c -> b = c.
Proof.
  induction a as [|x a IH]; cbn; intros E; [exact E|].
  injection E as E. apply IH. exact E.
Qed.

Lemma chars_append (a b : string) :
  list_ascii_of_string (a ++ b)
  = (list_ascii_of_string a ++ list_ascii_of_string b)%list.
Proof.
  induction a as [|x a IH]; cbn; [reflexivity|]. rewrite IH. reflexivity.
Qed.

Lemma chars_injective (a b : string) :
  list_ascii_of_string a = list_ascii_of_string b -> a = b.
Proof.
  intros E.
  rewrite <- (string_of_list_ascii_of_string a),
          <- (string_of_list_ascii_of_string b), E.
  reflexivity.
Qed.

Lemma append_inv_tail (a b c : string) : a ++ c = b ++ c -> a = b.
Proof.
  intros E. apply chars_injective.
  apply (f_equal list_ascii_of_string) in E.
  rewrite !chars_append in E.
  eapply app_inv_tail. exact E.
Qed.

(** A text between two fixed texts is determined by the whole. *)
Lemma append_inv_middle (p a b q : string) :
  p ++ a ++ q = p ++ b ++ q -> a = b.
Proof.
  intros E. apply append_inv_head in E. eapply append_inv_tail. exact E.
Qed.

Lemma concat_cons (m : string) (ms : list string) :
  String.concat sep (m :: ms) = m ++ after_entry ms.
Proof.
  destruct ms as [|m' ms]; cbn; [rewrite append_nil_r|]; reflexivity.
Qed.

Lemma concat_entry (ms1 ms2 : list string) (m : string) :
  String.concat sep (ms1 ++ m :: ms2)%list
  = before_entry ms1 ++ m ++ after_entry ms2.
Proof.
  induction ms1 as [|x ms1 IH].
  - cbn [app before_entry]. rewrite concat_cons. reflexivity.
  - change ((x :: ms1) ++ m :: ms2)%list with (x :: (ms1 ++ m :: ms2))%list.
    rewrite concat_cons.
    destruct ms1 as [|y ms1].
    + cbn [app] in *. unfold after_entry at 1.
      rewrite concat_cons. cbn [before_entry String.concat].
      rewrite !append_assoc. reflexivity.
    + unfold after_entry at 1.
      change ((y :: ms1) ++ m :: ms2)%list with (y :: (ms1 ++ m :: ms2))%list.
      change ((y :: ms1) ++ m :: ms2)%list
        with (y :: (ms1 ++ m :: ms2))%list in IH.
      rewrite IH.
      unfold before_entry.
      rewrite (concat_cons x (y :: ms1)). unfold after_entry.
      rewrite !append_assoc. reflexivity.
Qed.

End Texts.

(** ** Which fields the hash reads *)

Section Exclusion.
Import JS CryptoUtils.
Context {H : Host}.

Lemma insert_permutation (x : string) (l : list string) :
  Permutation (insert x l) (x :: l).
Proof.
  induction l as [|y l IH]; cbn; [reflexivity|].
  destruct (x <=? y); [reflexivity|].
  rewrite IH. apply perm_swap.
Qed.

Lemma sort_permutation_self (l : list string) : Permutation (sort l) l.
Proof.
  induction l as [|x l IH]; cbn; [reflexivity|].
  rewrite insert_permutation. constructor. exact IH.
Qed.

Lemma fold_left_ext_in {A B : Type} (f g : A -> B -> A) (l : list B) (a : A) :
  (forall a b, In b l -> f a b = g a b) -> fold_left f l a = fold_left g l a.
Proof.
  revert a. induction l as [|b l IH]; intros a Hfg; cbn; [reflexivity|].
  rewrite Hfg by (left; reflexivity).
  apply IH. intros a' b' Hin. apply Hfg. right. exact Hin.
Qed.

Lemma hashed_keys_in (record : object) (k : string) :
  In k (hashed_keys record) <->
  In k (Object_keys record) /\ includes excludeFields k = false.
Proof.
  unfold hashed_keys.
  split.
  - intros Hin.
    apply (Permutation_in _ (sort_permutation_self _)) in Hin.
    apply filter_In in Hin. destruct Hin as [Hin Hk].
    split; [exact Hin|]. destruct (includes excludeFields k); [discriminate|reflexivity].
  - intros [Hin Hk].
    apply (Permutation_in _ (Permutation_sym (sort_permutation_self _))).
    apply filter_In. split; [exact Hin|]. rewrite Hk. reflexivity.
Qed.

(** [createCanonicalJson] reads a record through its keys and [get] only. *)
Lemma createCanonicalJson_ext (r1 r2 : object) :
  hashed_keys r1 = hashed_keys r2 ->
  (forall k, In k (hashed_keys r1) ->
     (present (get r1 k) = false /\ present (get r2 k) = false)
     \/ get r1 k = get r2 k) ->
  createCanonicalJson r1 = createCanonicalJson r2.
Proof.
  intros Hk Hg. unfold createCanonicalJson. fold (hashed_keys r1) (hashed_keys r2).
  rewrite <- Hk. f_equal. apply fold_left_ext_in.
  intros a k Hin. unfold copy_field.
  destruct (Hg k Hin) as [[-> ->]| ->]; reflexivity.
Qed.

Lemma keys_of_kept (r : object) :
  filter (fun key => negb (includes excludeFields key)) (Object_keys r)
  = Object_keys (filter kept r).
Proof.
  unfold Object_keys.
  induction r as [|[k v] r IH]; [reflexivity|].
  cbn [map filter fst]. unfold kept at 1. cbn [fst].
  destruct (negb (includes excludeFields k)); cbn [map fst];
    rewrite IH; reflexivity.
Qed.

Lemma get_of_kept (r : object) (k : string) :
  includes excludeFields k = false -> get (filter kept r) k = get r k.
Proof.
  intros Hk. induction r as [|[k' v] r IH]; [reflexivity|].
  cbn [filter get]. unfold kept at 1. cbn [fst].
  destruct (String.eqb_spec k' k) as [->|Hne].
  - rewrite Hk. cbn [negb get]. rewrite String.eqb_refl. reflexivity.
  - destruct (negb (includes excludeFields k')); cbn [get].
    + destruct (String.eqb_spec k' k); [contradiction|exact IH].
    + exact IH.
Qed.

(** Field maps with the same fields outside the exclusion set have the
    same canonical JSON. *)
Lemma excluded_fields_ignored (r r' : object) :
  filter kept r = filter kept r' ->
  createCanonicalJson r = createCanonicalJson r'.
Proof.
  intros E.
  assert (Hk : hashed_keys r = hashed_keys r').
  { unfold hashed_keys. rewrite (keys_of_kept r), (keys_of_kept r'), E.
    reflexivity. }
  apply createCanonicalJson_ext; [exact Hk|].
  intros k Hin. right.
  apply hashed_keys_in in Hin. destruct Hin as [_ Hx].
  rewrite <- (get_of_kept r k Hx), <- (get_of_kept r' k Hx), E. reflexivity.
Qed.

Lemma keys_replace_field (r : object) (k : string) (v : value) :
  Object_keys (replace_field r k v) = Object_keys r.
Proof.
  unfold Object_keys, replace_field. rewrite map_map.
  apply map_ext. intros [k' x]. cbn. destruct (k' =? k); reflexivity.
Qed.

Lemma get_replace_field_other (r : object) (k k' : string) (v : value) :
  k' <> k -> get (replace_field r k v) k' = get r k'.
Proof.
  intros Hne. induction r as [|[k1 x] r IH]; cbn; [reflexivity|].
  destruct (String.eqb_spec k1 k) as [->|H1]; cbn.
  - destruct (String.eqb_spec k k'); [congruence|exact IH].
  - destruct (k1 =? k'); [reflexivity|exact IH].
Qed.

Lemma get_replace_field_same (r : object) (k : string) (v : value) :
  In k (Object_keys r) -> get (replace_field r k v) k = v.
Proof.
  induction r as [|[k1 x] r IH]; cbn; [contradiction|].
  intros [->|Hin].
  - rewrite String.eqb_refl. cbn. rewrite String.eqb_refl. reflexivity.
  - destruct (String.eqb_spec k1 k) as [->|H1]; cbn.
    + rewrite String.eqb_refl. reflexivity.
    + destruct (String.eqb_spec k1 k); [contradiction|]. apply IH. exact Hin.
Qed.

Lemma get_replace_field_absent (r : object) (k : string) (v : value) :
  ~ In k (Object_keys r) -> get (replace_field r k v) k = VUndefined.
Proof.
  intros Hn. apply get_not_in. rewrite keys_replace_field. exact Hn.
Qed.

(** A field that is null or undefined is dropped whichever of the two it is. *)
Lemma absent_values_alike (r : object) (k : string) (v v' : value) :
  present v = false -> present v' = false ->
  createCanonicalJson (replace_field r k v)
  = createCanonicalJson (replace_field r k v').
Proof.
  intros Hv Hv'.
  apply createCanonicalJson_ext.
  - unfold hashed_keys. rewrite !keys_replace_field. reflexivity.
  - intros k' _.
    destruct (String.eqb_spec k' k) as [->|Hne].
    + left.
      destruct (in_dec string_dec k (Object_keys r)) as [Hin|Hn].
      * rewrite !get_replace_field_same by exact Hin. auto.
      * rewrite !get_replace_field_absent by exact Hn. auto.
    + right. rewrite !get_replace_field_other by exact Hne. reflexivity.
Qed.

End Exclusion.

(** ** The object that is serialized *)

Section CleanRecord.
Import JS CryptoUtils.
Context {H : Host}.

Lemma createCanonicalJson_clean (record : object) :
  createCanonicalJson record = JSON_stringify (clean record (hashed_keys record)).
Proof. reflexivity. Qed.

Lemma obj_set_keys (o : object) (k k' : string) (v : value) :
  In k' (Object_keys (obj_set o k v)) -> k' = k \/ In k' (Object_keys o).
Proof.
  induction o as [|[k1 v1] o IH]; cbn.
  - intros [->|[]]. left. reflexivity.
  - destruct (k1 =? k); [|destruct (goes_before k k1)]; cbn.
    + intros [->|Hin]; [left; reflexivity | right; right; exact Hin].
    + intros [->|[->|Hin]]; [left; reflexivity | right; left; reflexivity
                            | right; right; exact Hin].
    + intros [->|Hin]; [right; left; reflexivity|].
      destruct (IH Hin) as [->|Hin']; [left; reflexivity | right; right; exact Hin'].
Qed.

Lemma obj_set_has_key (o : object) (k : string) (v : value) :
  In k (Object_keys (obj_set o k v)).
Proof.
  induction o as [|[k1 v1] o IH]; cbn; [left; reflexivity|].
  destruct (k1 =? k); [|destruct (goes_before k k1)]; cbn; auto.
Qed.

Lemma obj_set_keeps_keys (o : object) (k k' : string) (v : value) :
  In k' (Object_keys o) -> In k' (Object_keys (obj_set o k v)).
Proof.
  induction o as [|[k1 v1] o IH]; cbn; [contradiction|].
  destruct (String.eqb_spec k1 k) as [->|Hne];
    [|destruct (goes_before k k1)]; cbn.
  - intros [->|Hin]; auto.
  - intros [->|Hin]; auto.
  - intros [->|Hin]; auto.
Qed.

(** A property with a new name is put between two parts of the object. *)
Lemma obj_set_new (o : object) (k : string) (v : value) :
  ~ In k (Object_keys o) ->
  exists a b, o = (a ++ b)%list /\ obj_set o k v = (a ++ (k, v) :: b)%list.
Proof.
  induction o as [|[k1 v1] o IH]; cbn; intros Hn.
  - exists [], []. split; reflexivity.
  - destruct (String.eqb_spec k1 k) as [->|Hne].
    + exfalso. apply Hn. left. reflexivity.
    + destruct (goes_before k k1).
      * exists [], ((k1, v1) :: o). split; reflexivity.
      * destruct IH as [a [b [-> E]]]; [intros Hin; apply Hn; right; exact Hin|].
        exists ((k1, v1) :: a), b. split; [reflexivity|].
        rewrite E. reflexivity.
Qed.

Lemma obj_set_new_nodup (o : object) (k : string) (v : value) :
  NoDup (Object_keys o) -> ~ In k (Object_keys o) ->
  NoDup (Object_keys (obj_set o k v)).
Proof.
  intros Hnd Hn.
  destruct (obj_set_new o k v Hn) as [a [b [-> E]]]. rewrite E.
  unfold Object_keys in *. rewrite map_app in *. cbn.
  apply NoDup_Add with (a := k) (l := (map fst a ++ map fst b)%list).
  - apply Add_app.
  - constructor; assumption.
Qed.

Lemma clean_step (r : object) (acc : object) (k : string) :
  copy_field r acc k = acc
  \/ copy_field r acc k = obj_set acc k (get r k).
Proof.
  unfold copy_field. destruct (present (get r k)); auto.
Qed.

(** The keys of the object built are among those gone through. *)
Lemma fold_keys (r : object) (L : list string) (acc : object) (k : string) :
  In k (Object_keys (fold_left (copy_field r) L acc)) ->
  In k (Object_keys acc) \/ In k L.
Proof.
  revert acc. induction L as [|k1 L IH]; intros acc; cbn; [auto|].
  intros Hin. destruct (IH _ Hin) as [Hacc|HL]; [|auto].
  destruct (clean_step r acc k1) as [E|E]; rewrite E in Hacc; [auto|].
  destruct (obj_set_keys _ _ _ _ Hacc) as [->|Hin']; auto.
Qed.

Lemma fold_nodup (r : object) (L : list string) (acc : object) :
  NoDup L -> NoDup (Object_keys acc) ->
  (forall k, In k L -> ~ In k (Object_keys acc)) ->
  NoDup (Object_keys (fold_left (copy_field r) L acc)).
Proof.
  revert acc. induction L as [|k1 L IH]; intros acc HL Hacc Hdis; cbn; [exact Hacc|].
  inversion HL as [|? ? Hk1 HL']; subst.
  apply IH; [exact HL'| |].
  - destruct (clean_step r acc k1) as [E|E]; rewrite E; [exact Hacc|].
    apply obj_set_new_nodup; [exact Hacc|]. apply Hdis. left. reflexivity.
  - intros k Hin Hin'.
    destruct (clean_step r acc k1) as [E|E]; rewrite E in Hin'.
    + apply (Hdis k); [right; exact Hin | exact Hin'].
    + destruct (obj_set_keys _ _ _ _ Hin') as [->|Hin''];
        [contradiction | apply (Hdis k); [right; exact Hin | exact Hin'']].
Qed.

Lemma fold_keeps_keys (r : object) (L : list string) (acc : object) (k : string) :
  In k (Object_keys acc) -> In k (Object_keys (fold_left (copy_field r) L acc)).
Proof.
  revert acc. induction L as [|k1 L IH]; intros acc Hin; cbn; [exact Hin|].
  apply IH. destruct (clean_step r acc k1) as [E|E]; rewrite E; [exact Hin|].
  apply obj_set_keeps_keys. exact Hin.
Qed.

(** A field that is present and gone through is a property of the object. *)
Lemma fold_has_key (r : object) (L : list string) (acc : object) (k : string) :
  In k L -> present (get r k) = true ->
  In k (Object_keys (fold_left (copy_field r) L acc)).
Proof.
  revert acc. induction L as [|k1 L IH]; intros acc; cbn; [contradiction|].
  intros [->|Hin] Hp.
  - apply fold_keeps_keys. unfold copy_field. rewrite Hp. apply obj_set_has_key.
  - apply IH; assumption.
Qed.

Lemma hashed_keys_nodup (r : object) :
  NoDup (Object_keys r) -> NoDup (hashed_keys r).
Proof.
  intros Hnd. unfold hashed_keys.
  eapply Permutation_NoDup; [apply Permutation_sym, sort_permutation_self|].
  apply NoDup_filter. exact Hnd.
Qed.

Lemma clean_nodup (r : object) :
  NoDup (Object_keys r) -> NoDup (Object_keys (clean r (hashed_keys r))).
Proof.
  intros Hnd. unfold clean. apply fold_nodup.
  - apply hashed_keys_nodup. exact Hnd.
  - constructor.
  - intros k _ [].
Qed.

End CleanRecord.

(** ** Changing the value of one field *)

Section FieldChange.
Import JS CryptoUtils.
Context {H : Host}.
Variable k : string.
Variables v v' : value.

Lemma obj_set_related (o o' : object) (k2 : string) (x x' : value) :
  Forall2 (related k v v') o o' ->
  related k v v' (k2, x) (k2, x') ->
  Forall2 (related k v v') (obj_set o k2 x) (obj_set o' k2 x').
Proof.
  intros Hrel Hx. induction Hrel as [|[k1 v1] [k1' v1'] o o' Hhd Hrel IH]; cbn.
  - constructor; [exact Hx | constructor].
  - assert (Ek : k1 = k1') by (destruct Hhd as [E _]; exact E). subst k1'.
    destruct (k1 =? k2); [|destruct (goes_before k2 k1)].
    + constructor; assumption.
    + constructor; [exact Hx|]. constructor; assumption.
    + constructor; assumption.
Qed.

Lemma fold_related (r r' : object) (L : list string) (acc acc' : object) :
  (forall k2, In k2 L ->
     present (get r k2) = present (get r' k2)
     /\ related k v v' (k2, get r k2) (k2, get r' k2)) ->
  Forall2 (related k v v') acc acc' ->
  Forall2 (related k v v')
    (fold_left (copy_field r) L acc) (fold_left (copy_field r') L acc').
Proof.
  revert acc acc'. induction L as [|k1 L IH]; intros acc acc' HL Hacc; cbn;
    [exact Hacc|].
  apply IH; [intros k2 Hin; apply HL; right; exact Hin|].
  destruct (HL k1 (or_introl eq_refl)) as [Hp Hr].
  unfold copy_field. rewrite <- Hp.
  destruct (present (get r k1)); [|exact Hacc].
  apply obj_set_related; assumption.
Qed.

Lemma related_elsewhere (o o' : object) :
  Forall2 (related k v v') o o' -> ~ In k (Object_keys o) -> o = o'.
Proof.
  induction 1 as [|[k1 v1] [k1' v1'] o o' Hhd Hrel IH]; cbn; intros Hn;
    [reflexivity|].
  destruct Hhd as [Ek [[Ek' _]|[_ Ev]]]; cbn in *.
  - exfalso. apply Hn. left. exact Ek'.
  - subst. f_equal. apply IH. intros Hin. apply Hn. right. exact Hin.
Qed.

(** Related objects differ in the one property named [k]. *)
Lemma related_split (o o' : object) :
  Forall2 (related k v v') o o' ->
  NoDup (Object_keys o) -> In k (Object_keys o) ->
  exists a b, o = (a ++ (k, v) :: b)%list /\ o' = (a ++ (k, v') :: b)%list.
Proof.
  induction 1 as [|[k1 v1] [k1' v1'] o o' Hhd Hrel IH]; cbn; intros Hnd Hin;
    [contradiction|].
  inversion Hnd as [|? ? Hk1 Hnd']; subst.
  destruct Hhd as [Ek [[Ek' [E1 E2]]|[Hne Ev]]]; cbn in *; subst.
  - exists [], o. rewrite (related_elsewhere o o' Hrel Hk1).
    split; reflexivity.
  - destruct Hin as [E|Hin]; [contradiction|].
    destruct (IH Hnd' Hin) as [a [b [-> ->]]].
    exists ((k1', v1') :: a), b. split; reflexivity.
Qed.

Lemma members_text_app (ser : value -> result (option string)) (a b : object) :
  members_text ser (a ++ b)%list
  = (ma <- members_text ser a ;; mb <- members_text ser b ;; Ok (ma ++ mb)%list).
Proof.
  induction a as [|[k1 v1] a IH]; cbn.
  - destruct (members_text ser b); reflexivity.
  - destruct (ser v1) as [t|e]; cbn; [|reflexivity].
    rewrite IH.
    destruct (members_text ser a) as [ma|e]; cbn; [|reflexivity].
    destruct (members_text ser b) as [mb|e]; cbn; [|reflexivity].
    destruct t; reflexivity.
Qed.

(** The text of an object around one property that is written. *)
Lemma object_text_split (a b : object) (x : value) (t c : string) :
  serialize x = Ok (Some t) ->
  object_text serialize (a ++ (k, x) :: b)%list = Ok c ->
  exists ma mb,
    members_text serialize a = Ok ma
    /\ members_text serialize b = Ok mb
    /\ c = "{" ++ before_entry ma ++ member_text k t ++ after_entry mb ++ "}".
Proof.
  intros Ht. unfold object_text. rewrite members_text_app.
  cbn [members_text bind].
  destruct (members_text serialize a) as [ma|e]; cbn [bind]; [|discriminate].
  rewrite Ht. cbn [bind].
  destruct (members_text serialize b) as [mb|e]; cbn [bind]; [|discriminate].
  intros E. injection E as <-.
  exists ma, mb. split; [reflexivity|]. split; [reflexivity|].
  rewrite concat_entry.
  rewrite (append_assoc (before_entry ma)), (append_assoc (member_text k t)).
  reflexivity.
Qed.

Lemma object_text_build (a b : object) (x : value) (t : string)
    (ma mb : list string) :
  serialize x = Ok (Some t) ->
  members_text serialize a = Ok ma ->
  members_text serialize b = Ok mb ->
  object_text serialize (a ++ (k, x) :: b)%list
  = Ok ("{" ++ before_entry ma ++ member_text k t ++ after_entry mb ++ "}").
Proof.
  intros Ht Ha Hb. unfold object_text. rewrite members_text_app.
  cbn [members_text bind].
  rewrite Ha. cbn [bind]. rewrite Ht. cbn [bind]. rewrite Hb. cbn [bind].
  rewrite concat_entry.
  rewrite (append_assoc (before_entry ma)), (append_assoc (member_text k t)).
  reflexivity.
Qed.

End FieldChange.

(** ** The hexadecimal digest is a faithful copy of the digest *)

Section Hex.
Import JS CryptoUtils.

Lemma hex_digit_injective (n m : N) :
  (n < 16)%N -> (m < 16)%N -> hex_digit n = hex_digit m -> n = m.
Proof.
  unfold hex_digit. intros Hn Hm E.
  apply (f_equal N_of_ascii) in E.
  destruct (N.ltb_spec n 10), (N.ltb_spec m 10);
    rewrite !N_ascii_embedding in E by lia; lia.
Qed.

Lemma byte_to_N_injective (b b' : byte) : Byte.to_N b = Byte.to_N b' -> b = b'.
Proof.
  intros E.
  assert (E' : Some b = Some b')
    by (rewrite <- (Byte.of_to_N b), <- (Byte.of_to_N b'), E; reflexivity).
  injection E' as E'. exact E'.
Qed.

Lemma hex_byte_injective (b b' : byte) : hex_byte b = hex_byte b' -> b = b'.
Proof.
  unfold hex_byte, str. cbn. intros E. injection E as E1 E2.
  pose proof (Byte.to_N_bounded b) as Hb.
  pose proof (Byte.to_N_bounded b') as Hb'.
  apply byte_to_N_injective.
  apply hex_digit_injective in E1;
    [|apply N.Div0.div_lt_upper_bound; lia ..].
  apply hex_digit_injective in E2; [|apply N.mod_lt; lia ..].
  rewrite (N.div_mod (Byte.to_N b) 16), (N.div_mod (Byte.to_N b') 16) by lia.
  rewrite E1, E2. reflexivity.
Qed.

Lemma hex_cons (b : byte) (bs : list byte) : hex (b :: bs) = hex_byte b ++ hex bs.
Proof.
  unfold hex. destruct bs as [|b' bs]; cbn [map String.concat].
  - rewrite append_nil_r. reflexivity.
  - reflexivity.
Qed.

Lemma hex_injective (bs bs' : list byte) : hex bs = hex bs' -> bs = bs'.
Proof.
  revert bs'. induction bs as [|b bs IH]; intros [|b' bs'].
  - reflexivity.
  - rewrite hex_cons. unfold hex_byte, str. cbn. discriminate.
  - rewrite hex_cons. unfold hex_byte, str. cbn. discriminate.
  - rewrite !hex_cons. intros E.
    assert (Eb : hex_byte b = hex_byte b' /\ hex bs = hex bs').
    { unfold hex_byte, str in *. cbn in E. injection E as E1 E2 E3.
      split; [cbn; congruence | exact E3]. }
    destruct Eb as [Eb Es].
    rewrite (hex_byte_injective b b' Eb), (IH bs' Es). reflexivity.
Qed.

End Hex.

(** ** What changes the hash and what does not *)

Section HashSensitivity.
Import JS CryptoUtils.
Context {H : Host}.

Lemma get_present_in (r : object) (k : string) :
  present (get r k) = true -> In k (Object_keys r).
Proof.
  intros Hp. destruct (in_dec string_dec k (Object_keys r)) as [Hin|Hn];
    [exact Hin|].
  rewrite (get_not_in r k Hn) in Hp. discriminate.
Qed.

Lemma generateHash_of_json (r : object) (c : string) :
  createCanonicalJson r = Ok c -> generateHash r = Ok (hex (sha256 c)).
Proof. intros E. unfold generateHash. rewrite E. reflexivity. Qed.

(** A field outside the exclusion set whose value is replaced by one with
    another JSON text: the canonical JSON changes. *)
Lemma changed_field_changes_json (r : object) (k : string) (v' : value)
    (t t' c : string) :
  NoDup (Object_keys r) ->
  includes excludeFields k = false ->
  present (get r k) = true -> present v' = true ->
  serialize (get r k) = Ok (Some t) -> serialize v' = Ok (Some t') ->
  t <> t' ->
  createCanonicalJson r = Ok c ->
  exists c', createCanonicalJson (replace_field r k v') = Ok c' /\ c' <> c.
Proof.
  intros Hnd Hx Hp Hp' Ht Ht' Hne Hc.
  pose proof (get_present_in r k Hp) as Hin.
  assert (Hk : hashed_keys (replace_field r k v') = hashed_keys r)
    by (unfold hashed_keys; rewrite keys_replace_field; reflexivity).
  assert (HinL : In k (hashed_keys r)) by (apply hashed_keys_in; auto).
  assert (Hrel : Forall2 (related k (get r k) v')
                   (clean r (hashed_keys r))
                   (clean (replace_field r k v') (hashed_keys r))).
  { unfold clean. apply fold_related; [|constructor].
    intros k2 _. destruct (String.eqb_spec k2 k) as [->|Hk2].
    - rewrite (get_replace_field_same r k v' Hin). split; [congruence|].
      split; [reflexivity|]. left. cbn. auto.
    - rewrite (get_replace_field_other r k k2 v' Hk2). split; [reflexivity|].
      split; [reflexivity|]. right. cbn. auto. }
  destruct (related_split k (get r k) v' _ _ Hrel (clean_nodup r Hnd))
    as [a [b [Ea Eb]]].
  { unfold clean. apply fold_has_key; assumption. }
  rewrite createCanonicalJson_clean in Hc. unfold JSON_stringify in Hc.
  rewrite Ea in Hc.
  destruct (object_text_split k a b (get r k) t c Ht Hc) as [ma [mb [Ha [Hb ->]]]].
  exists ("{" ++ before_entry ma ++ member_text k t' ++ after_entry mb ++ "}").
  split.
  - rewrite createCanonicalJson_clean, Hk. unfold JSON_stringify. rewrite Eb.
    apply object_text_build; assumption.
  - intros E. apply append_inv_head in E. apply append_inv_middle in E.
    unfold member_text in E. apply append_inv_head in E.
    apply append_inv_head in E. congruence.
Qed.

End HashSensitivity.

(** ** Properties that are not written *)

Section Omitted.
Import JS CryptoUtils.
Context {H : Host}.

Lemma array_index_text (k : string) (i : N) :
  array_index k = Some i -> k = decimal i.
Proof.
  unfold array_index.
  destruct (NilEmpty.uint_of_string k) as [u|]; [|discriminate].
  destruct (decimal (N.of_uint u) =? k) eqn:E; cbn; [|discriminate].
  destruct (N.of_uint u <? 4294967295)%N; [|discriminate].
  intros Ei. injection Ei as <-. apply String.eqb_eq in E. congruence.
Qed.

Lemma array_index_injective (k k' : string) (i : N) :
  array_index k = Some i -> array_index k' = Some i -> k = k'.
Proof.
  intros E E'. rewrite (array_index_text k i E), (array_index_text k' i E').
  reflexivity.
Qed.

(** A new property that goes before [k1] goes before all that follow [k1]. *)
Lemma goes_before_later (k k1 k2 : string) :
  goes_before k k1 = true -> precedes k1 k2 -> goes_before k k2 = true.
Proof.
  unfold goes_before, precedes.
  destruct (array_index k) as [i|]; [|discriminate].
  destruct (array_index k1) as [j|], (array_index k2) as [j'|];
    try reflexivity; try contradiction.
  rewrite !N.ltb_lt. lia.
Qed.

(** A new property that does not go before [k1] comes after it. *)
Lemma not_goes_before (k k1 : string) :
  k1 <> k -> goes_before k k1 = false -> precedes k1 k.
Proof.
  unfold goes_before, precedes. intros Hne Hg.
  destruct (array_index k) as [i|] eqn:Ei, (array_index k1) as [j|] eqn:Ej;
    try discriminate; try exact I.
  apply N.ltb_ge in Hg.
  destruct (N.eq_dec i j) as [->|Hij]; [|lia].
  exfalso. apply Hne. exact (array_index_injective k1 k j Ej Ei).
Qed.

Lemma obj_set_front (o : object) (k : string) (v : value) :
  ~ In k (Object_keys o) ->
  (forall k2, In k2 (Object_keys o) -> goes_before k k2 = true) ->
  obj_set o k v = (k, v) :: o.
Proof.
  destruct o as [|[k1 v1] o]; cbn; [reflexivity|].
  intros Hn Hall.
  destruct (String.eqb_spec k1 k) as [->|Hne].
  - exfalso. apply Hn. left. reflexivity.
  - rewrite (Hall k1 (or_introl eq_refl)). reflexivity.
Qed.

Lemma ordered_cons (k1 : string) (v1 : value) (o : object) :
  ordered ((k1, v1) :: o) ->
  ordered o /\ forall k2, In k2 (Object_keys o) -> precedes k1 k2.
Proof.
  unfold ordered. cbn. intros Hs. inversion Hs as [|? ? Hs' Hall]; subst.
  split; [exact Hs'|]. intros k2 Hin.
  rewrite Forall_forall in Hall. apply Hall. exact Hin.
Qed.

Lemma obj_set_ordered (o : object) (k : string) (v : value) :
  ordered o -> ~ In k (Object_keys o) -> ordered (obj_set o k v).
Proof.
  induction o as [|[k1 v1] o IH]; intros Ho Hn.
  - cbn. unfold ordered. cbn. constructor; constructor.
  - destruct (ordered_cons k1 v1 o Ho) as [Ho' Hall].
    cbn in Hn. cbn [obj_set].
    destruct (String.eqb_spec k1 k) as [->|Hne].
    { exfalso. apply Hn. left. reflexivity. }
    destruct (goes_before k k1) eqn:Hg.
    + unfold ordered in *. cbn. constructor; [exact Ho|].
      constructor.
      * unfold goes_before in Hg. unfold precedes.
        destruct (array_index k), (array_index k1);
          try discriminate; try exact I.
        apply N.ltb_lt. exact Hg.
      * apply Forall_forall. intros k2 Hin.
        pose proof (goes_before_later k k1 k2 Hg (Hall k2 Hin)) as Hg2.
        unfold goes_before in Hg2. unfold precedes.
        destruct (array_index k), (array_index k2);
          try discriminate; try exact I.
        apply N.ltb_lt. exact Hg2.
    + unfold ordered in *. cbn. constructor.
      * apply IH; [exact Ho'|]. intros Hin. apply Hn. right. exact Hin.
      * apply Forall_forall. intros k2 Hin.
        destruct (obj_set_keys o k k2 v Hin) as [->|Hin'].
        -- apply not_goes_before; assumption.
        -- apply Hall. exact Hin'.
Qed.

(** Leaving properties out commutes with adding a new property. *)
Lemma obj_set_filter (P : string * value -> bool) (o : object) (k : string)
    (v : value) :
  ordered o -> ~ In k (Object_keys o) ->
  filter P (obj_set o k v)
  = if P (k, v) then obj_set (filter P o) k v else filter P o.
Proof.
  induction o as [|[k1 v1] o IH]; intros Ho Hn.
  - cbn. destruct (P (k, v)); reflexivity.
  - destruct (ordered_cons k1 v1 o Ho) as [Ho' Hall].
    cbn in Hn.
    assert (Hn' : ~ In k (Object_keys o)) by (intros Hin; apply Hn; right; exact Hin).
    cbn [obj_set].
    destruct (String.eqb_spec k1 k) as [->|Hne].
    { exfalso. apply Hn. left. reflexivity. }
    destruct (goes_before k k1) eqn:Hg.
    + cbn [filter]. destruct (P (k, v)) eqn:Pk; [|reflexivity].
      destruct (P (k1, v1)) eqn:P1.
      * cbn [obj_set]. destruct (String.eqb_spec k1 k); [contradiction|].
        rewrite Hg. reflexivity.
      * symmetry. apply obj_set_front.
        -- intros Hin. apply Hn'.
           unfold Object_keys in *. apply in_map_iff in Hin.
           destruct Hin as [kv [E Hin]]. apply filter_In in Hin.
           apply in_map_iff. exists kv. tauto.
        -- intros k2 Hin. apply (goes_before_later k k1 k2 Hg). apply Hall.
           unfold Object_keys in *. apply in_map_iff in Hin.
           destruct Hin as [kv [E Hin]]. apply filter_In in Hin.
           apply in_map_iff. exists kv. tauto.
    + cbn [filter]. rewrite (IH Ho' Hn').
      destruct (P (k1, v1)) eqn:P1, (P (k, v)) eqn:Pk; try reflexivity.
      cbn [obj_set]. destruct (String.eqb_spec k1 k); [contradiction|].
      rewrite Hg. reflexivity.
Qed.

Lemma fold_written (r : object) (L : list string) (acc : object) :
  NoDup L -> (forall k, In k L -> ~ In k (Object_keys acc)) -> ordered acc ->
  filter written (fold_left (copy_field r) L acc)
  = fold_left (copy_written r) L (filter written acc).
Proof.
  revert acc. induction L as [|k1 L IH]; intros acc HL Hdis Ho; cbn [fold_left];
    [reflexivity|].
  inversion HL as [|? ? Hk1 HL']; subst.
  assert (Hnew : ~ In k1 (Object_keys acc)) by (apply Hdis; left; reflexivity).
  unfold copy_field at 2, copy_written at 2.
  destruct (present (get r k1)) eqn:Hp; cbn [andb].
  - rewrite (IH _ HL').
    + rewrite (obj_set_filter written acc k1 (get r k1) Ho Hnew). reflexivity.
    + intros k Hin Hin'.
      destruct (obj_set_keys _ _ _ _ Hin') as [->|Hin''];
        [contradiction | apply (Hdis k); [right; exact Hin | exact Hin'']].
    + apply obj_set_ordered; assumption.
  - apply IH; [exact HL' | | exact Ho].
    intros k Hin. apply Hdis. right. exact Hin.
Qed.

Lemma members_text_written (o : object) :
  members_text serialize (filter written o) = members_text serialize o.
Proof.
  induction o as [|[k1 v1] o IH]; [reflexivity|].
  cbn [filter]. unfold written at 1. cbn [snd].
  destruct v1; cbn [members_text]; rewrite ?IH; try reflexivity;
    cbn [serialize bind]; destruct (members_text serialize o); reflexivity.
Qed.

(** The canonical JSON, from the properties that are written only. *)
Lemma createCanonicalJson_written (r : object) :
  NoDup (Object_keys r) ->
  createCanonicalJson r
  = object_text serialize (fold_left (copy_written r) (hashed_keys r) []).
Proof.
  intros Hnd. rewrite createCanonicalJson_clean.
  unfold JSON_stringify, object_text, clean.
  rewrite <- members_text_written.
  rewrite (fold_written r (hashed_keys r) []).
  - reflexivity.
  - apply hashed_keys_nodup. exact Hnd.
  - intros k _ [].
  - unfold ordered. cbn. constructor.
Qed.

Lemma insert_split (x : string) (l : list string) :
  exists a b, l = (a ++ b)%list /\ insert x l = (a ++ x :: b)%list.
Proof.
  induction l as [|y l IH]; cbn.
  - exists [], []. split; reflexivity.
  - destruct (x <=? y).
    + exists [], (y :: l). split; reflexivity.
    + destruct IH as [a [b [-> E]]]. exists (y :: a), b.
      split; [reflexivity|]. rewrite E. reflexivity.
Qed.

(** A field that holds a callable is left out of the canonical JSON. *)
Lemma callable_field_omitted (r : object) (k : string) :
  NoDup (Object_keys r) -> ~ In k (Object_keys r) ->
  createCanonicalJson ((k, VFunction) :: r) = createCanonicalJson r.
Proof.
  intros Hnd Hn.
  assert (Hnd' : NoDup (Object_keys ((k, VFunction) :: r)))
    by (cbn; constructor; assumption).
  rewrite (createCanonicalJson_written _ Hnd'), (createCanonicalJson_written _ Hnd).
  f_equal.
  assert (Hstep : forall acc k2, k2 <> k ->
            copy_written ((k, VFunction) :: r) acc k2 = copy_written r acc k2).
  { intros acc k2 Hne. unfold copy_written. cbn [get].
    destruct (String.eqb_spec k k2); [congruence|reflexivity]. }
  assert (Hk : forall acc, copy_written ((k, VFunction) :: r) acc k = acc).
  { intros acc. unfold copy_written. cbn [get]. rewrite String.eqb_refl.
    reflexivity. }
  assert (Hother : forall k2, In k2 (hashed_keys r) -> k2 <> k).
  { intros k2 Hin ->. apply hashed_keys_in in Hin. tauto. }
  unfold hashed_keys at 1. cbn [Object_keys map fst filter].
  destruct (negb (includes excludeFields k)).
  - cbn [sort]. fold (Object_keys r). fold (hashed_keys r).
    destruct (insert_split k (hashed_keys r)) as [a [b [E ->]]].
    rewrite E in *. rewrite !fold_left_app. cbn [fold_left]. rewrite Hk.
    rewrite (fold_left_ext_in (copy_written ((k, VFunction) :: r)) (copy_written r) a).
    + apply fold_left_ext_in. intros acc k2 Hin. apply Hstep, Hother.
      apply in_or_app. right. exact Hin.
    + intros acc k2 Hin. apply Hstep, Hother. apply in_or_app. left. exact Hin.
  - fold (Object_keys r). fold (hashed_keys r).
    apply fold_left_ext_in. intros acc k2 Hin. apply Hstep, Hother. exact Hin.
Qed.

End Omitted.

(** ** When canonicalization fails *)

Section Failure.
Import JS CryptoUtils.
Context {H : Host}.

Lemma elements_text_throws (l : list value) (e : jserror) :
  Forall (fun v => forall e, serialize v = Throw e -> e = bigint_error) l ->
  elements_text serialize l = Throw e -> e = bigint_error.
Proof.
  induction 1 as [|x l Hx _ IH]; cbn; [discriminate|].
  destruct (serialize x) as [t|e'] eqn:Ex; cbn.
  - destruct (elements_text serialize l) as [ts|e'']; cbn; [discriminate|].
    intros E. injection E as <-. apply IH. reflexivity.
  - intros E. injection E as <-. apply Hx. reflexivity.
Qed.

Lemma members_text_throws (o : object) (e : jserror) :
  Forall (fun kv => forall e, serialize (snd kv) = Throw e -> e = bigint_error) o ->
  members_text serialize o = Throw e -> e = bigint_error.
Proof.
  induction 1 as [|[k x] o Hx _ IH]; cbn; [discriminate|].
  cbn in Hx.
  destruct (serialize x) as [t|e'] eqn:Ex; cbn.
  - destruct (members_text serialize o) as [ms|e'']; cbn; [discriminate|].
    intros E. injection E as <-. apply IH. reflexivity.
  - intros E. injection E as <-. apply Hx. reflexivity.
Qed.

(** The one error of [JSON.stringify] on data: the TypeError for a BigInt. *)
Lemma serialize_throws (v : value) :
  forall e, serialize v = Throw e -> e = bigint_error.
Proof.
  induction v as [| |b|n|s|z| |iso|data|l IH|o IH] using value_induction;
    intros e; cbn; try discriminate.
  - destruct b; discriminate.
  - intros E. injection E as <-. reflexivity.
  - destruct iso; discriminate.
  - unfold array_text.
    destruct (elements_text serialize l) as [ts|e'] eqn:El; cbn; [discriminate|].
    intros E. injection E as <-. exact (elements_text_throws l e' IH El).
  - unfold object_text.
    destruct (members_text serialize o) as [ms|e'] eqn:Eo; cbn; [discriminate|].
    intros E. injection E as <-. exact (members_text_throws o e' IH Eo).
Qed.

Lemma createCanonicalJson_throws (r : object) (e : jserror) :
  createCanonicalJson r = Throw e -> e = bigint_error.
Proof.
  rewrite createCanonicalJson_clean. unfold JSON_stringify.
  intros E. apply (serialize_throws (VObject (clean r (hashed_keys r)))).
  cbn. rewrite E. reflexivity.
Qed.

Lemma has_bigint_object (o : object) :
  has_bigint (VObject o) = existsb (fun kv => has_bigint (snd kv)) o.
Proof.
  induction o as [|[k x] o IH]; [reflexivity|].
  cbn in *. rewrite IH. reflexivity.
Qed.

Lemma elements_text_returns (l : list value) :
  Forall (fun v => has_bigint v = false -> exists t, serialize v = Ok t) l ->
  existsb has_bigint l = false ->
  exists ts, elements_text serialize l = Ok ts.
Proof.
  induction 1 as [|x l Hx _ IH]; cbn; [eauto|].
  intros E. apply orb_false_iff in E. destruct E as [E1 E2].
  destruct (Hx E1) as [t ->]. destruct (IH E2) as [ts ->]. cbn. eauto.
Qed.

Lemma members_text_returns (o : object) :
  Forall (fun kv => has_bigint (snd kv) = false ->
                    exists t, serialize (snd kv) = Ok t) o ->
  existsb (fun kv => has_bigint (snd kv)) o = false ->
  exists ms, members_text serialize o = Ok ms.
Proof.
  induction 1 as [|[k x] o Hx _ IH]; cbn; [eauto|].
  intros E. apply orb_false_iff in E. destruct E as [E1 E2].
  cbn in Hx. destruct (Hx E1) as [t ->]. destruct (IH E2) as [ms ->]. cbn.
  destruct t; eauto.
Qed.

(** Without a BigInt, every value has a JSON text or is left out. *)
Lemma serialize_returns (v : value) :
  has_bigint v = false -> exists t, serialize v = Ok t.
Proof.
  induction v as [| |b|n|s|z| |iso|data|l IH|o IH] using value_induction;
    intros Hb; cbn; eauto.
  - destruct b; eauto.
  - discriminate.
  - destruct iso; eauto.
  - unfold array_text. cbn in Hb.
    destruct (elements_text_returns l IH Hb) as [ts ->]. cbn. eauto.
  - unfold object_text. rewrite has_bigint_object in Hb.
    destruct (members_text_returns o IH Hb) as [ms ->]. cbn. eauto.
Qed.

Lemma get_no_bigint (r : object) (k : string) :
  existsb (fun kv => has_bigint (snd kv)) r = false -> has_bigint (get r k) = false.
Proof.
  induction r as [|[k1 x] r IH]; cbn; [reflexivity|].
  intros E. apply orb_false_iff in E. destruct E as [E1 E2].
  destruct (k1 =? k); [exact E1 | apply IH; exact E2].
Qed.

Lemma obj_set_no_bigint (o : object) (k : string) (v : value) :
  existsb (fun kv => has_bigint (snd kv)) o = false ->
  has_bigint v = false ->
  existsb (fun kv => has_bigint (snd kv)) (obj_set o k v) = false.
Proof.
  intros Ho Hv. induction o as [|[k1 x] o IH]; cbn.
  - rewrite Hv. reflexivity.
  - cbn in Ho. apply orb_false_iff in Ho. destruct Ho as [E1 E2].
    destruct (k1 =? k); [|destruct (goes_before k k1)]; cbn.
    + rewrite Hv. exact E2.
    + rewrite Hv, E1. exact E2.
    + rewrite E1. apply IH. exact E2.
Qed.

Lemma fold_no_bigint (r : object) (L : list string) (acc : object) :
  existsb (fun kv => has_bigint (snd kv)) r = false ->
  existsb (fun kv => has_bigint (snd kv)) acc = false ->
  existsb (fun kv => has_bigint (snd kv)) (fold_left (copy_field r) L acc) = false.
Proof.
  intros Hr. revert acc. induction L as [|k1 L IH]; intros acc Hacc; cbn;
    [exact Hacc|].
  apply IH. unfold copy_field. destruct (present (get r k1)); [|exact Hacc].
  apply obj_set_no_bigint; [exact Hacc | apply get_no_bigint; exact Hr].
Qed.

Lemma createCanonicalJson_returns (r : object) :
  has_bigint (VObject r) = false -> exists c, createCanonicalJson r = Ok c.
Proof.
  intros Hb. rewrite has_bigint_object in Hb.
  rewrite createCanonicalJson_clean. unfold JSON_stringify.
  destruct (serialize_returns (VObject (clean r (hashed_keys r)))) as [t Ht].
  - rewrite has_bigint_object. unfold clean. apply fold_no_bigint; [exact Hb|].
    reflexivity.
  - cbn in Ht.
    destruct (object_text serialize (clean r (hashed_keys r))) as [c|e];
      [eauto | discriminate].
Qed.

(** A field map with one field, a binary blob. *)
Lemma blob_field_json (k : string) (data : list byte) :
  includes excludeFields k = false ->
  createCanonicalJson [(k, VBuffer data)]
  = Ok ("{" ++ member_text k (buffer_json data) ++ "}").
Proof.
  intros Hx. unfold createCanonicalJson.
  cbn [Object_keys map fst filter]. rewrite Hx. cbn [negb sort insert fold_left].
  unfold copy_field. cbn [get]. rewrite String.eqb_refl. cbn [present obj_set].
  unfold JSON_stringify, object_text.
  cbn [members_text serialize bind String.concat]. reflexivity.
Qed.

End Failure.

(** ** How the status of a verification is decided *)

Section StatusResolution.
Import JS CryptoUtils.
Context {H : Host}.

Lemma verify_one_check (this : instance) (record : object) (sig : approval)
    (sv : signatureVerification) :
  verify_one this record sig = Ok sv <->
  verifySignature this record (signature sig) (Some (public_key sig))
  = Ok (sv_check sv)
  /\ sv_signer sv = {| name := approver_name sig;
                       role := approver_role sig;
                       email := approver_email sig;
                       signedAt := signed_at sig |}.
Proof.
  unfold verify_one.
  destruct (verifySignature this record (signature sig) (Some (public_key sig)))
    as [check|e]; cbn [bind].
  - split.
    + intros E. injection E as <-. split; reflexivity.
    + intros [E1 E2]. injection E1 as E1. destruct sv as [c s].
      cbn in E1, E2. subst. reflexivity.
  - split; [discriminate | intros [E _]; discriminate].
Qed.

Lemma map_result_each {A B : Type} (f : A -> result B) (xs : list A)
    (ys : list B) :
  map_result f xs = Ok ys <-> Forall2 (fun x y => f x = Ok y) xs ys.
Proof.
  revert ys. induction xs as [|x xs IH]; intros ys; cbn.
  - split.
    + intros E. injection E as <-. constructor.
    + intros F. inversion F. reflexivity.
  - destruct (f x) as [y|e] eqn:Ex; cbn [bind].
    + destruct (map_result f xs) as [ys'|e] eqn:Exs; cbn [bind].
      * split.
        -- intros E. injection E as <-. constructor; [exact Ex|].
           apply IH. reflexivity.
        -- intros F. inversion F as [|x0 y0 xs0 ys0 E1 E2]; subst.
           apply IH in E2. congruence.
      * split; [discriminate|].
        intros F. inversion F as [|x0 y0 xs0 ys0 E1 E2]; subst.
        apply IH in E2. discriminate.
    + split; [discriminate|].
      intros F. inversion F as [|x0 y0 xs0 ys0 E1 E2]; subst. congruence.
Qed.

Lemma checks_all_valid (this : instance) (record : object)
    (sigs : list approval) (svs : list signatureVerification) :
  map_result (verify_one this record) sigs = Ok svs ->
  forallb (fun sig => isValid (sv_check sig)) svs = true <->
  forall sig, In sig sigs ->
    exists check,
      verifySignature this record (signature sig) (Some (public_key sig)) = Ok check
      /\ isValid check = true.
Proof.
  intros E. apply map_result_each in E.
  induction E as [|sig sv sigs svs E1 E2 IH]; cbn.
  - split; [intros _ sig [] | reflexivity].
  - apply verify_one_check in E1. destruct E1 as [E1 _].
    rewrite andb_true_iff, IH. split.
    + intros [Hv Hall] sig' [<-|Hin].
      * exists (sv_check sv). split; assumption.
      * apply Hall. exact Hin.
    + intros Hall. split.
      * destruct (Hall sig (or_introl eq_refl)) as [check [Ec Hv]].
        congruence.
      * intros sig' Hin. apply Hall. right. exact Hin.
Qed.

Lemma checks_some_invalid (this : instance) (record : object)
    (sigs : list approval) (svs : list signatureVerification) :
  map_result (verify_one this record) sigs = Ok svs ->
  forallb (fun sig => isValid (sv_check sig)) svs = false <->
  exists sig check,
    In sig sigs
    /\ verifySignature this record (signature sig) (Some (public_key sig)) = Ok check
    /\ isValid check = false.
Proof.
  intros E. apply map_result_each in E.
  induction E as [|sig sv sigs svs E1 E2 IH]; cbn.
  - split; [discriminate | intros [sig [check [[] _]]]].
  - apply verify_one_check in E1. destruct E1 as [E1 _].
    rewrite andb_false_iff, IH. split.
    + intros [Hv|[sig' [check [Hin Hc]]]].
      * exists sig, (sv_check sv). split; [left; reflexivity|].
        split; assumption.
      * exists sig', check. split; [right; exact Hin | exact Hc].
    + intros [sig' [check [[<-|Hin] [Ec Hv]]]].
      * left. congruence.
      * right. exists sig', check. split; [exact Hin|]. split; assumption.
Qed.

(** The record is verified exactly when the stored hash is the computed
    one, there is at least one signature and every signature verifies; it is
    suspicious exactly when the stored hash is not the computed one or some
    signature does not verify; and it is reported valid overall exactly
    when it is not suspicious. *)
Theorem status_resolution (this : instance) (record : object)
    (storedHash : option string) (signatures : list approval) (h : string) :
  generateHash record = Ok h ->
  exists v,
    completeVerification this record storedHash signatures = Ok v
    /\ (verificationStatus v = verified <->
        storedHash = Some h /\ signatures <> []
        /\ forall sig, In sig signatures ->
             exists check,
               verifySignature this record (signature sig) (Some (public_key sig))
               = Ok check
               /\ isValid check = true)
    /\ (verificationStatus v = suspicious <->
        storedHash <> Some h
        \/ exists sig check,
             In sig signatures
             /\ verifySignature this record (signature sig) (Some (public_key sig))
                = Ok check
             /\ isValid check = false)
    /\ (overallValid v = true <-> verificationStatus v <> suspicious).
Proof.
  intros Hh.
  destruct (completeVerification_returns this record storedHash signatures h Hh)
    as [svs [Hsvs [Hlen Hv]]].
  eexists. split; [exact Hv|].
  cbn [verificationStatus overallValid].
  pose proof (checks_all_valid this record signatures svs Hsvs) as Hall.
  pose proof (checks_some_invalid this record signatures svs Hsvs) as Hsome.
  pose proof (strict_equal_true h storedHash) as Heq.
  assert (Hnil : signatures = [] <-> length svs = 0).
  { rewrite Hlen. destruct signatures; cbn; split; congruence. }
  destruct (strict_equal h storedHash) eqn:Es; cbn [andb].
  - assert (Hs : storedHash = Some h) by (apply Heq; reflexivity).
    destruct (forallb (fun sig => isValid (sv_check sig)) svs) eqn:Ef.
    + destruct svs as [|sv svs]; cbn [length Nat.ltb Nat.leb Nat.eqb andb orb].
      * split; [|split].
        -- split; [discriminate|]. intros [_ [Hne _]]. exfalso.
           apply Hne, Hnil. reflexivity.
        -- split; [discriminate|]. intros [Hne|[sig [check [Hin _]]]].
           ++ contradiction.
           ++ assert (E : signatures = []) by (apply Hnil; reflexivity).
              subst. destruct Hin.
        -- split; [discriminate | reflexivity].
      * split; [|split].
        -- split; [|reflexivity]. intros _. split; [exact Hs|]. split.
           ++ intros E. apply Hnil in E. discriminate.
           ++ apply Hall. reflexivity.
        -- split; [discriminate|]. intros [Hne|Hex]; [contradiction|].
           apply Hsome in Hex. discriminate.
        -- split; [discriminate | reflexivity].
    + rewrite andb_false_r. cbn [orb].
      assert (Hpos : (length svs =? 0)%nat = false).
      { destruct svs; [discriminate | reflexivity]. }
      rewrite Hpos. split; [|split].
      * split; [discriminate|]. intros [_ [_ Hv']].
        apply Hall in Hv'. discriminate.
      * split; [|reflexivity]. intros _. right. apply Hsome. reflexivity.
      * split; [discriminate | congruence].
  - assert (Hs : storedHash <> Some h).
    { intros E. apply Heq in E. discriminate. }
    split; [|split].
    + split; [discriminate|]. intros [E _]. contradiction.
    + split; [|reflexivity]. intros _. left. exact Hs.
    + split; [discriminate | congruence].
Qed.

End StatusResolution.

(** ** The object that is serialized *)

Section CanonicalForm.
Import JS CryptoUtils.
Context {H : Host}.

Lemma get_obj_set_same (o : object) (k : string) (v : value) :
  get (obj_set o k v) k = v.
Proof.
  induction o as [|[k1 v1] o IH]; cbn.
  - rewrite String.eqb_refl. reflexivity.
  - destruct (String.eqb_spec k1 k) as [->|Hne].
    + cbn. rewrite String.eqb_refl. reflexivity.
    + destruct (goes_before k k1); cbn.
      * rewrite String.eqb_refl. reflexivity.
      * destruct (String.eqb_spec k1 k); [contradiction | exact IH].
Qed.

Lemma get_obj_set_other (o : object) (k k2 : string) (v : value) :
  k2 <> k -> get (obj_set o k v) k2 = get o k2.
Proof.
  intros Hne. induction o as [|[k1 v1] o IH]; cbn.
  - destruct (String.eqb_spec k k2); [congruence | reflexivity].
  - destruct (String.eqb_spec k1 k) as [->|Hne1].
    + cbn. destruct (String.eqb_spec k k2); [congruence | reflexivity].
    + destruct (goes_before k k1); cbn.
      * destruct (String.eqb_spec k k2); [congruence | reflexivity].
      * rewrite IH. reflexivity.
Qed.

Lemma includes_In (l : list string) (k : string) :
  includes l k = true <-> In k l.
Proof.
  unfold includes. rewrite existsb_exists. split.
  - intros [x [Hin E]]. apply String.eqb_eq in E. subst. exact Hin.
  - intros Hin. exists k. split; [exact Hin | apply String.eqb_refl].
Qed.

(** The value the object built from the keys [L] holds under a name. *)
Lemma fold_get (r : object) (L : list string) (acc : object) (k : string) :
  get (fold_left (copy_field r) L acc) k
  = if includes L k && present (get r k) then get r k else get acc k.
Proof.
  revert acc. induction L as [|k1 L IH]; intros acc; [reflexivity|].
  cbn [fold_left]. rewrite IH. unfold includes. cbn [existsb].
  fold (includes L k).
  destruct (includes L k && present (get r k)) eqn:E.
  - apply andb_prop in E. destruct E as [E1 E2]. rewrite E1, E2, orb_true_r.
    reflexivity.
  - destruct (String.eqb_spec k k1) as [->|Hne]; cbn [orb andb].
    + unfold copy_field. destruct (present (get r k1)) eqn:Hp.
      * apply get_obj_set_same.
      * reflexivity.
    + rewrite E. unfold copy_field.
      destruct (present (get r k1)); [|reflexivity].
      apply get_obj_set_other. exact Hne.
Qed.

(** A name the object built from the keys [L] holds was held before or is
    one of [L] under which the record holds a value. *)
Lemma fold_keys_present (r : object) (L : list string) (acc : object)
    (k : string) :
  In k (Object_keys (fold_left (copy_field r) L acc)) ->
  In k (Object_keys acc) \/ (In k L /\ present (get r k) = true).
Proof.
  revert acc. induction L as [|k1 L IH]; intros acc; cbn [fold_left].
  - intros Hin. left. exact Hin.
  - intros Hin. destruct (IH _ Hin) as [Hacc|[HL Hp]].
    + unfold copy_field in Hacc. destruct (present (get r k1)) eqn:Hp.
      * destruct (obj_set_keys _ _ _ _ Hacc) as [->|Hin'].
        -- right. split; [left; reflexivity | exact Hp].
        -- left. exact Hin'.
      * left. exact Hacc.
    + right. split; [right; exact HL | exact Hp].
Qed.

Lemma fold_ordered (r : object) (L : list string) (acc : object) :
  NoDup L -> (forall k, In k L -> ~ In k (Object_keys acc)) -> ordered acc ->
  ordered (fold_left (copy_field r) L acc).
Proof.
  revert acc. induction L as [|k1 L IH]; intros acc HL Hdis Ho; cbn [fold_left];
    [exact Ho|].
  inversion HL as [|? ? Hk1 HL']; subst.
  assert (Hnew : ~ In k1 (Object_keys acc)) by (apply Hdis; left; reflexivity).
  unfold copy_field. destruct (present (get r k1)).
  - apply IH; [exact HL' | | apply obj_set_ordered; assumption].
    intros k Hin Hin'.
    destruct (obj_set_keys _ _ _ _ Hin') as [->|Hin''];
      [contradiction | apply (Hdis k); [right; exact Hin | exact Hin'']].
  - apply IH; [exact HL' | | exact Ho].
    intros k Hin. apply Hdis. right. exact Hin.
Qed.

(** A name that is no array index is added at the end. *)
Lemma obj_set_other_names (o : object) (k : string) (v : value) :
  ~ In k (Object_keys o) ->
  filter (fun k => negb (is_index k)) (Object_keys (obj_set o k v))
  = (filter (fun k => negb (is_index k)) (Object_keys o)
     ++ (if is_index k then [] else [k]))%list.
Proof.
  induction o as [|[k1 v1] o IH]; intros Hn.
  - cbn. destruct (is_index k); reflexivity.
  - cbn in Hn. cbn [obj_set].
    destruct (String.eqb_spec k1 k) as [->|Hne].
    { exfalso. apply Hn. left. reflexivity. }
    destruct (goes_before k k1) eqn:Hg.
    + assert (Hi : is_index k = true).
      { unfold goes_before in Hg. unfold is_index.
        destruct (array_index k); [reflexivity | discriminate]. }
      rewrite Hi. cbn [Object_keys map fst filter]. rewrite Hi. cbn [negb].
      rewrite app_nil_r. reflexivity.
    + cbn [Object_keys map fst filter]. fold (Object_keys (obj_set o k v)).
      fold (Object_keys o). rewrite IH by tauto.
      destruct (negb (is_index k1)); reflexivity.
Qed.

Lemma fold_other_names (r : object) (L : list string) (acc : object) :
  NoDup L -> (forall k, In k L -> ~ In k (Object_keys acc)) ->
  filter (fun k => negb (is_index k))
    (Object_keys (fold_left (copy_field r) L acc))
  = (filter (fun k => negb (is_index k)) (Object_keys acc)
     ++ filter (fun k => negb (is_index k))
          (filter (fun k => present (get r k)) L))%list.
Proof.
  revert acc. induction L as [|k1 L IH]; intros acc HL Hdis; cbn [fold_left filter].
  - rewrite app_nil_r. reflexivity.
  - inversion HL as [|? ? Hk1 HL']; subst.
    assert (Hnew : ~ In k1 (Object_keys acc)) by (apply Hdis; left; reflexivity).
    unfold copy_field. destruct (present (get r k1)).
    + rewrite IH; [|exact HL'|].
      * rewrite (obj_set_other_names acc k1 (get r k1) Hnew).
        cbn [filter]. destruct (is_index k1); cbn [negb].
        -- rewrite app_nil_r. reflexivity.
        -- rewrite <- app_assoc. reflexivity.
      * intros k Hin Hin'.
        destruct (obj_set_keys _ _ _ _ Hin') as [->|Hin''];
          [contradiction | apply (Hdis k); [right; exact Hin | exact Hin'']].
    + apply IH; [exact HL'|]. intros k Hin. apply Hdis. right. exact Hin.
Qed.

Lemma insert_head (x : string) (l : list string) :
  (forall z, In z l -> (x <=? z) = true) -> insert x l = x :: l.
Proof.
  destruct l as [|y l]; [reflexivity|]. intros Hall. cbn.
  rewrite (Hall y (or_introl eq_refl)). reflexivity.
Qed.

Lemma insert_sorted (x : string) (l : list string) :
  StronglySorted (fun a b => (a <=? b) = true) l ->
  StronglySorted (fun a b => (a <=? b) = true) (insert x l).
Proof.
  induction l as [|y l IH]; intros Hs; cbn.
  - constructor; constructor.
  - inversion Hs as [|? ? Hs' Hall]; subst.
    destruct (x <=? y) eqn:E.
    + constructor; [exact Hs|]. constructor; [exact E|].
      rewrite Forall_forall in *. intros z Hz.
      apply (leb_trans x y z E). apply Hall. exact Hz.
    + constructor; [apply IH; exact Hs'|].
      rewrite Forall_forall in *. intros z Hz.
      apply (Permutation_in _ (insert_permutation x l)) in Hz.
      destruct Hz as [<-|Hz]; [apply leb_false_flip; exact E | apply Hall; exact Hz].
Qed.

(** [sort] returns its argument in ascending order. *)
Lemma sort_sorted (l : list string) :
  StronglySorted (fun a b => (a <=? b) = true) (sort l).
Proof.
  induction l as [|x l IH]; cbn; [constructor | apply insert_sorted; exact IH].
Qed.

Lemma filter_sorted (P : string -> bool) (l : list string) :
  StronglySorted (fun a b => (a <=? b) = true) l ->
  StronglySorted (fun a b => (a <=? b) = true) (filter P l).
Proof.
  induction l as [|y l IH]; intros Hs; cbn; [constructor|].
  inversion Hs as [|? ? Hs' Hall]; subst.
  destruct (P y); [|apply IH; exact Hs'].
  constructor; [apply IH; exact Hs'|].
  rewrite Forall_forall in *. intros z Hz. apply filter_In in Hz.
  apply Hall. tauto.
Qed.

Lemma filter_insert (P : string -> bool) (x : string) (l : list string) :
  StronglySorted (fun a b => (a <=? b) = true) l ->
  filter P (insert x l) = if P x then insert x (filter P l) else filter P l.
Proof.
  induction l as [|y l IH]; intros Hs.
  - cbn. destruct (P x); reflexivity.
  - inversion Hs as [|? ? Hs' Hall]; subst. cbn [insert].
    destruct (x <=? y) eqn:E.
    + cbn [filter]. destruct (P x); [|reflexivity].
      symmetry. apply insert_head. intros z Hz.
      assert (Hz' : In z (y :: l)).
      { destruct (P y); [|right; apply filter_In in Hz; tauto].
        destruct Hz as [<-|Hz]; [left; reflexivity|].
        right. apply filter_In in Hz. tauto. }
      destruct Hz' as [<-|Hz']; [exact E|].
      rewrite Forall_forall in Hall. apply (leb_trans x y z E). apply Hall.
      exact Hz'.
    + cbn [filter]. rewrite (IH Hs').
      destruct (P y), (P x); try reflexivity.
      cbn [insert]. rewrite E. reflexivity.
Qed.

Lemma filter_sort (P : string -> bool) (l : list string) :
  filter P (sort l) = sort (filter P l).
Proof.
  induction l as [|x l IH]; [reflexivity|]. cbn [sort filter].
  rewrite (filter_insert P x (sort l) (sort_sorted l)), IH.
  destruct (P x); reflexivity.
Qed.

(** Keys under which the record holds no value add nothing. *)
Lemma fold_present (r : object) (L : list string) (acc : object) :
  fold_left (copy_field r) L acc
  = fold_left (copy_field r) (filter (fun k => present (get r k)) L) acc.
Proof.
  revert acc. induction L as [|k1 L IH]; intros acc; [reflexivity|].
  cbn [fold_left filter]. unfold copy_field at 2.
  destruct (present (get r k1)) eqn:Hp.
  - cbn [fold_left]. unfold copy_field at 3. rewrite Hp. apply IH.
  - apply IH.
Qed.

(** The names of the record under which a value is hashed. *)
Lemma present_keys_in (r : object) (k : string) :
  In k (filter (fun k => present (get r k)) (hashed_keys r)) <->
  includes excludeFields k = false /\ present (get r k) = true.
Proof.
  rewrite filter_In, hashed_keys_in. split.
  - tauto.
  - intros [He Hp]. split; [|exact Hp]. split; [|exact He].
    apply get_present_in. exact Hp.
Qed.

(** The canonical JSON of a record is the JSON text of an object that holds
    exactly the fields of the record that are outside the exclusion set and
    neither null nor undefined, each with the value the record has; its
    names that are array indices come first, in ascending numeric order,
    and its other names follow in ascending order of their code units. *)
Theorem canonical_object (r : object) :
  plain_object r = true ->
  NoDup (Object_keys r) ->
  exists o : object,
    createCanonicalJson r = JSON_stringify o
    /\ (forall k, In k (Object_keys o) <->
                  includes excludeFields k = false /\ present (get r k) = true)
    /\ (forall k, get o k
                  = if negb (includes excludeFields k) && present (get r k)
                    then get r k else VUndefined)
    /\ NoDup (Object_keys o)
    /\ ordered o
    /\ StronglySorted (fun a b => (a <=? b) = true)
         (filter (fun k => negb (is_index k)) (Object_keys o)).
Proof.
  intros _ Hnd. exists (clean r (hashed_keys r)).
  pose proof (hashed_keys_nodup r Hnd) as HL.
  split; [apply createCanonicalJson_clean|].
  split; [|split; [|split; [|split]]].
  - intros k. rewrite <- present_keys_in. unfold clean. split.
    + intros Hin. apply fold_keys_present in Hin.
      destruct Hin as [[]|[Hin Hp]]. apply filter_In. tauto.
    + intros Hin. apply filter_In in Hin. apply fold_has_key; tauto.
  - intros k. unfold clean. rewrite fold_get. cbn [get].
    destruct (present (get r k)) eqn:Hp.
    + destruct (includes excludeFields k) eqn:He; cbn [negb andb].
      * destruct (includes (hashed_keys r) k) eqn:Hi; [|reflexivity].
        apply includes_In, hashed_keys_in in Hi. destruct Hi; congruence.
      * assert (Hi : includes (hashed_keys r) k = true).
        { apply includes_In, hashed_keys_in. split; [|exact He].
          apply get_present_in. exact Hp. }
        rewrite Hi. reflexivity.
    + rewrite !andb_false_r. reflexivity.
  - apply clean_nodup. exact Hnd.
  - unfold clean. apply fold_ordered; [exact HL | intros k _ [] |].
    unfold ordered. cbn. constructor.
  - unfold clean. rewrite (fold_other_names r (hashed_keys r) [] HL);
      [|intros k _ []].
    cbn [Object_keys map filter app]. apply filter_sorted, filter_sorted.
    apply sort_sorted.
Qed.

(** A name that is no array index is added at the end. *)
Lemma obj_set_last (o : object) (k : string) (v : value) :
  is_index k = false -> ~ In k (Object_keys o) ->
  obj_set o k v = (o ++ [(k, v)])%list.
Proof.
  intros Hi. induction o as [|[k1 v1] o IH]; intros Hn; [reflexivity|].
  cbn in Hn. cbn [obj_set].
  destruct (String.eqb_spec k1 k) as [->|Hne].
  { exfalso. apply Hn. left. reflexivity. }
  assert (Hg : goes_before k k1 = false).
  { unfold goes_before. unfold is_index in Hi.
    destruct (array_index k); [discriminate | reflexivity]. }
  rewrite Hg, IH by tauto. reflexivity.
Qed.

Lemma fold_append (r : object) (L : list string) (acc : object) :
  NoDup L -> (forall k, In k L -> is_index k = false) ->
  (forall k, In k L -> ~ In k (Object_keys acc)) ->
  fold_left (copy_field r) L acc
  = (acc ++ map (fun k => (k, get r k))
              (filter (fun k => present (get r k)) L))%list.
Proof.
  revert acc. induction L as [|k1 L IH]; intros acc HL Hi Hdis;
    cbn [fold_left filter].
  - cbn. rewrite app_nil_r. reflexivity.
  - inversion HL as [|? ? Hk1 HL']; subst.
    assert (Hnew : ~ In k1 (Object_keys acc)) by (apply Hdis; left; reflexivity).
    unfold copy_field. destruct (present (get r k1)).
    + rewrite IH; [|exact HL'| |].
      * rewrite (obj_set_last acc k1 (get r k1));
          [|apply Hi; left; reflexivity | exact Hnew].
        rewrite <- app_assoc. reflexivity.
      * intros k Hin. apply Hi. right. exact Hin.
      * intros k Hin Hin'.
        destruct (obj_set_keys _ _ _ _ Hin') as [->|Hin''];
          [contradiction | apply (Hdis k); [right; exact Hin | exact Hin'']].
    + apply IH; [exact HL' | |].
      * intros k Hin. apply Hi. right. exact Hin.
      * intros k Hin. apply Hdis. right. exact Hin.
Qed.

(** For a record none of whose names is an array index, as the names of
    columns are, the canonical JSON lists the fields that are outside the
    exclusion set and neither null nor undefined in ascending order of
    their names. *)
Theorem canonical_json_in_name_order (r : object) :
  plain_object r = true ->
  NoDup (Object_keys r) ->
  (forall k, In k (Object_keys r) -> is_index k = false) ->
  createCanonicalJson r
  = JSON_stringify
      (map (fun k => (k, get r k))
           (sort (filter (fun k => negb (includes excludeFields k)
                                   && present (get r k))
                         (Object_keys r)))).
Proof.
  intros _ Hnd Hi. rewrite createCanonicalJson_clean. unfold clean.
  rewrite (fold_append r (hashed_keys r) []).
  - cbn [app]. f_equal. f_equal. unfold hashed_keys.
    rewrite filter_sort. f_equal. clear Hnd Hi.
    induction (Object_keys r) as [|k l IH]; [reflexivity|].
    cbn [filter]. destruct (negb (includes excludeFields k)); cbn [andb filter].
    + destruct (present (get r k)); [f_equal|]; exact IH.
    + exact IH.
  - apply hashed_keys_nodup. exact Hnd.
  - intros k Hin. apply Hi. apply hashed_keys_in in Hin. tauto.
  - intros k _ [].
Qed.

(** Two records that agree on the fields outside the exclusion set that
    are neither null nor undefined have one canonical JSON. *)
Lemma canonical_json_of_present_fields (r r' : object) :
  NoDup (Object_keys r) -> NoDup (Object_keys r') ->
  (forall k, includes excludeFields k = false ->
     (present (get r k) = false /\ present (get r' k) = false)
     \/ get r k = get r' k) ->
  createCanonicalJson r = createCanonicalJson r'.
Proof.
  intros Hnd Hnd' Hsame.
  rewrite !createCanonicalJson_clean. f_equal. unfold clean.
  rewrite (fold_present r), (fold_present r').
  assert (Hp : forall k, includes excludeFields k = false ->
                 present (get r k) = present (get r' k)).
  { intros k He. destruct (Hsame k He) as [[-> ->]| ->]; reflexivity. }
  assert (EL : filter (fun k => present (get r k)) (hashed_keys r)
               = filter (fun k => present (get r' k)) (hashed_keys r')).
  { unfold hashed_keys. rewrite !filter_sort. apply sort_permutation.
    apply NoDup_Permutation.
    - apply NoDup_filter, NoDup_filter. exact Hnd.
    - apply NoDup_filter, NoDup_filter. exact Hnd'.
    - intros k. rewrite !filter_In. split; intros [[_ He] Hk];
        pose proof He as He'; apply negb_true_iff in He';
        pose proof (Hp k He') as Ek.
      + rewrite Ek in Hk.
        split; [split; [apply get_present_in; exact Hk | exact He] | exact Hk].
      + rewrite <- Ek in Hk.
        split; [split; [apply get_present_in; exact Hk | exact He] | exact Hk]. }
  rewrite <- EL. apply fold_left_ext_in. intros acc k Hin.
  apply present_keys_in in Hin. destruct Hin as [He Hk].
  unfold copy_field. destruct (Hsame k He) as [[E1 _]| ->]; [congruence|].
  reflexivity.
Qed.

(** The canonical JSON and the hash of a record depend only on the fields
    outside the exclusion set that are neither null nor undefined: two
    records that agree on them get the same text and the same hash, whatever
    other fields they have and in whatever order. *)
Theorem hash_depends_on_present_fields (r r' : object) :
  plain_object r = true -> plain_object r' = true ->
  NoDup (Object_keys r) -> NoDup (Object_keys r') ->
  (forall k, includes excludeFields k = false ->
     (present (get r k) = false /\ present (get r' k) = false)
     \/ get r k = get r' k) ->
  createCanonicalJson r = createCanonicalJson r'
  /\ generateHash r = generateHash r'.
Proof.
  intros _ _ Hnd Hnd' Hsame.
  pose proof (canonical_json_of_present_fields r r' Hnd Hnd' Hsame) as E.
  split; [exact E | unfold generateHash; rewrite E; reflexivity].
Qed.

End CanonicalForm.

(** ** Changes the hash detects *)

Section Detection.
Import JS CryptoUtils.
Context {H : Host}.

Lemma length_append (a b : string) :
  String.length (a ++ b) = String.length a + String.length b.
Proof.
  induction a as [|c a IH]; cbn; [reflexivity | rewrite IH; reflexivity].
Qed.

(** A separated list grows with every entry put into it. *)
Lemma concat_longer (ma mb : list string) (m : string) :
  m <> "" ->
  String.length (String.concat sep (ma ++ mb)%list)
  < String.length (String.concat sep (ma ++ m :: mb)%list).
Proof.
  intros Hm.
  assert (Hpos : 0 < String.length m) by (destruct m; [congruence | cbn; lia]).
  induction ma as [|x ma IH]; cbn [app].
  - rewrite concat_cons, length_append.
    destruct mb as [|y mb]; [cbn; lia|].
    cbn [after_entry]. rewrite length_append. lia.
  - rewrite !concat_cons, !length_append.
    destruct (ma ++ mb)%list as [|y l] eqn:E.
    + destruct ma; [|discriminate]. cbn in E. subst mb. cbn. lia.
    + destruct (ma ++ m :: mb)%list as [|y' l'] eqn:E'.
      { destruct ma; discriminate. }
      cbn [after_entry]. rewrite !length_append. lia.
Qed.

Lemma get_split (o : object) (k : string) :
  In k (Object_keys o) ->
  exists a b, o = (a ++ (k, get o k) :: b)%list /\ ~ In k (Object_keys a).
Proof.
  induction o as [|[k1 v1] o IH]; cbn; [intros []|].
  intros Hin. destruct (String.eqb_spec k1 k) as [->|Hne].
  - exists [], o. split; [reflexivity | intros []].
  - destruct Hin as [E|Hin]; [contradiction|].
    destruct (IH Hin) as [a [b [E Ha]]].
    exists ((k1, v1) :: a), b. split.
    + cbn. rewrite <- E. reflexivity.
    + cbn. intros [E'|Hin']; [contradiction | exact (Ha Hin')].
Qed.

Lemma filter_other_names (o : object) (k : string) :
  ~ In k (Object_keys o) ->
  filter (fun kv => negb (fst kv =? k)) o = o.
Proof.
  induction o as [|[k1 v1] o IH]; cbn; [reflexivity|].
  intros Hn. destruct (String.eqb_spec k1 k) as [->|Hne]; cbn.
  - exfalso. apply Hn. left. reflexivity.
  - rewrite IH by tauto. reflexivity.
Qed.

(** Leaving properties out commutes with building the object. *)
Lemma fold_where (P : string * value -> bool) (r : object) (L : list string)
    (acc : object) :
  NoDup L -> (forall k, In k L -> ~ In k (Object_keys acc)) -> ordered acc ->
  filter P (fold_left (copy_field r) L acc)
  = fold_left (copy_where P r) L (filter P acc).
Proof.
  revert acc. induction L as [|k1 L IH]; intros acc HL Hdis Ho; cbn [fold_left];
    [reflexivity|].
  inversion HL as [|? ? Hk1 HL']; subst.
  assert (Hnew : ~ In k1 (Object_keys acc)) by (apply Hdis; left; reflexivity).
  unfold copy_field at 2, copy_where at 2.
  destruct (present (get r k1)) eqn:Hp; cbn [andb].
  - rewrite (IH _ HL').
    + rewrite (obj_set_filter P acc k1 (get r k1) Ho Hnew). reflexivity.
    + intros k Hin Hin'.
      destruct (obj_set_keys _ _ _ _ Hin') as [->|Hin''];
        [contradiction | apply (Hdis k); [right; exact Hin | exact Hin'']].
    + apply obj_set_ordered; assumption.
  - apply IH; [exact HL' | | exact Ho].
    intros k Hin. apply Hdis. right. exact Hin.
Qed.

(** The object built for a record with one more field is the object built
    for the record, with that field put in at some place. *)
Lemma clean_with_field (r : object) (k : string) (v : value) :
  NoDup (Object_keys r) -> ~ In k (Object_keys r) ->
  includes excludeFields k = false -> present v = true ->
  exists a b,
    clean ((k, v) :: r) (hashed_keys ((k, v) :: r)) = (a ++ (k, v) :: b)%list
    /\ clean r (hashed_keys r) = (a ++ b)%list.
Proof.
  intros Hnd Hn He Hp.
  assert (Hnd' : NoDup (Object_keys ((k, v) :: r)))
    by (cbn; constructor; assumption).
  pose proof (hashed_keys_nodup _ Hnd') as HL'.
  pose proof (clean_nodup _ Hnd') as Hnc.
  assert (Hgk : get ((k, v) :: r) k = v) by (cbn; rewrite String.eqb_refl; reflexivity).
  assert (Hin : In k (Object_keys (clean ((k, v) :: r) (hashed_keys ((k, v) :: r))))).
  { unfold clean. apply fold_has_key.
    - apply hashed_keys_in. split; [left; reflexivity | exact He].
    - rewrite Hgk. exact Hp. }
  destruct (get_split _ k Hin) as [a [b [E Ha]]].
  assert (Hv : get (clean ((k, v) :: r) (hashed_keys ((k, v) :: r))) k = v).
  { unfold clean. rewrite fold_get, Hgk, Hp.
    assert (Hi : includes (hashed_keys ((k, v) :: r)) k = true).
    { apply includes_In, hashed_keys_in. split; [left; reflexivity | exact He]. }
    rewrite Hi. reflexivity. }
  rewrite Hv in E. exists a, b. split; [exact E|].
  assert (Hb : ~ In k (Object_keys b)).
  { rewrite E in Hnc. unfold Object_keys in Hnc. rewrite map_app in Hnc.
    cbn [map fst] in Hnc. apply NoDup_remove_2 in Hnc.
    intros Hin'. apply Hnc. apply in_or_app. right. exact Hin'. }
  assert (Ef : filter (fun kv => negb (fst kv =? k))
                 (clean ((k, v) :: r) (hashed_keys ((k, v) :: r)))
               = (a ++ b)%list).
  { rewrite E, filter_app. cbn [filter fst]. rewrite String.eqb_refl. cbn [negb].
    rewrite (filter_other_names a k Ha), (filter_other_names b k Hb).
    reflexivity. }
  rewrite <- Ef. unfold clean.
  rewrite (fold_where _ _ _ [] HL'); [|intros k2 _ [] | unfold ordered; cbn; constructor].
  cbn [filter].
  assert (Hstep : forall acc k2, k2 <> k ->
            copy_where (fun kv => negb (fst kv =? k)) ((k, v) :: r) acc k2
            = copy_field r acc k2).
  { intros acc k2 Hne. unfold copy_where, copy_field. cbn [get fst].
    destruct (String.eqb_spec k k2); [congruence|].
    destruct (String.eqb_spec k2 k); [congruence|].
    cbn [negb]. rewrite andb_true_r. reflexivity. }
  assert (Hk : forall acc,
            copy_where (fun kv => negb (fst kv =? k)) ((k, v) :: r) acc k = acc).
  { intros acc. unfold copy_where. cbn [get fst]. rewrite !String.eqb_refl.
    cbn [negb]. rewrite andb_false_r. reflexivity. }
  assert (Hother : forall k2, In k2 (hashed_keys r) -> k2 <> k).
  { intros k2 Hin2 ->. apply hashed_keys_in in Hin2. tauto. }
  unfold hashed_keys at 2. cbn [Object_keys map fst filter]. rewrite He.
  cbn [negb sort]. fold (Object_keys r). fold (hashed_keys r).
  destruct (insert_split k (hashed_keys r)) as [a' [b' [E' ->]]].
  rewrite E' in *. rewrite !fold_left_app. cbn [fold_left]. rewrite Hk.
  rewrite (fold_left_ext_in (copy_where (fun kv => negb (fst kv =? k)) ((k, v) :: r))
             (copy_field r) a').
  - symmetry. apply fold_left_ext_in. intros acc k2 Hin2. apply Hstep, Hother.
    apply in_or_app. right. exact Hin2.
  - intros acc k2 Hin2. apply Hstep, Hother. apply in_or_app. left. exact Hin2.
Qed.

Lemma quote_not_empty (s : string) : quote s <> "".
Proof.
  unfold quote. cbn. discriminate.
Qed.

(** A record that gains a field outside the exclusion set, with a value that
    is neither null nor undefined and that is written, gets another
    canonical JSON, and another hash unless SHA-256 collides. So a record
    hashed without one of its fields does not verify with it. *)
Theorem added_field_changes_hash (r : object) (k : string) (v : value)
    (t c : string) :
  plain_object ((k, v) :: r) = true ->
  NoDup (Object_keys r) -> ~ In k (Object_keys r) ->
  includes excludeFields k = false ->
  present v = true -> serialize v = Ok (Some t) ->
  createCanonicalJson r = Ok c ->
  exists c',
    createCanonicalJson ((k, v) :: r) = Ok c'
    /\ String.length c < String.length c'
    /\ c' <> c
    /\ (sha256 c' <> sha256 c ->
        generateHash ((k, v) :: r) <> generateHash r).
Proof.
  intros _ Hnd Hn He Hp Ht Hc.
  destruct (clean_with_field r k v Hnd Hn He Hp) as [a [b [E' E]]].
  rewrite createCanonicalJson_clean in Hc. rewrite E in Hc.
  unfold JSON_stringify, object_text in Hc. rewrite members_text_app in Hc.
  destruct (members_text serialize a) as [ma|e] eqn:Ea; [|discriminate].
  destruct (members_text serialize b) as [mb|e] eqn:Eb; [|discriminate].
  cbn [bind] in Hc. injection Hc as <-.
  pose proof (object_text_build k a b v t ma mb Ht Ea Eb) as Hc'.
  exists ("{" ++ before_entry ma ++ member_text k t ++ after_entry mb ++ "}").
  assert (Hjson : createCanonicalJson ((k, v) :: r)
                  = Ok ("{" ++ before_entry ma ++ member_text k t
                            ++ after_entry mb ++ "}")).
  { rewrite createCanonicalJson_clean, E'. exact Hc'. }
  assert (Hlen : String.length ("{" ++ String.concat sep (ma ++ mb)%list ++ "}")
                 < String.length ("{" ++ before_entry ma ++ member_text k t
                                      ++ after_entry mb ++ "}")).
  { rewrite <- (append_assoc (before_entry ma)).
    rewrite <- (append_assoc (before_entry ma ++ member_text k t)).
    rewrite (append_assoc (before_entry ma) (member_text k t) (after_entry mb)).
    rewrite <- concat_entry. rewrite !length_append.
    pose proof (concat_longer ma mb (member_text k t)) as Hl.
    cbn [String.length]. apply Nat.add_lt_mono_l, Nat.add_lt_mono_r. apply Hl.
    unfold member_text, quote. cbn. discriminate. }
  split; [exact Hjson|]. split; [exact Hlen|]. split.
  - intros Eq. rewrite Eq in Hlen. exact (Nat.lt_irrefl _ Hlen).
  - intros Hsha. unfold generateHash. rewrite Hjson, createCanonicalJson_clean, E.
    unfold JSON_stringify, object_text. rewrite members_text_app, Ea, Eb.
    cbn [bind]. intros Eq. injection Eq as Eq. apply hex_injective in Eq.
    contradiction.
Qed.

(** The character an escape stands for. *)
Lemma unescape_head_escape (c : ascii) (rest : string) :
  unescape_head (escape_char c ++ rest) = Some c.
Proof.
  destruct c as [[|] [|] [|] [|] [|] [|] [|] [|]]; reflexivity.
Qed.

Lemma escape_injective (s s' x y : string) :
  escape s ++ String dquote x = escape s' ++ String dquote y -> s = s'.
Proof.
  revert s'. induction s as [|c s IH]; intros [|c' s']; cbn [escape].
  - reflexivity.
  - rewrite append_assoc. intros E. apply (f_equal unescape_head) in E.
    rewrite unescape_head_escape in E. discriminate.
  - rewrite append_assoc. intros E. apply (f_equal unescape_head) in E.
    rewrite unescape_head_escape in E. discriminate.
  - rewrite !append_assoc. intros E.
    pose proof (f_equal unescape_head E) as Eh.
    rewrite !unescape_head_escape in Eh. injection Eh as <-.
    apply append_inv_head in E. rewrite (IH s' E). reflexivity.
Qed.

(** Two texts with one quoted form are one text. *)
Lemma quote_injective (s s' : string) : quote s = quote s' -> s = s'.
Proof.
  unfold quote, str. cbn [append]. intros E. injection E as E.
  exact (escape_injective s s' "" "" E).
Qed.

(** A change of a field that holds a text, outside the exclusion set, to
    another text always gives another canonical JSON, and another hash
    unless SHA-256 collides. *)
Theorem text_change_changes_hash (r : object) (k : string) (s s' c : string) :
  plain_object r = true ->
  NoDup (Object_keys r) ->
  includes excludeFields k = false ->
  get r k = VString s -> s' <> s ->
  createCanonicalJson r = Ok c ->
  exists c',
    createCanonicalJson (replace_field r k (VString s')) = Ok c'
    /\ c' <> c
    /\ (sha256 c' <> sha256 c ->
        generateHash (replace_field r k (VString s')) <> generateHash r).
Proof.
  intros _ Hnd He Hg Hs Hc.
  destruct (changed_field_changes_json r k (VString s') (quote s) (quote s') c)
    as [c' [Hc' Hne]]; try assumption; try reflexivity.
  - rewrite Hg. reflexivity.
  - rewrite Hg. reflexivity.
  - intros E. apply Hs. symmetry. exact (quote_injective s s' E).
  - exists c'. split; [exact Hc'|]. split; [exact Hne|].
    intros Hsha. rewrite (generateHash_of_json _ _ Hc'), (generateHash_of_json _ _ Hc).
    intros E. injection E as E. apply hex_injective in E. contradiction.
Qed.

(** A field outside the exclusion set that holds a BigInt stops every
    routine that canonicalizes the record: the canonical JSON and the hash
    throw the TypeError of [JSON.stringify], signing throws its own error,
    a signature check returns not valid with the message of the TypeError,
    and the complete verification throws. *)
Theorem bigint_field_stops_canonicalization (this : instance) (r : object)
    (k : string) (n : Z) :
  plain_object r = true ->
  includes excludeFields k = false ->
  get r k = VBigInt n ->
  createCanonicalJson r = Throw bigint_error
  /\ generateHash r = Throw bigint_error
  /\ (forall signerInfo,
        signRecord this r signerInfo
        = Throw (mkError "Error" "Failed to create digital signature"))
  /\ (forall signature key,
        verifySignature this r signature key = Ok (refused bigint_error))
  /\ (forall storedHash signatures,
        completeVerification this r storedHash signatures = Throw bigint_error).
Proof.
  intros _ He Hg.
  assert (Hp : present (get r k) = true) by (rewrite Hg; reflexivity).
  assert (Hc : createCanonicalJson r = Throw bigint_error).
  { destruct (createCanonicalJson r) as [c|e] eqn:Ec.
    - exfalso. rewrite createCanonicalJson_clean in Ec.
      assert (Hin : In k (Object_keys (clean r (hashed_keys r)))).
      { unfold clean. apply fold_has_key; [|exact Hp].
        apply hashed_keys_in. split; [apply get_present_in; exact Hp | exact He]. }
      destruct (get_split _ k Hin) as [a [b [E _]]].
      assert (Hv : get (clean r (hashed_keys r)) k = VBigInt n).
      { unfold clean. rewrite fold_get, Hp, Hg.
        assert (Hi : includes (hashed_keys r) k = true).
        { apply includes_In, hashed_keys_in.
          split; [apply get_present_in; exact Hp | exact He]. }
        rewrite Hi. reflexivity. }
      rewrite Hv in E. rewrite E in Ec.
      unfold JSON_stringify, object_text in Ec. rewrite members_text_app in Ec.
      destruct (members_text serialize a); cbn in Ec; discriminate.
    - f_equal. exact (createCanonicalJson_throws r e Ec). }
  split; [exact Hc|]. split; [|split; [|split]].
  - unfold generateHash. rewrite Hc. reflexivity.
  - intros signerInfo. unfold signRecord. rewrite Hc. reflexivity.
  - intros signature key. unfold verifySignature. rewrite Hc. reflexivity.
  - intros storedHash signatures.
    unfold completeVerification, verifyRecordIntegrity, generateHash.
    rewrite Hc. reflexivity.
Qed.

End Detection.

(** ** The stored hash *)

Section Integrity.
Import JS CryptoUtils.
Context {H : Host}.

Lemma hex_byte_lower (b : byte) :
  String.length (hex_byte b) = 2
  /\ forallb lower_hex (list_ascii_of_string (hex_byte b)) = true.
Proof.
  destruct b; split; reflexivity.
Qed.

Lemma hex_lower (bs : list byte) :
  String.length (hex bs) = 2 * length bs
  /\ forallb lower_hex (list_ascii_of_string (hex bs)) = true.
Proof.
  induction bs as [|b bs [IH1 IH2]]; [split; reflexivity|].
  rewrite hex_cons, length_append, chars_append, forallb_app.
  destruct (hex_byte_lower b) as [E1 E2]. rewrite E1, E2, IH1, IH2.
  split; [cbn [length]; lia | reflexivity].
Qed.

Lemma eqb_neq_stored (h : string) (stored : option string) :
  stored <> Some h -> strict_equal h stored = false.
Proof.
  intros Hne. destruct (strict_equal h stored) eqn:E; [|reflexivity].
  apply strict_equal_true in E. contradiction.
Qed.

(** The hash of a record is the digest written with two lower-case
    hexadecimal digits per byte, and the comparison with the stored hash is
    one of texts: a stored hash with any other character in it, such as an
    upper-case digit, is reported as not matching. *)
Theorem hash_is_lower_case_hex (r : object) (h : string) :
  generateHash r = Ok h ->
  (exists c,
     createCanonicalJson r = Ok c
     /\ String.length h = 2 * length (sha256 c))
  /\ forallb lower_hex (list_ascii_of_string h) = true
  /\ forall stored,
       forallb lower_hex (list_ascii_of_string stored) = false ->
       verifyRecordIntegrity r (Some stored)
       = Ok {| hc_isValid := false;
               storedHash := Some stored;
               computedHash := h |}.
Proof.
  unfold generateHash.
  destruct (createCanonicalJson r) as [c|e] eqn:Ec; [|discriminate].
  cbn [bind]. intros E. injection E as <-.
  destruct (hex_lower (sha256 c)) as [E1 E2].
  split; [exists c; split; [reflexivity | exact E1]|].
  split; [exact E2|].
  intros stored Hs. unfold verifyRecordIntegrity, generateHash.
  rewrite Ec. cbn [bind]. rewrite eqb_neq_stored; [reflexivity|].
  intros E. injection E as ->. congruence.
Qed.

(** A row verifies against the hash that was taken of its data: when the
    row agrees with the data on the fields outside the exclusion set that
    are neither null nor undefined, the integrity check of the row against
    that hash is valid, and against any other stored value it is not. *)
Theorem stored_hash_round_trip (data row : object) (h : string) :
  plain_object data = true -> plain_object row = true ->
  NoDup (Object_keys data) -> NoDup (Object_keys row) ->
  (forall k, includes excludeFields k = false ->
     (present (get data k) = false /\ present (get row k) = false)
     \/ get data k = get row k) ->
  generateHash data = Ok h ->
  verifyRecordIntegrity row (Some h)
  = Ok {| hc_isValid := true; storedHash := Some h; computedHash := h |}
  /\ forall stored,
       stored <> Some h ->
       verifyRecordIntegrity row stored
       = Ok {| hc_isValid := false; storedHash := stored; computedHash := h |}.
Proof.
  intros _ _ Hnd Hnd' Hsame Hh.
  pose proof (canonical_json_of_present_fields data row Hnd Hnd' Hsame) as E.
  assert (Hrow : generateHash row = Ok h).
  { unfold generateHash in *. rewrite <- E. exact Hh. }
  unfold verifyRecordIntegrity. rewrite Hrow. cbn [bind]. split.
  - cbn [strict_equal]. rewrite String.eqb_refl. reflexivity.
  - intros stored Hne. rewrite (eqb_neq_stored h stored Hne). reflexivity.
Qed.

End Integrity.

(** ** The verification route and the routes that call it *)

Section Reports.
Import JS CryptoUtils Routes.
Context {H : Host}.

(** What a complete verification that returns has computed. *)
Lemma completeVerification_shape (this : instance) (record : object)
    (storedHash : option string) (signatures : list approval)
    (v : verification) :
  completeVerification this record storedHash signatures = Ok v ->
  exists h svs,
    generateHash record = Ok h
    /\ map_result (verify_one this record) signatures = Ok svs
    /\ length svs = length signatures
    /\ hashVerification v
       = {| hc_isValid := strict_equal h storedHash;
            storedHash := storedHash;
            computedHash := h |}
    /\ signatureVerifications v = svs
    /\ verificationStatus v
       = (if strict_equal h storedHash
             && ((0 <? length svs)%nat
                 && forallb (fun sig => isValid (sv_check sig)) svs)
          then verified
          else if strict_equal h storedHash && (length svs =? 0)%nat
          then pending else suspicious)
    /\ overallValid v
       = strict_equal h storedHash
         && (((0 <? length svs)%nat
              && forallb (fun sig => isValid (sv_check sig)) svs)
             || (length svs =? 0)%nat).
Proof.
  intros Hv.
  destruct (generateHash record) as [h|e] eqn:Hh.
  - destruct (completeVerification_returns this record storedHash signatures h Hh)
      as [svs [Hsvs [Hlen Hv']]].
    rewrite Hv' in Hv. injection Hv as <-.
    exists h, svs. repeat split; assumption.
  - unfold completeVerification, verifyRecordIntegrity in Hv.
    rewrite Hh in Hv. discriminate.
Qed.

(** The status of a verification and its overall validity. *)
Lemma overallValid_status (this : instance) (record : object)
    (storedHash : option string) (signatures : list approval)
    (v : verification) :
  completeVerification this record storedHash signatures = Ok v ->
  overallValid v
  = match verificationStatus v with
    | suspicious => false
    | _ => true
    end.
Proof.
  intros Hv.
  destruct (completeVerification_shape _ _ _ _ _ Hv)
    as [h [svs [_ [_ [_ [_ [_ [-> ->]]]]]]]].
  destruct (strict_equal h storedHash); cbn [andb]; [|reflexivity].
  destruct svs as [|sv svs]; [reflexivity|].
  cbn [length Nat.ltb Nat.leb Nat.eqb andb orb].
  destruct (forallb _ (sv :: svs)); reflexivity.
Qed.

(** What the verification route has done when it answers with a report. *)
Lemma verify_route_json (this : instance) (db : database)
    (recordType recordId : string) (report : verificationReport) :
  verify_route this db recordType recordId = Json report ->
  exists record rest approvals history v,
    includes validTypes recordType = true
    /\ select_record db (table_name recordType) recordId = Ok (record :: rest)
    /\ select_approvals db recordId recordType = Ok approvals
    /\ completeVerification this record (as_text (get record "record_hash"))
         approvals = Ok v
    /\ select_audit db (table_name recordType) recordId = Ok history
    /\ report
       = {| vr_recordId := recordId;
            vr_recordType := recordType;
            vr_record := obj_set record "canonical_json" VUndefined;
            vr_verification := v;
            vr_approvals := map (report_approval v) approvals;
            vr_auditTrail := history;
            verificationSummary :=
              {| overallStatus := verificationStatus v;
                 hashIntegrity := hc_isValid (hashVerification v);
                 signatureCount := length approvals;
                 validSignatures :=
                   length (filter (fun sig => isValid (sv_check sig))
                                  (signatureVerifications v)) |} |}.
Proof.
  unfold verify_route.
  destruct (includes validTypes recordType) eqn:Ht; cbn [negb]; [|discriminate].
  destruct (select_record db (table_name recordType) recordId)
    as [[|record rest]|e] eqn:Hr; cbn [bind]; try discriminate.
  destruct (select_approvals db recordId recordType) as [approvals|e] eqn:Ha;
    cbn [bind]; [|discriminate].
  destruct (completeVerification this record (as_text (get record "record_hash"))
              approvals) as [v|e] eqn:Hv; cbn [bind]; [|discriminate].
  destruct (select_audit db (table_name recordType) recordId) as [history|e] eqn:Hh;
    cbn [bind]; [|discriminate].
  destruct (send_check (obj_set record "canonical_json" VUndefined) history)
    as [[]|e]; cbn [bind]; [|discriminate].
  intros E. injection E as <-.
  exists record, rest, approvals, history, v. repeat split; assumption.
Qed.

Lemma JSON_stringify_returns (o : object) :
  has_bigint (VObject o) = false -> exists c, JSON_stringify o = Ok c.
Proof.
  intros Hb. destruct (serialize_returns (VObject o) Hb) as [t Ht].
  cbn [serialize] in Ht. unfold JSON_stringify.
  destruct (object_text serialize o) as [c|e]; [exists c; reflexivity | discriminate].
Qed.

(** The answers of the verification route. A record type outside the four
    is refused with 400 and a record that the store does not hold with 404;
    every error answer is one of three, 400, 404 and 500, each with its own
    text; and a record that the store holds is answered with a report when
    the three queries return and no BigInt occurs in the row or in the
    audit rows. *)
Theorem verify_route_answers (this : instance) (db : database)
    (recordType recordId : string) :
  (includes validTypes recordType = false ->
   verify_route this db recordType recordId = Failure 400 "Invalid record type")
  /\ (includes validTypes recordType = true ->
      select_record db (table_name recordType) recordId = Ok [] ->
      verify_route this db recordType recordId = Failure 404 "Record not found")
  /\ (forall code error,
        verify_route this db recordType recordId = Failure code error ->
        (code = 400 /\ error = "Invalid record type"
         /\ includes validTypes recordType = false)
        \/ (code = 404 /\ error = "Record not found"
            /\ select_record db (table_name recordType) recordId = Ok [])
        \/ (code = 500 /\ error = "Verification failed"))
  /\ (forall record rest approvals history,
        includes validTypes recordType = true ->
        select_record db (table_name recordType) recordId = Ok (record :: rest) ->
        select_approvals db recordId recordType = Ok approvals ->
        select_audit db (table_name recordType) recordId = Ok history ->
        plain_object record = true ->
        has_bigint (VObject record) = false ->
        Forall (fun row => plain_object row = true
                           /\ has_bigint (VObject row) = false) history ->
        exists report,
          verify_route this db recordType recordId = Json report
          /\ vr_recordId report = recordId
          /\ vr_recordType report = recordType
          /\ vr_auditTrail report = history).
Proof.
  split; [|split; [|split]].
  - intros Ht. unfold verify_route. rewrite Ht. reflexivity.
  - intros Ht Hr. unfold verify_route. rewrite Ht. cbn [negb]. rewrite Hr.
    reflexivity.
  - intros code error. unfold verify_route.
    destruct (includes validTypes recordType) eqn:Ht; cbn [negb].
    + destruct (select_record db (table_name recordType) recordId)
        as [[|record rest]|e] eqn:Hr; cbn [bind].
      * intros E. injection E as <- <-. right. left. repeat split.
      * destruct (select_approvals db recordId recordType) as [approvals|e];
          cbn [bind]; [|intros E; injection E as <- <-; right; right; split; reflexivity].
        destruct (completeVerification this record _ approvals) as [v|e];
          cbn [bind]; [|intros E; injection E as <- <-; right; right; split; reflexivity].
        destruct (select_audit db (table_name recordType) recordId) as [history|e];
          cbn [bind]; [|intros E; injection E as <- <-; right; right; split; reflexivity].
        destruct (send_check _ history) as [[]|e]; cbn [bind]; [discriminate|].
        intros E; injection E as <- <-; right; right; split; reflexivity.
      * intros E; injection E as <- <-; right; right; split; reflexivity.
    + intros E. injection E as <- <-. left. repeat split.
  - intros record rest approvals history Ht Hr Ha Hh _ Hb Hrows.
    unfold verify_route. rewrite Ht. cbn [negb]. rewrite Hr. cbn [bind].
    rewrite Ha. cbn [bind].
    destruct (createCanonicalJson_returns record Hb) as [c Hc].
    destruct (completeVerification_returns this record
                (as_text (get record "record_hash")) approvals
                (hex (sha256 c)) (generateHash_of_json record c Hc))
      as [svs [_ [_ Hv]]].
    rewrite Hv. cbn [bind]. rewrite Hh. cbn [bind].
    assert (Hsend : send_check (obj_set record "canonical_json" VUndefined) history
                    = Ok tt).
    { unfold send_check.
      destruct (JSON_stringify_returns (obj_set record "canonical_json" VUndefined))
        as [c1 Hc1].
      { rewrite has_bigint_object. apply obj_set_no_bigint; [|reflexivity].
        rewrite <- has_bigint_object. exact Hb. }
      rewrite Hc1. cbn [bind].
      assert (Hall : exists cs, map_result JSON_stringify history = Ok cs).
      { clear Hh. induction Hrows as [|row rows [_ Hrow] _ [cs IH]].
        - exists []. reflexivity.
        - cbn [map_result]. destruct (JSON_stringify_returns row Hrow) as [c2 ->].
          cbn [bind]. rewrite IH. cbn [bind]. eexists. reflexivity. }
      destruct Hall as [cs ->]. reflexivity. }
    rewrite Hsend. cbn [bind]. eexists. split; [reflexivity|].
    repeat split.
Qed.

End Reports.

(** ** The summary of a report *)

Section Summaries.
Import JS CryptoUtils Routes.
Context {H : Host}.

Lemma filter_all {A : Type} (p : A -> bool) (l : list A) :
  length (filter p l) = length l <-> forallb p l = true.
Proof.
  induction l as [|x l IH]; cbn; [tauto|].
  destruct (p x); cbn.
  - rewrite <- IH. split; [intros E; injection E as E; exact E | congruence].
  - split; [|discriminate]. intros E.
    pose proof (filter_length_le p l). lia.
Qed.

(** The summary of a report agrees with the verification it reports: it
    counts one signature per approval, never more valid signatures than
    signatures, and names the status verified exactly when the hash matches
    and there is at least one signature and all are valid, pending exactly
    when the hash matches and there is no signature, and suspicious exactly
    when the hash does not match or some signature is not valid. The record
    it shows has no canonical JSON. *)
Theorem report_summary_is_consistent (this : instance) (db : database)
    (recordType recordId : string) (report : verificationReport) :
  verify_route this db recordType recordId = Json report ->
  signatureCount (verificationSummary report) = length (vr_approvals report)
  /\ signatureCount (verificationSummary report)
     = length (signatureVerifications (vr_verification report))
  /\ validSignatures (verificationSummary report)
     <= signatureCount (verificationSummary report)
  /\ (overallStatus (verificationSummary report) = verified <->
      hashIntegrity (verificationSummary report) = true
      /\ 1 <= signatureCount (verificationSummary report)
      /\ validSignatures (verificationSummary report)
         = signatureCount (verificationSummary report))
  /\ (overallStatus (verificationSummary report) = pending <->
      hashIntegrity (verificationSummary report) = true
      /\ signatureCount (verificationSummary report) = 0)
  /\ (overallStatus (verificationSummary report) = suspicious <->
      hashIntegrity (verificationSummary report) = false
      \/ validSignatures (verificationSummary report)
         < signatureCount (verificationSummary report))
  /\ get (vr_record report) "canonical_json" = VUndefined.
Proof.
  intros Hr.
  destruct (verify_route_json _ _ _ _ _ Hr)
    as [record [rest [approvals [history [v [_ [_ [_ [Hv [_ ->]]]]]]]]]].
  cbn [verificationSummary vr_approvals vr_verification vr_record
       signatureCount validSignatures overallStatus hashIntegrity].
  destruct (completeVerification_shape _ _ _ _ _ Hv)
    as [h [svs [_ [_ [Hlen [-> [-> [-> _]]]]]]]].
  cbn [hc_isValid]. rewrite length_map, <- Hlen.
  pose proof (filter_length_le (fun sig => isValid (sv_check sig)) svs) as Hle.
  pose proof (filter_all (fun sig => isValid (sv_check sig)) svs) as Hall.
  split; [reflexivity|]. split; [reflexivity|]. split; [exact Hle|].
  split; [|split; [|split; [|apply get_obj_set_same]]].
  - destruct (strict_equal h _); cbn [andb].
    + destruct svs as [|sv svs].
      * cbn. split; [discriminate | intros [_ [Hl _]]; lia].
      * cbn [length Nat.ltb Nat.leb Nat.eqb andb] in *.
        destruct (forallb _ (sv :: svs)) eqn:Ef.
        -- split; [|reflexivity]. intros _. split; [reflexivity|].
           split; [lia | apply Hall; reflexivity].
        -- split; [discriminate|]. intros [_ [_ E]]. apply Hall in E.
           discriminate.
    + split; [discriminate | intros [E _]; discriminate].
  - destruct (strict_equal h _); cbn [andb].
    + destruct svs as [|sv svs].
      * cbn. split; [intros _; split; reflexivity | reflexivity].
      * cbn [length Nat.ltb Nat.leb Nat.eqb andb] in *.
        destruct (forallb _ (sv :: svs));
          (split; [discriminate | intros [_ E]; discriminate]).
    + split; [discriminate | intros [E _]; discriminate].
  - destruct (strict_equal h _); cbn [andb].
    + destruct svs as [|sv svs].
      * cbn. split; [discriminate | intros [E|E]; [discriminate | lia]].
      * cbn [length Nat.ltb Nat.leb Nat.eqb andb] in *.
        destruct (forallb _ (sv :: svs)) eqn:Ef.
        -- split; [discriminate|]. intros [E|E]; [discriminate|].
           assert (E' : length (filter (fun sig => isValid (sv_check sig)) (sv :: svs))
                        = S (length svs)) by (apply Hall; reflexivity).
           lia.
        -- split; [|reflexivity]. intros _. right.
           destruct (Nat.eq_dec
                       (length (filter (fun sig => isValid (sv_check sig)) (sv :: svs)))
                       (S (length svs))) as [E|E]; [|lia].
           apply Hall in E. discriminate.
    + split; [|reflexivity]. intros _. left. reflexivity.
Qed.

Lemma filter_map_length {A B : Type} (f : A -> B) (p : B -> bool) (l : list A) :
  length (filter p (map f l)) = length (filter (fun x => p (f x)) l).
Proof.
  induction l as [|x l IH]; [reflexivity|].
  cbn [map filter]. destruct (p (f x)); cbn [length]; rewrite IH; reflexivity.
Qed.

Lemma find_after {A : Type} (f : A -> bool) (pre l : list A) :
  forallb (fun x => negb (f x)) pre = true -> find f (pre ++ l)%list = find f l.
Proof.
  induction pre as [|x pre IH]; cbn; [reflexivity|].
  destruct (f x); cbn; [discriminate | exact IH].
Qed.

(** With one approval per approver name, the check found under the name of
    an approval is the check of that approval. *)
Lemma valid_by_name_own (approvals : list approval)
    (svs pre : list signatureVerification) :
  Forall2 (fun a sv => name (sv_signer sv) = approver_name a) approvals svs ->
  NoDup (map approver_name approvals) ->
  (forall a sv, In a approvals -> In sv pre ->
     name (sv_signer sv) <> approver_name a) ->
  map (fun a => valid_by_name (pre ++ svs)%list (approver_name a)) approvals
  = map (fun sig => isValid (sv_check sig)) svs.
Proof.
  intros F. revert pre.
  induction F as [|a sv approvals svs Hn F IH]; intros pre Hnd Hpre;
    [reflexivity|].
  cbn [map] in *. inversion Hnd as [|? ? Hnew Hnd']; subst. f_equal.
  - unfold valid_by_name. rewrite find_after.
    + cbn [find]. rewrite Hn, String.eqb_refl. reflexivity.
    + apply forallb_forall. intros sv' Hin. apply negb_true_iff.
      apply String.eqb_neq. apply (Hpre a sv'); [left; reflexivity | exact Hin].
  - specialize (IH (pre ++ [sv])%list Hnd'). rewrite <- app_assoc in IH.
    cbn [app] in IH. apply IH.
    intros a' sv' Hin Hin'. apply in_app_or in Hin'.
    destruct Hin' as [Hin'|[<-|[]]].
    + apply (Hpre a' sv'); [right; exact Hin | exact Hin'].
    + rewrite Hn. intros E. apply Hnew. rewrite E. apply in_map. exact Hin.
Qed.

Lemma signer_names (this : instance) (record : object)
    (approvals : list approval) (svs : list signatureVerification) :
  map_result (verify_one this record) approvals = Ok svs ->
  Forall2 (fun a sv => name (sv_signer sv) = approver_name a) approvals svs.
Proof.
  intros E. apply map_result_each in E.
  induction E as [|a sv approvals svs E1 E2 IH]; constructor; [|exact IH].
  apply verify_one_check in E1. destruct E1 as [_ ->]. reflexivity.
Qed.

Lemma count_partition (rs : list batchResult) :
  count (item_status verified) rs + count (item_status pending) rs
  + count (item_status suspicious) rs + count item_error rs = length rs.
Proof.
  unfold count. induction rs as [|r rs IH]; [reflexivity|].
  cbn [filter length]. destruct (br_status r) as [[| |]|]; cbn [is_status length];
    lia.
Qed.

End Summaries.

(** ** The key files *)

Section KeyFiles.
Import CryptoUtils.
Variable dirname : string -> string.

Lemma put_same (fs : filesystem) (path : string) (n : node) :
  put fs path n path = Some n.
Proof.
  unfold put. rewrite String.eqb_refl. reflexivity.
Qed.

Lemma put_other (fs : filesystem) (path p : string) (n : node) :
  p <> path -> put fs path n p = fs p.
Proof.
  unfold put. intros Hne. destruct (String.eqb_spec p path); [contradiction|].
  reflexivity.
Qed.

Lemma put_exists (fs : filesystem) (path p : string) (n : node) :
  existsSync fs p = true -> existsSync (put fs path n) p = true.
Proof.
  unfold existsSync, put. destruct (p =? path); [reflexivity|]. exact (fun E => E).
Qed.

Lemma writeFileSync_ok (fs fs' : filesystem) (path content : string) :
  writeFileSync dirname fs path content = Ok fs' ->
  fs' = put fs path (File content).
Proof.
  unfold writeFileSync.
  destruct (fs path) as [[c|]|]; try discriminate;
    destruct (fs (dirname path)) as [[c'|]|]; try discriminate;
    intros E; injection E as <-; reflexivity.
Qed.

(** The state in which [loadKeys] looks for the key files. *)
Lemma make_directories_exists (fuel : nat) (fs fs1 : filesystem) (dir : string) :
  make_directories dirname fuel fs dir = Ok fs1 -> existsSync fs1 dir = true.
Proof.
  unfold existsSync. destruct fuel as [|fuel]; cbn [make_directories].
  - destruct (fs dir) as [[c|]|] eqn:E; try discriminate.
    intros E'. injection E' as <-. rewrite E. reflexivity.
  - destruct (fs dir) as [[c|]|] eqn:E; try discriminate.
    + intros E'. injection E' as <-. rewrite E. reflexivity.
    + destruct (make_directories dirname fuel fs (dirname dir)) as [fs2|e];
        cbn [bind]; [|discriminate].
      intros E'. injection E' as <-. rewrite put_same. reflexivity.
Qed.

Lemma keys_directory_step (fs fs1 : filesystem) (dir : string) :
  (if negb (existsSync fs dir) then mkdirSync dirname fs dir else Ok fs) = Ok fs1 ->
  existsSync fs1 dir = true.
Proof.
  destruct (existsSync fs dir) eqn:E; cbn [negb].
  - intros E'. injection E' as <-. exact E.
  - apply make_directories_exists.
Qed.

(** Once [loadKeys] has returned, the two files hold the keys of the
    instance, and [loadKeys] run again on the files it left returns the same
    keys and leaves the files as they are, whatever the generator would give:
    the key pair outlives a restart. The two paths have to differ. *)
Theorem loadKeys_is_stable (privateKeyPath publicKeyPath : string)
    (generated generated' : result (string * string))
    (fs fs' : filesystem) (keys : instance) :
  privateKeyPath <> publicKeyPath ->
  loadKeys dirname privateKeyPath publicKeyPath generated fs = Ok (keys, fs') ->
  readFileSync fs' privateKeyPath = Ok (privateKey keys)
  /\ readFileSync fs' publicKeyPath = Ok (publicKey keys)
  /\ loadKeys dirname privateKeyPath publicKeyPath generated' fs' = Ok (keys, fs').
Proof.
  intros Hne. unfold loadKeys at 1.
  destruct (if negb (existsSync fs (dirname privateKeyPath))
            then mkdirSync dirname fs (dirname privateKeyPath) else Ok fs)
    as [fs1|e] eqn:Hdir; cbn [bind try_catch]; [|discriminate].
  pose proof (keys_directory_step fs fs1 _ Hdir) as Hd.
  destruct (existsSync fs1 privateKeyPath && existsSync fs1 publicKeyPath) eqn:Hex.
  - destruct (readFileSync fs1 privateKeyPath) as [a|e] eqn:Ha; cbn [bind try_catch];
      [|discriminate].
    destruct (readFileSync fs1 publicKeyPath) as [b|e] eqn:Hb; cbn [bind try_catch];
      [|discriminate].
    intros E. injection E as <- <-. cbn [privateKey publicKey].
    split; [exact Ha|]. split; [exact Hb|].
    unfold loadKeys. rewrite Hd. cbn [negb bind]. rewrite Hex, Ha. cbn [bind].
    rewrite Hb. reflexivity.
  - destruct generated as [[a b]|e]; cbn [bind try_catch fst snd]; [|discriminate].
    destruct (writeFileSync dirname fs1 privateKeyPath a) as [fs2|e] eqn:Hw1;
      cbn [bind try_catch]; [|discriminate].
    destruct (writeFileSync dirname fs2 publicKeyPath b) as [fs3|e] eqn:Hw2;
      cbn [bind try_catch]; [|discriminate].
    intros E. injection E as <- <-. cbn [privateKey publicKey].
    apply writeFileSync_ok in Hw1, Hw2. subst fs2 fs3.
    assert (Ha : readFileSync (put (put fs1 privateKeyPath (File a))
                                   publicKeyPath (File b)) privateKeyPath = Ok a).
    { unfold readFileSync. rewrite put_other by exact Hne. rewrite put_same.
      reflexivity. }
    assert (Hb : readFileSync (put (put fs1 privateKeyPath (File a))
                                   publicKeyPath (File b)) publicKeyPath = Ok b).
    { unfold readFileSync. rewrite put_same. reflexivity. }
    split; [exact Ha|]. split; [exact Hb|].
    unfold loadKeys.
    rewrite (put_exists _ publicKeyPath _ _
               (put_exists _ privateKeyPath _ (File a) Hd)).
    cbn [negb bind].
    assert (Hboth : existsSync (put (put fs1 privateKeyPath (File a))
                                    publicKeyPath (File b)) privateKeyPath
                    && existsSync (put (put fs1 privateKeyPath (File a))
                                       publicKeyPath (File b)) publicKeyPath
                    = true).
    { unfold existsSync. rewrite put_same. rewrite put_other by exact Hne.
      rewrite put_same. reflexivity. }
    rewrite Hboth, Ha. cbn [bind]. rewrite Hb. reflexivity.
Qed.

(** When the key files are not both there, [loadKeys] takes both keys from
    the generator and writes both files: a key file that stood alone is
    overwritten, and the instance never holds an old key beside a new one.
    Whatever fails on the way, the error thrown is the one error of
    [loadKeys]. *)
Theorem loadKeys_generates_a_whole_pair (privateKeyPath publicKeyPath : string)
    (generated : result (string * string)) (fs : filesystem) :
  (forall a b,
     privateKeyPath <> publicKeyPath ->
     fs (dirname privateKeyPath) = Some Directory ->
     fs (dirname publicKeyPath) = Some Directory ->
     fs privateKeyPath <> Some Directory ->
     fs publicKeyPath <> Some Directory ->
     existsSync fs privateKeyPath && existsSync fs publicKeyPath = false ->
     generated = Ok (a, b) ->
     exists fs',
       loadKeys dirname privateKeyPath publicKeyPath generated fs
       = Ok ({| privateKey := a; publicKey := b |}, fs')
       /\ fs' privateKeyPath = Some (File a)
       /\ fs' publicKeyPath = Some (File b)
       /\ forall p, p <> privateKeyPath -> p <> publicKeyPath -> fs' p = fs p)
  /\ (forall e,
        loadKeys dirname privateKeyPath publicKeyPath generated fs = Throw e ->
        e = mkError "Error" "Failed to initialize cryptographic keys")
  /\ (forall e,
        fs (dirname privateKeyPath) = Some Directory ->
        existsSync fs privateKeyPath && existsSync fs publicKeyPath = false ->
        generated = Throw e ->
        loadKeys dirname privateKeyPath publicKeyPath generated fs
        = Throw (mkError "Error" "Failed to initialize cryptographic keys")).
Proof.
  split; [|split].
  - intros a b Hne Hd1 Hd2 Hp1 Hp2 Hex ->.
    assert (Hdp : dirname publicKeyPath <> privateKeyPath).
    { intros E. rewrite E in Hd2. contradiction. }
    exists (put (put fs privateKeyPath (File a)) publicKeyPath (File b)).
    split; [|split; [|split]].
    + unfold loadKeys, existsSync at 1. rewrite Hd1. cbn [negb bind].
      rewrite Hex. cbn [bind fst snd].
      assert (Hw1 : writeFileSync dirname fs privateKeyPath a
                    = Ok (put fs privateKeyPath (File a))).
      { unfold writeFileSync. rewrite Hd1.
        destruct (fs privateKeyPath) as [[c|]|]; try reflexivity.
        exfalso. apply Hp1. reflexivity. }
      rewrite Hw1. cbn [bind].
      assert (Hw2 : writeFileSync dirname (put fs privateKeyPath (File a))
                      publicKeyPath b
                    = Ok (put (put fs privateKeyPath (File a)) publicKeyPath (File b))).
      { unfold writeFileSync.
        rewrite (put_other fs privateKeyPath publicKeyPath)
          by (intros E; apply Hne; symmetry; exact E).
        rewrite (put_other fs privateKeyPath (dirname publicKeyPath)) by exact Hdp.
        rewrite Hd2.
        destruct (fs publicKeyPath) as [[c|]|]; try reflexivity.
        exfalso. apply Hp2. reflexivity. }
      rewrite Hw2. reflexivity.
    + rewrite put_other by exact Hne. apply put_same.
    + apply put_same.
    + intros p H1 H2. rewrite !put_other by assumption. reflexivity.
  - intros e. unfold loadKeys, try_catch.
    destruct (_ <- _ ;; _) as [[keys fs']|e'].
    + discriminate.
    + intros E. injection E as <-. reflexivity.
  - intros e Hd1 Hex ->. unfold loadKeys, existsSync at 1. rewrite Hd1.
    cbn [negb bind]. rewrite Hex. reflexivity.
Qed.

End KeyFiles.

(** ** The verification statistics *)

Section Statistics.
Import CryptoUtils Routes.

Lemma sum_counts_cons (p : statsRow -> bool) (row : statsRow)
    (rows : list statsRow) :
  sum_counts p (row :: rows)
  = if p row then (row_count row + sum_counts p rows)%N else sum_counts p rows.
Proof.
  reflexivity.
Qed.

Lemma stats_fold (rows : list statsRow) (st : statistics) :
  (forall s,
     count_of s (overall (fold_left stats_step rows st))
     = (count_of s (overall st) + sum_counts (has_status (Some s)) rows)%N)
  /\ c_total (overall (fold_left stats_step rows st))
     = (c_total (overall st) + sum_counts (fun _ => true) rows)%N
  /\ (forall t s,
        count_of s (byRecordType (fold_left stats_step rows st) t)
        = (count_of s (byRecordType st t)
           + sum_counts (fun row => table_eqb t (record_type row)
                                    && has_status (Some s) row) rows)%N)
  /\ (forall t,
        c_total (byRecordType (fold_left stats_step rows st) t)
        = (c_total (byRecordType st t)
           + sum_counts (fun row => table_eqb t (record_type row)) rows)%N).
Proof.
  revert st. induction rows as [|row rows IH]; intros st.
  - cbn. repeat split; intros; rewrite N.add_0_r; reflexivity.
  - cbn [fold_left]. destruct (IH (stats_step st row)) as [I1 [I2 [I3 I4]]].
    split; [|split; [|split]].
    + intros s. rewrite I1, sum_counts_cons.
      generalize (sum_counts (has_status (Some s)) rows). intros x.
      destruct row as [rt [[| |]|] n], s; cbn; lia.
    + rewrite I2, sum_counts_cons.
      generalize (sum_counts (fun _ => true) rows). intros x.
      destruct row as [rt [[| |]|] n]; cbn; lia.
    + intros t s. rewrite I3, sum_counts_cons.
      generalize (sum_counts (fun row => table_eqb t (record_type row)
                                         && has_status (Some s) row) rows).
      intros x.
      destruct row as [rt [[| |]|] n], s; cbn;
        destruct (table_eqb t rt); cbn; lia.
    + intros t. rewrite I4, sum_counts_cons.
      generalize (sum_counts (fun row => table_eqb t (record_type row)) rows).
      intros x.
      destruct row as [rt [[| |]|] n]; cbn;
        destruct (table_eqb t rt); cbn; lia.
Qed.

Lemma sum_by_table (p : statsRow -> bool) (rows : list statsRow) :
  sum_counts p rows
  = (sum_counts (fun row => table_eqb budgets (record_type row) && p row) rows
     + sum_counts (fun row => table_eqb projects (record_type row) && p row) rows
     + sum_counts (fun row => table_eqb vendors (record_type row) && p row) rows
     + sum_counts (fun row => table_eqb transactions (record_type row) && p row)
         rows)%N.
Proof.
  induction rows as [|row rows IH]; [reflexivity|].
  rewrite !sum_counts_cons, IH.
  destruct (record_type row), (p row); cbn [table_eqb andb]; lia.
Qed.

Lemma sum_by_status (rows : list statsRow) :
  sum_counts (fun _ => true) rows
  = (sum_counts (has_status (Some verified)) rows
     + sum_counts (has_status (Some pending)) rows
     + sum_counts (has_status (Some suspicious)) rows
     + sum_counts (has_status None) rows)%N.
Proof.
  induction rows as [|row rows IH]; [reflexivity|].
  rewrite !sum_counts_cons, IH. unfold has_status.
  destruct (verification_status row) as [[| |]|]; lia.
Qed.

Lemma sum_ext (p q : statsRow -> bool) (rows : list statsRow) :
  (forall row, p row = q row) -> sum_counts p rows = sum_counts q rows.
Proof.
  intros E. induction rows as [|row rows IH]; [reflexivity|].
  rewrite !sum_counts_cons, IH, E. reflexivity.
Qed.

(** The counters of the statistics are sums over the rows of the query:
    each counter of a status, overall and for a record type, is the sum of
    the counts of the rows of that status, and each total the sum of all
    counts. So every overall counter is the sum of the counters of the four
    record types, and the overall total is the sum of the three status
    counters and the counts of the rows that have no status. *)
Theorem statistics_are_sums (rows : list statsRow) :
  (forall s,
     count_of s (overall (statistics_of rows))
     = sum_counts (has_status (Some s)) rows)
  /\ c_total (overall (statistics_of rows)) = sum_counts (fun _ => true) rows
  /\ (forall t s,
        count_of s (byRecordType (statistics_of rows) t)
        = sum_counts (fun row => table_eqb t (record_type row)
                                 && has_status (Some s) row) rows)
  /\ (forall t,
        c_total (byRecordType (statistics_of rows) t)
        = sum_counts (fun row => table_eqb t (record_type row)) rows)
  /\ (forall s,
        count_of s (overall (statistics_of rows))
        = (count_of s (byRecordType (statistics_of rows) budgets)
           + count_of s (byRecordType (statistics_of rows) projects)
           + count_of s (byRecordType (statistics_of rows) vendors)
           + count_of s (byRecordType (statistics_of rows) transactions))%N)
  /\ c_total (overall (statistics_of rows))
     = (c_total (byRecordType (statistics_of rows) budgets)
        + c_total (byRecordType (statistics_of rows) projects)
        + c_total (byRecordType (statistics_of rows) vendors)
        + c_total (byRecordType (statistics_of rows) transactions))%N
  /\ c_total (overall (statistics_of rows))
     = (c_verified (overall (statistics_of rows))
        + c_pending (overall (statistics_of rows))
        + c_suspicious (overall (statistics_of rows))
        + sum_counts (has_status None) rows)%N.
Proof.
  unfold statistics_of.
  destruct (stats_fold rows {| overall := no_counts;
                               byRecordType := fun _ => no_counts |})
    as [I1 [I2 [I3 I4]]].
  cbn [overall byRecordType] in *.
  assert (H1 : forall s,
             count_of s (overall (fold_left stats_step rows
                           {| overall := no_counts;
                              byRecordType := fun _ => no_counts |}))
             = sum_counts (has_status (Some s)) rows).
  { intros s. rewrite I1. destruct s; reflexivity. }
  assert (H3 : forall t s,
             count_of s (byRecordType (fold_left stats_step rows
                           {| overall := no_counts;
                              byRecordType := fun _ => no_counts |}) t)
             = sum_counts (fun row => table_eqb t (record_type row)
                                      && has_status (Some s) row) rows).
  { intros t s. rewrite I3. destruct s; reflexivity. }
  split; [exact H1|]. split; [rewrite I2; reflexivity|].
  split; [exact H3|]. split; [intros t; rewrite I4; reflexivity|].
  split; [|split].
  - intros s. rewrite H1, !H3. apply sum_by_table.
  - rewrite I2, !I4. cbn [c_total no_counts]. rewrite !N.add_0_l.
    rewrite (sum_by_table (fun _ => true) rows).
    rewrite (sum_ext _ (fun row => table_eqb budgets (record_type row)) rows)
      by (intros row; apply andb_true_r).
    rewrite (sum_ext (fun row => table_eqb projects (record_type row) && true)
               (fun row => table_eqb projects (record_type row)) rows)
      by (intros row; apply andb_true_r).
    rewrite (sum_ext (fun row => table_eqb vendors (record_type row) && true)
               (fun row => table_eqb vendors (record_type row)) rows)
      by (intros row; apply andb_true_r).
    rewrite (sum_ext (fun row => table_eqb transactions (record_type row) && true)
               (fun row => table_eqb transactions (record_type row)) rows)
      by (intros row; apply andb_true_r).
    reflexivity.
  - rewrite I2. cbn [c_total no_counts]. rewrite N.add_0_l.
    pose proof (H1 verified) as Hv. pose proof (H1 pending) as Hp.
    pose proof (H1 suspicious) as Hs. cbn [count_of] in Hv, Hp, Hs.
    rewrite Hv, Hp, Hs. apply sum_by_status.
Qed.

End Statistics.

(** ** Signing and checking with the digest handed over as a Buffer *)

Section DigestAsBuffer.
Import JS CryptoUtils Routes.
Context {H : Host}.

Lemma verifySignature_not_valid (this : instance) (record : object)
    (signature : string) (key : option string) :
  digest_handed_as_buffer ->
  exists check,
    verifySignature this record signature key = Ok check
    /\ isValid check = false.
Proof.
  intros [_ Hv]. unfold verifySignature.
  destruct (createCanonicalJson record) as [json|e]; cbn [bind try_catch];
    [|eexists; split; reflexivity].
  destruct (publicKeyFromPem _) as [pk|e]; cbn [bind try_catch];
    [|eexists; split; reflexivity].
  destruct (decode64 signature) as [bytes|e]; cbn [bind try_catch];
    [|eexists; split; reflexivity].
  destruct (rsa_verify pk (sha256 json) bytes) as [[|]|e] eqn:E;
    cbn [bind try_catch]; try (eexists; split; reflexivity).
  exfalso. exact (Hv _ _ _ E).
Qed.

Lemma signRecord_throws (this : instance) (record : object)
    (signerInfo : signerInfoT) :
  digest_handed_as_buffer ->
  signRecord this record signerInfo
  = Throw (mkError "Error" "Failed to create digital signature").
Proof.
  intros [Hs _]. unfold signRecord.
  destruct (createCanonicalJson record) as [json|e]; cbn [bind try_catch];
    [|reflexivity].
  destruct (privateKeyFromPem (privateKey this)) as [sk|e]; cbn [bind try_catch];
    [|reflexivity].
  destruct (Hs sk (sha256 json)) as [e ->]. reflexivity.
Qed.

Lemma checks_not_valid (this : instance) (record : object)
    (sigs : list approval) (svs : list signatureVerification) :
  digest_handed_as_buffer ->
  map_result (verify_one this record) sigs = Ok svs ->
  Forall (fun sv => isValid (sv_check sv) = false) svs.
Proof.
  intros Hf E. apply map_result_each in E.
  induction E as [|sig sv sigs svs E1 E2 IH]; constructor; [|exact IH].
  apply verify_one_check in E1. destruct E1 as [E1 _].
  destruct (verifySignature_not_valid this record (signature sig)
              (Some (public_key sig)) Hf) as [check [Ec Hc]].
  congruence.
Qed.



(** C5: the code hands node-forge the digest as a Buffer (l.147 and l.151,
    l.177 and l.187). With what node-forge does then, signRecord throws its
    error for every record, every signer and every key pair, so no record
    is ever given a signature; verifySignature returns for every record,
    signature and key a result that is not valid; and no complete
    verification ends with the status verified. *)
Theorem signRecord_never_returns_a_signature :
  digest_handed_as_buffer ->
  (forall (this : instance) (record : object) (signerInfo : signerInfoT),
     signRecord this record signerInfo
     = Throw (mkError "Error" "Failed to create digital signature"))
  /\ (forall (this : instance) (record : object) (signature : string)
             (key : option string),
        exists check,
          verifySignature this record signature key = Ok check
          /\ isValid check = false)
  /\ (forall (this : instance) (record : object) (storedHash : option string)
             (signatures : list approval) (v : verification),
        completeVerification this record storedHash signatures = Ok v ->
        verificationStatus v <> verified
        /\ Forall (fun sv => isValid (sv_check sv) = false)
             (signatureVerifications v)).
Proof.
  intros Hf. split; [|split].
  - intros this record signerInfo. apply signRecord_throws. exact Hf.
  - intros this record signature key. apply verifySignature_not_valid. exact Hf.
  - intros this record storedHash signatures v Hv.
    destruct (completeVerification_shape _ _ _ _ _ Hv)
      as [h [svs [_ [Hsvs [_ [_ [Es [Est _]]]]]]]].
    pose proof (checks_not_valid this record signatures svs Hf Hsvs) as Hall.
    split; [|rewrite Es; exact Hall].
    rewrite Est. destruct (strict_equal h storedHash); cbn [andb].
    + destruct svs as [|sv svs]; [discriminate|].
      inversion Hall as [|? ? Hsv _]; subst.
      cbn [length Nat.ltb Nat.leb Nat.eqb forallb andb]. rewrite Hsv.
      cbn [andb]. discriminate.
    + discriminate.
Qed.

(** C10: with no key, or null, verifySignature checks the signature against
    the engine's own public key: the result is that of a call with that
    key. But with the digest handed to node-forge as a Buffer the result is
    not valid, whatever the record and the signature. *)
Theorem verifySignature_defaults_to_engine_key (this : instance)
    (record : object) (signature : string) :
  verifySignature this record signature None
  = verifySignature this record signature (Some (publicKey this))
  /\ (digest_handed_as_buffer ->
      exists check,
        verifySignature this record signature None = Ok check
        /\ isValid check = false).
Proof.
  split.
  - unfold verifySignature. cbn [or_default].
    destruct (String.eqb_spec (publicKey this) ""); [rewrite e|]; reflexivity.
  - apply verifySignature_not_valid.
Qed.


End DigestAsBuffer.

(** ** The certificate of a record with distinct approvers *)

Section Certificate.
Import JS CryptoUtils Routes.
Context {H : Host}.

(** When no two approvals of a record carry one approver name, the report
    marks each approval with the validity of its own signature, and a
    certificate drawn from the report lists each signer with that validity;
    the certificate then counts as many valid signatures as it lists valid
    signers. *)
Theorem distinct_approvers_get_their_own_validity (this : instance)
    (db : database) (recordType recordId : string)
    (report : verificationReport) :
  verify_route this db recordType recordId = Json report ->
  NoDup (map ar_name (vr_approvals report)) ->
  map hasValidSignature (vr_approvals report)
  = map (fun sig => isValid (sv_check sig))
        (signatureVerifications (vr_verification report))
  /\ forall (fetch : string -> answer) (origin : string) (issuer : instance),
       fetch (verify_url origin recordType recordId) = Ok (Json report) ->
       exists cert,
         certificate_route fetch origin issuer recordType recordId = Json cert
         /\ map sl_name (signers cert) = map ar_name (vr_approvals report)
         /\ map valid (signers cert)
            = map (fun sig => isValid (sv_check sig))
                  (signatureVerifications (vr_verification report))
         /\ cert_validSignatures cert
            = length (filter (fun line => valid line) (signers cert))
         /\ totalSignatures cert = length (signers cert).
Proof.
  intros Hr Hnd.
  assert (Hown : map hasValidSignature (vr_approvals report)
                 = map (fun sig => isValid (sv_check sig))
                       (signatureVerifications (vr_verification report))).
  { destruct (verify_route_json _ _ _ _ _ Hr)
      as [record [rest [approvals [history [v [_ [_ [_ [Hv [_ E]]]]]]]]]].
    subst report.
    cbn [vr_approvals vr_verification] in *.
    destruct (completeVerification_shape _ _ _ _ _ Hv)
      as [h [svs [_ [Hsvs [_ [_ [Es _]]]]]]].
    rewrite map_map in Hnd. cbn [report_approval ar_name] in Hnd.
    rewrite map_map. cbn [report_approval hasValidSignature]. rewrite Es.
    apply (valid_by_name_own approvals svs []).
    - exact (signer_names this record approvals svs Hsvs).
    - exact Hnd.
    - intros a sv _ []. }
  split; [exact Hown|].
  intros fetch origin issuer Hfetch.
  unfold certificate_route. rewrite Hfetch. eexists.
  split; [reflexivity|].
  cbn [signers cert_validSignatures totalSignatures].
  rewrite !map_map. cbn [sl_name valid].
  split; [reflexivity|]. split; [exact Hown|].
  destruct (verify_route_json _ _ _ _ _ Hr)
    as [record [rest [approvals [history [v [_ [_ [_ [Hv [_ E]]]]]]]]]].
  subst report.
  cbn [verificationSummary vr_approvals vr_verification validSignatures
       signatureCount] in *.
  rewrite !length_map. split; [|reflexivity].
  rewrite map_map in Hown. cbn [report_approval hasValidSignature] in Hown.
  transitivity (length (filter (fun b : bool => b)
                          (map (fun sig => isValid (sv_check sig))
                               (signatureVerifications v)))).
  - rewrite filter_map_length. reflexivity.
  - rewrite <- Hown, map_map, !filter_map_length. reflexivity.
Qed.

End Certificate.

(** ** Batch verification *)

Section BatchVerification.
Import JS CryptoUtils Routes.
Context {H : Host}.
Variable server : Type.
Variable fetch : server -> string -> answer * server.
Variable origin : string.

Lemma serve_cons (item : batchItem) (items : list batchItem) (s : server) :
  serve server fetch origin (item :: items) s
  = (fst (fetch s (item_url origin item))
       :: fst (serve server fetch origin items
                 (snd (fetch s (item_url origin item)))),
     snd (serve server fetch origin items (snd (fetch s (item_url origin item))))).
Proof.
  cbn [serve]. destruct (fetch s (item_url origin item)) as [a s'].
  cbn [fst snd]. destruct (serve server fetch origin items s') as [rest s''].
  reflexivity.
Qed.

Lemma serve_length (items : list batchItem) (s : server) :
  length (fst (serve server fetch origin items s)) = length items.
Proof.
  revert s. induction items as [|item items IH]; intros s; [reflexivity|].
  rewrite serve_cons. cbn [fst length]. rewrite IH. reflexivity.
Qed.

(** The answer to the request of an item is the one the servers give in
    the state the requests of the items before it left. *)
Lemma serve_nth (items : list batchItem) (s : server) (i : nat)
    (item : batchItem) :
  nth_error items i = Some item ->
  nth_error (fst (serve server fetch origin items s)) i
  = Some (fst (fetch (snd (serve server fetch origin (firstn i items) s))
                     (item_url origin item))).
Proof.
  revert s i. induction items as [|x items IH]; intros s [|i]; cbn [nth_error];
    try discriminate.
  - intros E. injection E as ->. rewrite serve_cons. reflexivity.
  - intros E. rewrite serve_cons. cbn [fst nth_error firstn].
    rewrite (IH _ i E). rewrite serve_cons. reflexivity.
Qed.

Lemma serve_answers (items : list batchItem) (s : server) (a : answer) :
  In a (fst (serve server fetch origin items s)) ->
  exists s' url, a = fst (fetch s' url).
Proof.
  revert s. induction items as [|x items IH]; intros s; [intros []|].
  rewrite serve_cons. cbn [fst]. intros [<-|Hin].
  - eexists. eexists. reflexivity.
  - exact (IH _ Hin).
Qed.

(** The loop over items that are objects. *)
Lemma batch_loop_items (items : list batchItem) (s : server)
    (rs : list batchResult) (sent : list string) :
  batch_loop server fetch origin (map Some items) s rs sent
  = (Ok (rs ++ entries items (fst (serve server fetch origin items s)))%list,
     snd (serve server fetch origin items s),
     (sent ++ map (item_url origin) items)%list).
Proof.
  revert s rs sent. induction items as [|item items IH]; intros s rs sent.
  - cbn. rewrite !app_nil_r. reflexivity.
  - cbn [map batch_loop]. rewrite serve_cons.
    destruct (fetch s (item_url origin item)) as [a s']. cbn [fst snd].
    rewrite IH. unfold entries. cbn [combine map fst snd].
    rewrite <- !app_assoc. reflexivity.
Qed.

(** The loop stops at an element that is null or undefined. *)
Lemma batch_loop_null (before : list batchItem) (after : list (option batchItem))
    (s : server) (rs : list batchResult) (sent : list string) :
  batch_loop server fetch origin (map Some before ++ None :: after)%list s rs sent
  = (Throw not_an_object,
     snd (serve server fetch origin before s),
     (sent ++ map (item_url origin) before)%list).
Proof.
  revert s rs sent. induction before as [|item before IH]; intros s rs sent.
  - cbn. rewrite app_nil_r. reflexivity.
  - cbn [map app batch_loop]. rewrite serve_cons.
    destruct (fetch s (item_url origin item)) as [a s']. cbn [fst snd].
    rewrite IH. rewrite <- app_assoc. reflexivity.
Qed.

Lemma batch_route_accepts (items : list batchItem) (s : server) :
  1 <= length items <= 50 ->
  batch_route server fetch origin (Some (map Some items)) s
  = (Json {| results := entries items (fst (serve server fetch origin items s));
             summary :=
               {| totalRecords := length items;
                  bs_verified :=
                    length (filter br_verified
                              (entries items (fst (serve server fetch origin items s))));
                  bs_pending :=
                    count (item_status pending)
                      (entries items (fst (serve server fetch origin items s)));
                  bs_suspicious :=
                    count (item_status suspicious)
                      (entries items (fst (serve server fetch origin items s)));
                  bs_errors :=
                    count item_error
                      (entries items (fst (serve server fetch origin items s))) |} |},
     snd (serve server fetch origin items s),
     map (item_url origin) items).
Proof.
  intros [Hlo Hhi]. unfold batch_route. rewrite length_map.
  destruct (Nat.eqb_spec (length items) 0) as [E|_]; [lia|].
  destruct (Nat.ltb_spec 50 (length items)) as [E|_]; [lia|].
  rewrite batch_loop_items. reflexivity.
Qed.

Lemma entries_length (items : list batchItem) (answers : list answer) :
  length answers = length items -> length (entries items answers) = length items.
Proof.
  intros E. unfold entries. rewrite length_map, length_combine, E.
  apply Nat.min_id.
Qed.

Lemma entries_nth (items : list batchItem) (answers : list answer) (i : nat)
    (item : batchItem) (a : answer) :
  nth_error items i = Some item -> nth_error answers i = Some a ->
  nth_error (entries items answers) i = Some (entry item a).
Proof.
  revert answers i. induction items as [|x items IH]; intros [|y answers] [|i];
    cbn; try discriminate.
  - intros E E'. injection E as ->. injection E' as ->. reflexivity.
  - intros E E'. exact (IH answers i E E').
Qed.

(** C7, as the code has it. A batch of N items, N from 1 to 50, each an
    object, is answered with exactly N results, the i-th for the i-th item,
    after one request per item, in order. The result of an item is the
    entry for the answer its own request got from the servers in the state
    the requests before it left; an answer that is no report, such as the
    one of the verification route for a record the store does not hold,
    gives the status error in the result of that item, and the items after
    it are asked all the same. When the answers of the servers do not depend
    on their state, the result of an item is the one a batch of that item
    alone gets. A batch with an element that is null is answered 500 with
    no result; a batch of more than 50 elements, like an empty one, is
    refused before any request is sent. *)
Theorem batch_results_are_per_item (items : list batchItem) (s : server) :
  (1 <= length items <= 50 ->
   exists report,
     batch_route server fetch origin (Some (map Some items)) s
     = (Json report, snd (serve server fetch origin items s),
        map (item_url origin) items)
     /\ length (results report) = length items
     /\ (forall (i : nat) (item : batchItem),
           nth_error items i = Some item ->
           nth_error (results report) i
           = Some (entry item
                     (fst (fetch (snd (serve server fetch origin (firstn i items) s))
                                 (item_url origin item)))))
     /\ ((forall s1 s2 url, fst (fetch s1 url) = fst (fetch s2 url)) ->
         forall (i : nat) (item : batchItem),
           nth_error items i = Some item ->
           exists alone,
             fst (fst (batch_route server fetch origin (Some [Some item]) s))
             = Json alone
             /\ nth_error (results report) i = nth_error (results alone) 0))
  /\ (forall (item : batchItem) (a : answer),
        br_recordId (entry item a) = recordId item
        /\ br_recordType (entry item a) = recordType item
        /\ ((forall report, a <> Ok (Json report)) ->
            br_status (entry item a) = item_error
            /\ br_verified (entry item a) = false))
  /\ (forall (item : batchItem) (this : instance) (db : database)
             (served_type served_id : string),
        includes validTypes served_type = true ->
        select_record db (table_name served_type) served_id = Ok [] ->
        entry item (Ok (verify_route this db served_type served_id))
        = {| br_recordId := recordId item;
             br_recordType := recordType item;
             br_status := item_error;
             br_verified := false;
             br_error := Some "Record not found" |})
  /\ (forall (before : list batchItem) (after : list (option batchItem)),
        length before + length after < 50 ->
        batch_route server fetch origin
          (Some (map Some before ++ None :: after)%list) s
        = (Failure 500 "Batch verification failed",
           snd (serve server fetch origin before s),
           map (item_url origin) before))
  /\ (forall records : list (option batchItem),
        50 < length records ->
        batch_route server fetch origin (Some records) s
        = (Failure 400 "Maximum 50 records allowed per batch", s, []))
  /\ batch_route server fetch origin (Some []) s
     = (Failure 400 "Records array is required", s, []).
Proof.
  split; [|split; [|split; [|split; [|split]]]].
  - intros Hlen. eexists. split; [apply (batch_route_accepts items s Hlen)|].
    cbn [results].
    split; [apply entries_length, serve_length|]. split.
    + intros i item Hi. apply entries_nth; [exact Hi|].
      apply serve_nth. exact Hi.
    + intros Hsame i item Hi. eexists. split.
      * change [Some item] with (map Some [item]).
        rewrite (batch_route_accepts [item] s); [reflexivity | cbn; lia].
      * cbn [results]. rewrite (entries_nth items _ i item _ Hi (serve_nth items s i item Hi)).
        rewrite serve_cons. unfold entries. cbn [fst combine map nth_error snd].
        rewrite (Hsame _ s). reflexivity.
  - intros item a. destruct a as [[report|code error]|e]; cbn;
      (split; [reflexivity|]); (split; [reflexivity|]); intros Hn;
      try (split; reflexivity).
    exfalso. exact (Hn report eq_refl).
  - intros item this db served_type served_id Ht Hr.
    unfold verify_route. rewrite Ht. cbn [negb]. rewrite Hr. reflexivity.
  - intros before after Hlen. unfold batch_route.
    rewrite length_app, length_map. cbn [length].
    destruct (Nat.eqb_spec (length before + S (length after)) 0) as [E|_]; [lia|].
    destruct (Nat.ltb_spec 50 (length before + S (length after))) as [E|_]; [lia|].
    rewrite batch_loop_null. reflexivity.
  - intros records Hlen. unfold batch_route.
    destruct (Nat.eqb_spec (length records) 0) as [E|_]; [lia|].
    destruct (Nat.ltb_spec 50 (length records)) as [_|E]; [reflexivity|lia].
  - reflexivity.
Qed.

(** What an entry says of a report of the verification route: it is
    reported verified exactly when its status is verified or pending. *)
Lemma entry_of_route (item : batchItem) (a : answer) :
  (forall report, a = Ok (Json report) ->
     exists this db served_type served_id,
       verify_route this db served_type served_id = Json report) ->
  br_verified (entry item a)
  = is_status (br_status (entry item a)) (item_status verified)
    || is_status (br_status (entry item a)) (item_status pending).
Proof.
  intros Hroute. destruct a as [[report|code error]|e]; try reflexivity.
  destruct (Hroute report eq_refl) as [this [db [t [id Hr]]]].
  cbn [entry br_verified br_status].
  destruct (verify_route_json _ _ _ _ _ Hr)
    as [record [rest [approvals [history [v [_ [_ [_ [Hv [_ E]]]]]]]]]].
  subst report. cbn [vr_verification verificationSummary overallStatus].
  rewrite (overallValid_status _ _ _ _ _ Hv).
  destruct (verificationStatus v); reflexivity.
Qed.

Lemma verified_entries (items : list batchItem) (answers : list answer) :
  (forall a, In a answers ->
     forall report, a = Ok (Json report) ->
       exists this db served_type served_id,
         verify_route this db served_type served_id = Json report) ->
  length (filter br_verified (entries items answers))
  = count (item_status verified) (entries items answers)
    + count (item_status pending) (entries items answers).
Proof.
  unfold count, entries. revert answers.
  induction items as [|item l IH]; intros [|a answers] Hans; try reflexivity.
  cbn [combine map filter fst snd].
  rewrite (entry_of_route item a (Hans a (or_introl eq_refl))).
  assert (IH' := IH answers (fun a' Hin => Hans a' (or_intror Hin))).
  destruct (br_status (entry item a)) as [[| |]|];
    cbn [is_status orb length]; lia.
Qed.

(** The summary of a batch of 1 to 50 items, each an object, when every
    report the servers answer with is a report of the verification route.
    Its count of verified records is the count of results that are valid
    overall, which are those of status verified and those of status
    pending: a pending record is counted under verified and under pending,
    and verified, suspicious and errors add up to the number of records. *)
Theorem batch_summary_counts_pending_twice (items : list batchItem) (s : server) :
  (forall s' url report,
     fst (fetch s' url) = Ok (Json report) ->
     exists this db served_type served_id,
       verify_route this db served_type served_id = Json report) ->
  1 <= length items <= 50 ->
  exists report,
    batch_route server fetch origin (Some (map Some items)) s
    = (Json report, snd (serve server fetch origin items s),
       map (item_url origin) items)
    /\ totalRecords (summary report) = length items
    /\ bs_verified (summary report)
       = count (item_status verified) (results report)
         + bs_pending (summary report)
    /\ bs_verified (summary report) + bs_suspicious (summary report)
       + bs_errors (summary report)
       = totalRecords (summary report).
Proof.
  intros Hroute Hlen. eexists.
  split; [apply (batch_route_accepts items s Hlen)|].
  cbn [summary results totalRecords bs_verified bs_pending bs_suspicious
       bs_errors].
  split; [reflexivity|].
  assert (Hv := verified_entries items (fst (serve server fetch origin items s))).
  rewrite Hv.
  - split; [reflexivity|].
    pose proof (count_partition
                  (entries items (fst (serve server fetch origin items s)))) as Hp.
    rewrite (entries_length items _ (serve_length items s)) in Hp.
    fold (count (item_status verified)
            (entries items (fst (serve server fetch origin items s)))).
    lia.
  - intros a Hin report ->. destruct (serve_answers items s _ Hin) as [s' [url E]].
    exact (Hroute s' url report (eq_sym E)).
Qed.

End BatchVerification.

(** ** What a change of one field does to the hash *)

Section HashOfAField.
Import JS CryptoUtils.
Context {H : Host}.

Lemma filter_keys_distinct (P : string * value -> bool) (r : object) :
  NoDup (Object_keys r) -> NoDup (Object_keys (filter P r)).
Proof.
  induction r as [|[k1 v1] r IH]; cbn; [constructor|].
  intros Hnd. inversion Hnd as [|? ? Hn Hnd']; subst.
  destruct (P (k1, v1)); cbn; [|exact (IH Hnd')].
  constructor; [|exact (IH Hnd')].
  intros Hin. apply Hn. unfold Object_keys in *. apply in_map_iff in Hin.
  destruct Hin as [kv [E Hin]]. apply filter_In in Hin.
  apply in_map_iff. exists kv. tauto.
Qed.

Lemma other_names_without (r : object) (k : string) :
  ~ In k (Object_keys (filter (fun kv => negb (fst kv =? k)) r)).
Proof.
  unfold Object_keys. intros Hin. apply in_map_iff in Hin.
  destruct Hin as [[k1 v1] [E Hin]]. apply filter_In in Hin.
  destruct Hin as [_ Hne]. cbn in E, Hne. subst k1.
  rewrite String.eqb_refl in Hne. discriminate.
Qed.

Lemma get_other_names (r : object) (k k2 : string) :
  k2 <> k -> get (filter (fun kv => negb (fst kv =? k)) r) k2 = get r k2.
Proof.
  intros Hne. induction r as [|[k1 v1] r IH]; [reflexivity|].
  cbn [filter fst]. destruct (String.eqb_spec k1 k) as [->|Hk1]; cbn [negb get].
  - destruct (String.eqb_spec k k2); [congruence | exact IH].
  - rewrite IH. reflexivity.
Qed.

(** The record, with the field [k] holding [v], listed first. *)
Lemma json_field_first (r : object) (k : string) (v : value) :
  NoDup (Object_keys r) -> In k (Object_keys r) ->
  createCanonicalJson (replace_field r k v)
  = createCanonicalJson ((k, v) :: filter (fun kv => negb (fst kv =? k)) r).
Proof.
  intros Hnd Hin. apply canonical_json_of_present_fields.
  - rewrite keys_replace_field. exact Hnd.
  - cbn. constructor; [apply other_names_without|].
    apply filter_keys_distinct. exact Hnd.
  - intros k2 _. right. cbn [get].
    destruct (String.eqb_spec k k2) as [<-|Hne].
    + apply get_replace_field_same. exact Hin.
    + rewrite get_replace_field_other by congruence.
      symmetry. apply get_other_names. congruence.
Qed.

Lemma json_own_field_first (r : object) (k : string) :
  NoDup (Object_keys r) ->
  createCanonicalJson r
  = createCanonicalJson
      ((k, get r k) :: filter (fun kv => negb (fst kv =? k)) r).
Proof.
  intros Hnd. apply canonical_json_of_present_fields.
  - exact Hnd.
  - cbn. constructor; [apply other_names_without|].
    apply filter_keys_distinct. exact Hnd.
  - intros k2 _. right. cbn [get].
    destruct (String.eqb_spec k k2) as [<-|Hne]; [reflexivity|].
    symmetry. apply get_other_names. congruence.
Qed.

Lemma replace_field_absent (r : object) (k : string) (v : value) :
  ~ In k (Object_keys r) -> replace_field r k v = r.
Proof.
  unfold replace_field. induction r as [|[k1 v1] r IH]; [reflexivity|].
  cbn. intros Hn. destruct (String.eqb_spec k1 k) as [->|Hne].
  - exfalso. apply Hn. left. reflexivity.
  - rewrite IH by tauto. reflexivity.
Qed.

Lemma serialize_nothing (v : value) :
  serialize v = Ok None -> v = VUndefined \/ v = VFunction.
Proof.
  destruct v as [| |b|n|s|n| |d|data|l|o]; cbn [serialize]; try discriminate;
    try tauto.
  - destruct b; discriminate.
  - destruct d; discriminate.
  - destruct (array_text serialize l); discriminate.
  - destruct (object_text serialize o); discriminate.
Qed.

(** The three things the canonical JSON can make of the value of a field. *)
Lemma field_text_cases (v : value) :
  (field_text v = Ok None /\ (present v = false \/ v = VFunction))
  \/ (exists t, field_text v = Ok (Some t)
                /\ present v = true /\ serialize v = Ok (Some t))
  \/ (exists e, field_text v = Throw e
                /\ present v = true /\ serialize v = Throw e).
Proof.
  unfold field_text. destruct (present v) eqn:Hp.
  - destruct (serialize v) as [[t|]|e] eqn:Hs.
    + right. left. exists t. auto.
    + left. split; [reflexivity|].
      destruct (serialize_nothing v Hs) as [->| ->]; [discriminate | tauto].
    + right. right. exists e. auto.
  - left. split; [reflexivity | left; reflexivity].
Qed.

(** A field of which nothing is written. *)
Lemma unwritten_field (r : object) (k : string) (v : value) :
  NoDup (Object_keys r) -> ~ In k (Object_keys r) ->
  present v = false \/ v = VFunction ->
  createCanonicalJson ((k, v) :: r) = createCanonicalJson r.
Proof.
  intros Hnd Hn [Hp| ->]; [|apply callable_field_omitted; assumption].
  apply canonical_json_of_present_fields.
  - cbn. constructor; assumption.
  - exact Hnd.
  - intros k2 _. cbn [get]. destruct (String.eqb_spec k k2) as [<-|Hne].
    + left. split; [exact Hp|]. rewrite (get_not_in r k Hn). reflexivity.
    + right. reflexivity.
Qed.

(** A field that is written makes the canonical JSON longer. *)
Lemma written_field_longer (r : object) (k : string) (v : value) (t c : string) :
  NoDup (Object_keys r) -> ~ In k (Object_keys r) ->
  includes excludeFields k = false ->
  present v = true -> serialize v = Ok (Some t) ->
  createCanonicalJson r = Ok c ->
  exists c',
    createCanonicalJson ((k, v) :: r) = Ok c'
    /\ String.length c < String.length c'.
Proof.
  intros Hnd Hn He Hp Ht Hc.
  destruct (clean_with_field r k v Hnd Hn He Hp) as [a [b [E' E]]].
  rewrite createCanonicalJson_clean in Hc. rewrite E in Hc.
  unfold JSON_stringify, object_text in Hc. rewrite members_text_app in Hc.
  destruct (members_text serialize a) as [ma|e] eqn:Ea; [|discriminate].
  destruct (members_text serialize b) as [mb|e] eqn:Eb; [|discriminate].
  cbn [bind] in Hc. injection Hc as <-.
  exists ("{" ++ before_entry ma ++ member_text k t ++ after_entry mb ++ "}").
  split.
  - rewrite createCanonicalJson_clean, E'.
    exact (object_text_build k a b v t ma mb Ht Ea Eb).
  - change (String.length ("{" ++ String.concat sep (ma ++ mb)%list ++ "}")
            < String.length ("{" ++ before_entry ma ++ member_text k t
                                 ++ after_entry mb ++ "}")).
    rewrite <- (append_assoc (before_entry ma)).
    rewrite <- (append_assoc (before_entry ma ++ member_text k t)).
    rewrite (append_assoc (before_entry ma) (member_text k t) (after_entry mb)).
    rewrite <- concat_entry. rewrite !length_append.
    cbn [String.length]. apply Nat.add_lt_mono_l, Nat.add_lt_mono_r.
    apply concat_longer. unfold member_text, quote. cbn. discriminate.
Qed.

(** A field whose value cannot be serialized stops the canonicalization. *)
Lemma unserializable_field (r : object) (k : string) (v : value) (e : jserror) :
  NoDup (Object_keys r) -> ~ In k (Object_keys r) ->
  includes excludeFields k = false ->
  present v = true -> serialize v = Throw e ->
  exists e', createCanonicalJson ((k, v) :: r) = Throw e'.
Proof.
  intros Hnd Hn He Hp Ht.
  destruct (clean_with_field r k v Hnd Hn He Hp) as [a [b [E' _]]].
  rewrite createCanonicalJson_clean, E'.
  unfold JSON_stringify, object_text. rewrite members_text_app.
  destruct (members_text serialize a) as [ma|e1]; cbn [bind];
    [|eexists; reflexivity].
  cbn [members_text]. rewrite Ht. cbn [bind]. eexists. reflexivity.
Qed.

(** A field that is written before and after: the canonical JSON before
    and after, around the member of the field. *)
Lemma rewritten_field (r : object) (k : string) (v' : value) (t t' c : string) :
  NoDup (Object_keys r) ->
  includes excludeFields k = false ->
  present (get r k) = true -> present v' = true ->
  serialize (get r k) = Ok (Some t) -> serialize v' = Ok (Some t') ->
  createCanonicalJson r = Ok c ->
  exists p q,
    c = p ++ member_text k t ++ q
    /\ createCanonicalJson (replace_field r k v')
       = Ok (p ++ member_text k t' ++ q).
Proof.
  intros Hnd Hx Hp Hp' Ht Ht' Hc.
  pose proof (get_present_in r k Hp) as Hin.
  assert (Hk : hashed_keys (replace_field r k v') = hashed_keys r)
    by (unfold hashed_keys; rewrite keys_replace_field; reflexivity).
  assert (HinL : In k (hashed_keys r)) by (apply hashed_keys_in; auto).
  assert (Hrel : Forall2 (related k (get r k) v')
                   (clean r (hashed_keys r))
                   (clean (replace_field r k v') (hashed_keys r))).
  { unfold clean. apply fold_related; [|constructor].
    intros k2 _. destruct (String.eqb_spec k2 k) as [->|Hk2].
    - rewrite (get_replace_field_same r k v' Hin). split; [congruence|].
      split; [reflexivity|]. left. cbn. auto.
    - rewrite (get_replace_field_other r k k2 v' Hk2). split; [reflexivity|].
      split; [reflexivity|]. right. cbn. auto. }
  destruct (related_split k (get r k) v' _ _ Hrel (clean_nodup r Hnd))
    as [a [b [Ea Eb]]].
  { unfold clean. apply fold_has_key; assumption. }
  rewrite createCanonicalJson_clean in Hc. unfold JSON_stringify in Hc.
  rewrite Ea in Hc.
  destruct (object_text_split k a b (get r k) t c Ht Hc) as [ma [mb [Ha [Hb ->]]]].
  exists ("{" ++ before_entry ma), (after_entry mb ++ "}"). split.
  - reflexivity.
  - rewrite createCanonicalJson_clean, Hk. unfold JSON_stringify. rewrite Eb.
    rewrite (object_text_build k a b v' t' ma mb Ht' Ha Hb). reflexivity.
Qed.

Lemma member_text_injective (k t t' p q : string) :
  p ++ member_text k t' ++ q = p ++ member_text k t ++ q -> t' = t.
Proof.
  intros E. apply append_inv_middle in E. unfold member_text in E.
  apply append_inv_head in E. apply append_inv_head in E. exact E.
Qed.

(** A record with the field [k] listed first: the canonical JSON stays as
    it is exactly when the same is written of the field. *)
Lemma first_field_change (r : object) (k : string) (v v' : value) (c : string) :
  NoDup (Object_keys r) -> ~ In k (Object_keys r) ->
  includes excludeFields k = false ->
  createCanonicalJson ((k, v) :: r) = Ok c ->
  createCanonicalJson ((k, v') :: r) = Ok c <-> field_text v' = field_text v.
Proof.
  intros Hnd Hn He Hc.
  assert (Hnd1 : NoDup (Object_keys ((k, v) :: r)))
    by (cbn; constructor; assumption).
  destruct (field_text_cases v) as [[Ev Hv]|[[t [Ev [Hp Ht]]]|[e [Ev [Hp Ht]]]]];
    rewrite Ev.
  - rewrite (unwritten_field r k v Hnd Hn Hv) in Hc.
    destruct (field_text_cases v')
      as [[Ev' Hv']|[[t' [Ev' [Hp' Ht']]]|[e' [Ev' [Hp' Ht']]]]]; rewrite Ev'.
    + rewrite (unwritten_field r k v' Hnd Hn Hv'). tauto.
    + destruct (written_field_longer r k v' t' c Hnd Hn He Hp' Ht' Hc)
        as [c' [-> Hlen]].
      split; [|discriminate]. intros E. injection E as ->.
      exfalso. exact (Nat.lt_irrefl _ Hlen).
    + destruct (unserializable_field r k v' e' Hnd Hn He Hp' Ht') as [e1 ->].
      split; discriminate.
  - destruct (field_text_cases v')
      as [[Ev' Hv']|[[t' [Ev' [Hp' Ht']]]|[e' [Ev' [Hp' Ht']]]]]; rewrite Ev'.
    + rewrite (unwritten_field r k v' Hnd Hn Hv').
      split; [|discriminate]. intros Hc0.
      destruct (written_field_longer r k v t c Hnd Hn He Hp Ht Hc0)
        as [c' [Hc' Hlen]].
      rewrite Hc in Hc'. injection Hc' as <-.
      exfalso. exact (Nat.lt_irrefl _ Hlen).
    + destruct (rewritten_field ((k, v) :: r) k v' t t' c Hnd1 He)
        as [p [q [Ec Hc']]]; try assumption;
        try (cbn [get]; rewrite String.eqb_refl; assumption).
      assert (Er : replace_field ((k, v) :: r) k v' = (k, v') :: r).
      { unfold replace_field. cbn [map fst]. rewrite String.eqb_refl.
        f_equal. apply (replace_field_absent r k v' Hn). }
      rewrite Er in Hc'. rewrite Hc', Ec. split.
      * intros E. injection E as E.
        rewrite (member_text_injective k t t' p q E). reflexivity.
      * intros E. injection E as ->. reflexivity.
    + destruct (unserializable_field r k v' e' Hnd Hn He Hp' Ht') as [e1 ->].
      split; discriminate.
  - destruct (unserializable_field r k v e Hnd Hn He Hp Ht) as [e1 E1].
    rewrite E1 in Hc. discriminate.
Qed.

(** C4, as the code has it. Field maps that differ only in fields of the
    exclusion set have the same canonical JSON and the same hash. A field
    that is null or undefined is dropped whichever of the two it is, so a
    change between them leaves the hash as it was. In a field map of plain
    data, replacing the value of a field outside the exclusion set leaves
    the canonical JSON as it was exactly when the same is written of the
    field before and after: nothing for null, undefined and a callable,
    and the JSON text of the value otherwise. Every other change, also
    from null to a value and from a value to null, gives another canonical
    JSON, and another hash unless SHA-256 gives the two texts one digest. *)
Theorem hash_reads_the_hashed_fields :
  (forall r r' : object,
      filter kept r = filter kept r' ->
      createCanonicalJson r = createCanonicalJson r'
      /\ generateHash r = generateHash r')
  /\ (forall (r : object) (k : string) (v v' : value),
        present v = false -> present v' = false ->
        createCanonicalJson (replace_field r k v)
        = createCanonicalJson (replace_field r k v')
        /\ generateHash (replace_field r k v)
           = generateHash (replace_field r k v'))
  /\ (forall (r : object) (k : string) (v' : value) (c : string),
        plain_object r = true -> plain v' = true ->
        NoDup (Object_keys r) -> In k (Object_keys r) ->
        includes excludeFields k = false ->
        createCanonicalJson r = Ok c ->
        (createCanonicalJson (replace_field r k v') = Ok c
         <-> field_text v' = field_text (get r k))
        /\ (field_text v' <> field_text (get r k) ->
            (forall e, createCanonicalJson (replace_field r k v') = Throw e ->
                       generateHash (replace_field r k v') = Throw e)
            /\ (forall c',
                  createCanonicalJson (replace_field r k v') = Ok c' ->
                  c' <> c
                  /\ (sha256 c' <> sha256 c ->
                      generateHash (replace_field r k v') <> generateHash r)))).
Proof.
  split; [|split].
  - intros r r' E. pose proof (excluded_fields_ignored r r' E) as Ec.
    split; [exact Ec|]. unfold generateHash. rewrite Ec. reflexivity.
  - intros r k v v' Hv Hv'.
    pose proof (absent_values_alike r k v v' Hv Hv') as Ec.
    split; [exact Ec|]. unfold generateHash. rewrite Ec. reflexivity.
  - intros r k v' c _ _ Hnd Hin Hx Hc.
    assert (Hiff : createCanonicalJson (replace_field r k v') = Ok c
                   <-> field_text v' = field_text (get r k)).
    { rewrite (json_field_first r k v' Hnd Hin).
      apply first_field_change.
      - apply filter_keys_distinct. exact Hnd.
      - apply other_names_without.
      - exact Hx.
      - rewrite <- (json_own_field_first r k Hnd). exact Hc. }
    split; [exact Hiff|]. intros Hne. split.
    + intros e He. unfold generateHash. rewrite He. reflexivity.
    + intros c' Hc'. split.
      * intros ->. apply Hne, Hiff. exact Hc'.
      * intros Hsha.
        rewrite (generateHash_of_json _ _ Hc'), (generateHash_of_json _ _ Hc).
        intros E. injection E as E. apply hex_injective in E. contradiction.
Qed.

Lemma members_of_indexed (i : N) (elements : list number) :
  members_text serialize (indexed i elements) = Ok (index_members i elements).
Proof.
  revert i. induction elements as [|x l IH]; intros i; [reflexivity|].
  cbn [indexed members_text serialize bind index_members]. rewrite IH.
  reflexivity.
Qed.

Lemma serialize_typed_array (elements : list number) :
  serialize (typed_array elements) = Ok (Some (typed_array_json elements)).
Proof.
  unfold typed_array, typed_array_json. cbn [serialize]. unfold object_text.
  rewrite members_of_indexed. reflexivity.
Qed.

(** A field that is written stands in the canonical JSON as a member: its
    quoted name, a colon and the JSON text of its value. *)
Lemma written_field_member (r : object) (k : string) (t c : string) :
  includes excludeFields k = false ->
  present (get r k) = true -> serialize (get r k) = Ok (Some t) ->
  createCanonicalJson r = Ok c ->
  exists p q, c = p ++ member_text k t ++ q.
Proof.
  intros He Hp Ht Hc. rewrite createCanonicalJson_clean in Hc.
  assert (HinL : In k (hashed_keys r)).
  { apply hashed_keys_in. split; [apply get_present_in; exact Hp | exact He]. }
  assert (Hin : In k (Object_keys (clean r (hashed_keys r)))).
  { unfold clean. apply fold_has_key; assumption. }
  destruct (get_split _ k Hin) as [a [b [E _]]].
  assert (Hv : get (clean r (hashed_keys r)) k = get r k).
  { unfold clean. rewrite fold_get, Hp.
    apply includes_In in HinL. rewrite HinL. reflexivity. }
  rewrite Hv in E. rewrite E in Hc. unfold JSON_stringify in Hc.
  destruct (object_text_split k a b (get r k) t c Ht Hc) as [ma [mb [_ [_ ->]]]].
  exists ("{" ++ before_entry ma), (after_entry mb ++ "}"). reflexivity.
Qed.

(** C9, as the code has it. There is no canonicalization error: on plain
    data createCanonicalJson throws only the TypeError of JSON.stringify
    for a BigInt, and returns whenever no BigInt occurs. A callable in a
    field is left out: the canonical JSON is that of the field map without
    the field. A binary blob in a field outside the exclusion set, of any
    field map, is written as JSON.stringify writes it: a Node Buffer as the
    object with its type and its data, a typed array as the object of its
    indices. *)
Theorem canonicalization_of_unsupported_kinds :
  (forall (r : object) (e : jserror),
      plain_object r = true ->
      createCanonicalJson r = Throw e -> e = bigint_error)
  /\ (forall r : object,
        plain_object r = true -> has_bigint (VObject r) = false ->
        exists c, createCanonicalJson r = Ok c)
  /\ (forall (r : object) (k : string),
        plain_object r = true -> ordinary_name k = true ->
        NoDup (Object_keys r) -> ~ In k (Object_keys r) ->
        createCanonicalJson ((k, VFunction) :: r) = createCanonicalJson r)
  /\ (forall (r : object) (k : string) (data : list byte),
        plain_object r = true -> has_bigint (VObject r) = false ->
        includes excludeFields k = false ->
        get r k = VBuffer data ->
        exists c p q,
          createCanonicalJson r = Ok c
          /\ c = p ++ member_text k (buffer_json data) ++ q)
  /\ (forall (r : object) (k : string) (elements : list number),
        plain_object r = true -> has_bigint (VObject r) = false ->
        includes excludeFields k = false ->
        get r k = typed_array elements ->
        exists c p q,
          createCanonicalJson r = Ok c
          /\ c = p ++ member_text k (typed_array_json elements) ++ q).
Proof.
  split; [|split; [|split; [|split]]].
  - intros r e _ He. exact (createCanonicalJson_throws r e He).
  - intros r _ Hb. exact (createCanonicalJson_returns r Hb).
  - intros r k _ _ Hnd Hn. exact (callable_field_omitted r k Hnd Hn).
  - intros r k data _ Hb He Hg.
    destruct (createCanonicalJson_returns r Hb) as [c Hc].
    destruct (written_field_member r k (buffer_json data) c He) as [p [q E]];
      try (rewrite Hg; reflexivity); [exact Hc|].
    exists c, p, q. split; assumption.
  - intros r k elements _ Hb He Hg.
    destruct (createCanonicalJson_returns r Hb) as [c Hc].
    destruct (written_field_member r k (typed_array_json elements) c He)
      as [p [q E]]; try (rewrite Hg; reflexivity);
      [rewrite Hg; apply serialize_typed_array | exact Hc|].
    exists c, p, q. split; assumption.
Qed.

End HashOfAField.

(** ** The code on concrete input *)

Section Runs.
Import JS CryptoUtils Routes Demo.
#[local] Existing Instance Demo.host.

(** C1 at a budget whose stored hash was altered and whose approval carries
    a signature that verifies. *)
Lemma tamper_signal_dominates_run :
  exists v,
    completeVerification engine budget (Some "a1b2c3") [approval_1] = Ok v
    /\ verificationStatus v = suspicious.
Proof.
  apply (tamper_signal_dominates engine budget (Some "a1b2c3") [approval_1]
           budget_hash).
  - vm_compute. reflexivity.
  - vm_compute. discriminate.
Defined.

(** C2 at the budget with its stored hash and no approval. *)
Lemma pending_run :
  exists v,
    completeVerification engine budget (Some budget_hash) [] = Ok v
    /\ verificationStatus v = pending.
Proof.
  destruct (pending_iff_hash_matches_and_unsigned engine budget
              (Some budget_hash) [] budget_hash)
    as [v [Hv [Hiff _]]].
  - vm_compute. reflexivity.
  - exists v. split; [exact Hv|]. apply Hiff. split; reflexivity.
Defined.

(** C3 at three fields of the budget listed in two orders. *)
Lemma order_independent_run :
  createCanonicalJson
    [("id", VString budget_id); ("department", VString "Education");
     ("year", VNumber 2024%Z)]
  = createCanonicalJson
      [("year", VNumber 2024%Z); ("id", VString budget_id);
       ("department", VString "Education")]
  /\ generateHash
       [("id", VString budget_id); ("department", VString "Education");
        ("year", VNumber 2024%Z)]
     = generateHash
         [("year", VNumber 2024%Z); ("id", VString budget_id);
          ("department", VString "Education")].
Proof.
  apply canonical_json_order_independent.
  - cbn. repeat constructor; cbn; intuition discriminate.
  - apply Permutation_sym.
    exact (Permutation_cons_append
             [("id", VString budget_id); ("department", VString "Education")]
             ("year", VNumber 2024%Z)).
Defined.

(** C4 refuted: a description changed from null to undefined, and a date
    changed from a Date to the text of that Date, are changes of a field
    outside the exclusion set, and the hash stays as it was. *)
Lemma null_to_undefined_keeps_hash :
  (includes excludeFields "description" = false
   /\ get budget "description" = VNull
   /\ replace_field budget "description" VUndefined <> budget
   /\ generateHash (replace_field budget "description" VUndefined)
      = generateHash budget)
  /\ (includes excludeFields "start_date" = false
      /\ generateHash [("start_date", VString "2024-03-01T00:00:00.000Z")]
         = generateHash [("start_date", VDate (Some "2024-03-01T00:00:00.000Z"))]).
Proof.
  split.
  - split; [reflexivity|]. split; [reflexivity|]. split.
    + vm_compute. discriminate.
    + vm_compute. reflexivity.
  - split; vm_compute; reflexivity.
Qed.

(** C9 refuted: a field map with a callable and a binary blob is
    canonicalized without any error; the callable is not in the text. *)
Lemma unsupported_kinds_accepted :
  createCanonicalJson
    [("department", VString "Education"); ("callback", VFunction)]
  = Ok ("{" ++ member_text "department" (quote "Education") ++ "}")
  /\ createCanonicalJson
       [("department", VString "Education"); ("scan", VBuffer [x01; xff]%byte)]
     = Ok ("{" ++ member_text "department" (quote "Education") ++ ","
               ++ member_text "scan" (buffer_json [x01; xff]%byte) ++ "}").
Proof.
  split; vm_compute; reflexivity.
Qed.


End Runs.

(** ** More of the code on concrete input *)

Section MoreRuns.
Import JS CryptoUtils Routes Demo Samples.
#[local] Existing Instance Demo.host.

Lemma budget_keys_distinct : NoDup (Object_keys budget).
Proof.
  cbn. repeat constructor; cbn; intuition discriminate.
Defined.

Lemma budget_fields_keys_distinct : NoDup (Object_keys budget_fields).
Proof.
  cbn. repeat constructor; cbn; intuition discriminate.
Defined.

Lemma budget_data_keys_distinct : NoDup (Object_keys budget_data).
Proof.
  cbn. repeat constructor; cbn; intuition discriminate.
Defined.

(** The row of the budget agrees with its hashed fields outside the
    exclusion set. *)
Lemma budget_row_agrees (k : string) :
  includes excludeFields k = false ->
  (present (get budget_fields k) = false /\ present (get budget k) = false)
  \/ get budget_fields k = get budget k.
Proof.
  intros He. right. unfold budget, budget_fields. cbn [get app].
  repeat match goal with
         | |- context [String.eqb ?a k] =>
             destruct (String.eqb_spec a k) as [<-|?]; [reflexivity|]
         end.
  repeat match goal with
         | |- context [String.eqb ?a k] =>
             destruct (String.eqb_spec a k) as [<-|?];
               [vm_compute in He; discriminate|]
         end.
  reflexivity.
Defined.

(** The budget with its stored hash and the engine's signature is verified
    and valid overall. *)
Lemma status_resolution_run :
  exists v,
    completeVerification engine budget (Some budget_hash) [approval_1] = Ok v
    /\ verificationStatus v = verified
    /\ overallValid v = true.
Proof.
  destruct (status_resolution engine budget (Some budget_hash) [approval_1]
              budget_hash) as [v [Hv [Hver [_ Hov]]]].
  - vm_compute. reflexivity.
  - assert (E : verificationStatus v = verified).
    { apply Hver. split; [reflexivity|]. split; [discriminate|].
      intros sig [<-|[]]. eexists. split; [vm_compute; reflexivity | reflexivity]. }
    exists v. split; [exact Hv|]. split; [exact E|].
    apply Hov. rewrite E. discriminate.
Defined.

(** The object serialized for the row of the budget. *)
Lemma canonical_object_run :
  exists o : object,
    createCanonicalJson budget = JSON_stringify o
    /\ (forall k, In k (Object_keys o) <->
                  includes excludeFields k = false
                  /\ present (get budget k) = true)
    /\ (forall k, get o k
                  = if negb (includes excludeFields k) && present (get budget k)
                    then get budget k else VUndefined)
    /\ NoDup (Object_keys o)
    /\ ordered o
    /\ StronglySorted (fun a b => (a <=? b) = true)
         (filter (fun k => negb (is_index k)) (Object_keys o)).
Proof.
  apply (canonical_object budget).
  - reflexivity.
  - exact budget_keys_distinct.
Defined.

(** The canonical JSON of the row of the budget lists department, id,
    total_amount and year. *)
Lemma canonical_json_in_name_order_run :
  createCanonicalJson budget
  = JSON_stringify
      [("department", VString "Education"); ("id", VString budget_id);
       ("total_amount", VString "5000000.00"); ("year", VNumber 2024%Z)].
Proof.
  rewrite (canonical_json_in_name_order budget).
  - reflexivity.
  - reflexivity.
  - exact budget_keys_distinct.
  - intros k Hin. cbn in Hin.
    repeat (destruct Hin as [<-|Hin]; [reflexivity|]). destruct Hin.
Defined.

(** The row of the budget hashes as its hashed fields do. *)
Lemma hash_depends_on_present_fields_run :
  createCanonicalJson budget_fields = createCanonicalJson budget
  /\ generateHash budget_fields = generateHash budget.
Proof.
  apply (hash_depends_on_present_fields budget_fields budget).
  - reflexivity.
  - reflexivity.
  - exact budget_fields_keys_distinct.
  - exact budget_keys_distinct.
  - exact budget_row_agrees.
Defined.

(** The body of the request that creates the budget, and the same with the
    identifier the row has. *)
Lemma added_field_changes_hash_run :
  exists c',
    createCanonicalJson (("id", VString budget_id) :: budget_data) = Ok c'
    /\ String.length (text_of (createCanonicalJson budget_data)) < String.length c'
    /\ c' <> text_of (createCanonicalJson budget_data)
    /\ (sha256 c' <> sha256 (text_of (createCanonicalJson budget_data)) ->
        generateHash (("id", VString budget_id) :: budget_data)
        <> generateHash budget_data).
Proof.
  apply (added_field_changes_hash budget_data "id" (VString budget_id)
           (quote budget_id)).
  - reflexivity.
  - exact budget_data_keys_distinct.
  - cbn. intuition discriminate.
  - reflexivity.
  - reflexivity.
  - reflexivity.
  - vm_compute. reflexivity.
Defined.

(** The budget of another department. *)
Lemma text_change_changes_hash_run :
  exists c',
    createCanonicalJson (replace_field budget "department" (VString "Health"))
    = Ok c'
    /\ c' <> text_of (createCanonicalJson budget)
    /\ (sha256 c' <> sha256 (text_of (createCanonicalJson budget)) ->
        generateHash (replace_field budget "department" (VString "Health"))
        <> generateHash budget).
Proof.
  apply (text_change_changes_hash budget "department" "Education" "Health").
  - reflexivity.
  - exact budget_keys_distinct.
  - reflexivity.
  - reflexivity.
  - discriminate.
  - vm_compute. reflexivity.
Defined.

(** A transaction whose amount is a BigInt. *)
Lemma bigint_field_run :
  createCanonicalJson [("amount", VBigInt 5%Z)] = Throw bigint_error
  /\ generateHash [("amount", VBigInt 5%Z)] = Throw bigint_error
  /\ (forall signerInfo,
        signRecord engine [("amount", VBigInt 5%Z)] signerInfo
        = Throw (mkError "Error" "Failed to create digital signature"))
  /\ (forall signature key,
        verifySignature engine [("amount", VBigInt 5%Z)] signature key
        = Ok (refused bigint_error))
  /\ (forall storedHash signatures,
        completeVerification engine [("amount", VBigInt 5%Z)] storedHash signatures
        = Throw bigint_error).
Proof.
  apply (bigint_field_stops_canonicalization engine [("amount", VBigInt 5%Z)]
           "amount" 5%Z).
  - reflexivity.
  - reflexivity.
  - reflexivity.
Defined.

(** The hash of the budget, and the same hash in upper case as the stored
    hash. *)
Lemma hash_is_lower_case_hex_run :
  forallb lower_hex (list_ascii_of_string budget_hash) = true
  /\ exists hc,
       verifyRecordIntegrity budget (Some "7B22") = Ok hc
       /\ hc_isValid hc = false.
Proof.
  destruct (hash_is_lower_case_hex budget budget_hash) as [_ [Hl Hs]].
  - vm_compute. reflexivity.
  - split; [exact Hl|]. eexists. split; [apply Hs; reflexivity | reflexivity].
Defined.

(** The row of the budget against the hash of its hashed fields. *)
Lemma stored_hash_round_trip_run :
  verifyRecordIntegrity budget (Some budget_hash)
  = Ok {| hc_isValid := true;
          storedHash := Some budget_hash;
          computedHash := budget_hash |}
  /\ verifyRecordIntegrity budget None
     = Ok {| hc_isValid := false;
             storedHash := None;
             computedHash := budget_hash |}.
Proof.
  destruct (stored_hash_round_trip budget_fields budget budget_hash)
    as [Hv Hother].
  - reflexivity.
  - reflexivity.
  - exact budget_fields_keys_distinct.
  - exact budget_keys_distinct.
  - exact budget_row_agrees.
  - vm_compute. reflexivity.
  - split; [exact Hv|]. apply Hother. discriminate.
Defined.

(** The report on the budget with its two approvals under one name. *)
Lemma report_summary_run :
  exists report,
    verify_route engine db "budget" budget_id = Json report
    /\ overallStatus (verificationSummary report) = suspicious
    /\ validSignatures (verificationSummary report)
       < signatureCount (verificationSummary report)
    /\ get (vr_record report) "canonical_json" = VUndefined.
Proof.
  destruct (verify_route engine db "budget" budget_id) as [report|code error] eqn:E;
    [|vm_compute in E; discriminate].
  destruct (report_summary_is_consistent engine db "budget" budget_id report E)
    as [_ [_ [_ [_ [_ [Hs Hc]]]]]].
  exists report. split; [reflexivity|].
  assert (Hlt : validSignatures (verificationSummary report)
                < signatureCount (verificationSummary report)).
  { vm_compute in E. injection E as <-. cbn. lia. }
  split; [apply Hs; right; exact Hlt|]. split; [exact Hlt | exact Hc].
Defined.

(** A first start on a disk without keys, and a second start on the disk
    the first one left, with a generator that fails. *)
Lemma loadKeys_run :
  loadKeys dirname private_pem public_pem (Ok ("PRIVATE:k1", "PUBLIC:k1")) empty_disk
  = Ok (engine, disk_with_keys)
  /\ readFileSync disk_with_keys private_pem = Ok "PRIVATE:k1"
  /\ loadKeys dirname private_pem public_pem
       (Throw (mkError "Error" "not called")) disk_with_keys
     = Ok (engine, disk_with_keys).
Proof.
  assert (E : loadKeys dirname private_pem public_pem
                (Ok ("PRIVATE:k1", "PUBLIC:k1")) empty_disk
              = Ok (engine, disk_with_keys)) by reflexivity.
  destruct (loadKeys_is_stable dirname private_pem public_pem
              (Ok ("PRIVATE:k1", "PUBLIC:k1"))
              (Throw (mkError "Error" "not called"))
              empty_disk disk_with_keys engine) as [Ha [_ Hagain]].
  - discriminate.
  - exact E.
  - split; [exact E|]. split; [exact Ha | exact Hagain].
Defined.

End MoreRuns.

(** ** The amended claims on concrete input *)

Section DemoRuns.
Import JS CryptoUtils Routes Demo Samples.
#[local] Existing Instance Demo.host.

(** C4 at the budget: a description that was null and now is a text, and a
    department that now is null, give another canonical JSON and another
    hash; another time stamp gives the same. *)
Lemma hash_sensitivity_run :
  (exists c',
     createCanonicalJson (replace_field budget "description" (VString "bribe"))
     = Ok c'
     /\ c' <> text_of (createCanonicalJson budget)
     /\ (sha256 c' <> sha256 (text_of (createCanonicalJson budget)) ->
         generateHash (replace_field budget "description" (VString "bribe"))
         <> generateHash budget))
  /\ (exists c',
        createCanonicalJson (replace_field budget "department" VNull) = Ok c'
        /\ c' <> text_of (createCanonicalJson budget)
        /\ (sha256 c' <> sha256 (text_of (createCanonicalJson budget)) ->
            generateHash (replace_field budget "department" VNull)
            <> generateHash budget))
  /\ generateHash
       (replace_field budget "updated_at" (VDate (Some "2025-06-30T12:00:00.000Z")))
     = generateHash budget.
Proof.
  split; [|split].
  - destruct (proj2 (proj2 hash_reads_the_hashed_fields) budget "description"
                (VString "bribe") (text_of (createCanonicalJson budget)))
      as [_ Hch].
    + reflexivity.
    + reflexivity.
    + exact budget_keys_distinct.
    + cbn. tauto.
    + reflexivity.
    + vm_compute. reflexivity.
    + destruct Hch as [_ Hok]; [vm_compute; discriminate|].
      eexists. split; [vm_compute; reflexivity|]. apply Hok.
      vm_compute. reflexivity.
  - destruct (proj2 (proj2 hash_reads_the_hashed_fields) budget "department"
                VNull (text_of (createCanonicalJson budget)))
      as [_ Hch].
    + reflexivity.
    + reflexivity.
    + exact budget_keys_distinct.
    + cbn. tauto.
    + reflexivity.
    + vm_compute. reflexivity.
    + destruct Hch as [_ Hok]; [vm_compute; discriminate|].
      eexists. split; [vm_compute; reflexivity|]. apply Hok.
      vm_compute. reflexivity.
  - apply (proj1 hash_reads_the_hashed_fields). reflexivity.
Defined.

(** C9 at a budget that gained a callable, a Buffer and a typed array. *)
Lemma unsupported_kinds_run :
  (exists c p q,
     createCanonicalJson (("scan", VBuffer [x01; xff]%byte)
                            :: ("callback", VFunction) :: budget) = Ok c
     /\ c = p ++ member_text "scan" (buffer_json [x01; xff]%byte) ++ q)
  /\ (exists c p q,
        createCanonicalJson (("scan", typed_array [1%Z; 255%Z]) :: budget) = Ok c
        /\ c = p ++ member_text "scan" (typed_array_json [1%Z; 255%Z]) ++ q)
  /\ createCanonicalJson (("callback", VFunction) :: budget)
     = createCanonicalJson budget.
Proof.
  split; [|split].
  - apply (proj1 (proj2 (proj2 (proj2 canonicalization_of_unsupported_kinds))));
      reflexivity.
  - apply (proj2 (proj2 (proj2 (proj2 canonicalization_of_unsupported_kinds))));
      reflexivity.
  - apply (proj1 (proj2 (proj2 canonicalization_of_unsupported_kinds))).
    + reflexivity.
    + reflexivity.
    + exact budget_keys_distinct.
    + cbn. intuition discriminate.
Defined.

(** The budget with two approvals under two names: the first signature
    verifies and the second does not, in the report and in the
    certificate. *)
Lemma distinct_approvers_run :
  exists report cert,
    verify_route engine db_two_names "budget" budget_id = Json report
    /\ map hasValidSignature (vr_approvals report) = [true; false]
    /\ certificate_route fetch_two_names origin engine "budget" budget_id
       = Json cert
    /\ map valid (signers cert) = [true; false]
    /\ cert_validSignatures cert
       = length (filter (fun line => valid line) (signers cert)).
Proof.
  destruct (verify_route engine db_two_names "budget" budget_id)
    as [report|code error] eqn:E; [|vm_compute in E; discriminate].
  destruct (distinct_approvers_get_their_own_validity engine db_two_names
              "budget" budget_id report E) as [Hown Hcert].
  - vm_compute in E. injection E as <-. cbn.
    repeat constructor; cbn; intuition discriminate.
  - destruct (Hcert fetch_two_names origin engine)
      as [cert [Hc [_ [Hv [Hn _]]]]].
    { unfold fetch_two_names. rewrite String.eqb_refl, E. reflexivity. }
    exists report, cert.
    assert (Hsv : map (fun sig => isValid (sv_check sig))
                    (signatureVerifications (vr_verification report))
                  = [true; false]).
    { vm_compute in E. injection E as <-. reflexivity. }
    split; [reflexivity|]. split; [rewrite Hown; exact Hsv|].
    split; [exact Hc|]. split; [rewrite Hv; exact Hsv | exact Hn].
Defined.

End DemoRuns.

(** ** The code on a host that treats the digest as node-forge does *)

Section ForgeRuns.
Import JS CryptoUtils Routes Forge.
#[local] Existing Instance Forge.host.

Lemma host_takes_no_buffer : digest_handed_as_buffer.
Proof.
  split.
  - intros key digest. eexists. reflexivity.
  - intros key digest signature. cbn [rsa_verify host].
    destruct (length signature =? length key)%nat; discriminate.
Defined.

Lemma steady_answers_with_the_route (db : database) (s : unit) (url : string)
    (report : verificationReport) :
  fst (steady db s url) = Ok (Json report) ->
  exists this db' served_type served_id,
    verify_route this db' served_type served_id = Json report.
Proof.
  unfold steady, route_of. cbn [fst].
  destruct (url =? item_url origin grant_item).
  - intros E. injection E as E. exists engine, db, "budget", grant_id. exact E.
  - destruct (url =? item_url origin missing_item).
    + intros E. injection E as E.
      exists engine, db, "budget", "no-such-record". exact E.
    + discriminate.
Defined.

(** C5 at the grant: the engine gives it no signature, and a signature of
    the length of the key is checked as not valid. *)
Lemma never_signs_run :
  signRecord engine grant {| si_name := None; si_role := None; si_email := None |}
  = Throw (mkError "Error" "Failed to create digital signature")
  /\ exists check,
       verifySignature engine grant "s1" (Some "PUBLIC:k1") = Ok check
       /\ isValid check = false.
Proof.
  destruct (signRecord_never_returns_a_signature host_takes_no_buffer)
    as [Hsign [Hcheck _]].
  split; [apply Hsign | apply Hcheck].
Defined.

(** C10 at the grant: with no key the check is that with the engine's key,
    and it is not valid. *)
Lemma default_key_run :
  verifySignature engine grant "s1" None
  = verifySignature engine grant "s1" (Some "PUBLIC:k1")
  /\ exists check,
       verifySignature engine grant "s1" None = Ok check
       /\ isValid check = false.
Proof.
  destruct (verifySignature_defaults_to_engine_key engine grant "s1")
    as [Hsame Hnot].
  split; [exact Hsame | exact (Hnot host_takes_no_buffer)].
Defined.


(** C7 refuted, three times over: a batch of no item gets no list of
    results but an error; a batch of two elements of which the second is
    null gets no result for the first either; and behind a rate limiter
    that lets one more request by, the grant gets the status error as the
    second item of a batch and the status pending alone. *)
Lemma batch_claim_fails :
  fst (fst (batch_route unit (steady db_unsigned) origin (Some []) tt))
  = Failure 400 "Records array is required"
  /\ fst (fst (batch_route unit (steady db_unsigned) origin
                 (Some [Some grant_item; None]) tt))
     = Failure 500 "Batch verification failed"
  /\ (exists both alone,
        fst (fst (batch_route nat (limited db_unsigned) origin
                    (Some [Some grant_item; Some grant_item]) 1))
        = Json both
        /\ fst (fst (batch_route nat (limited db_unsigned) origin
                       (Some [Some grant_item]) 1))
           = Json alone
        /\ map br_status (results both) = [item_status pending; item_error]
        /\ map br_status (results alone) = [item_status pending]).
Proof.
  split; [reflexivity|]. split; [vm_compute; reflexivity|].
  eexists. eexists. split; [vm_compute; reflexivity|].
  split; [vm_compute; reflexivity|]. split; reflexivity.
Qed.

(** C7 at a batch of the grant and of a record the store does not hold. *)
Lemma batch_run :
  exists report,
    batch_route unit (steady db_unsigned) origin
      (Some [Some grant_item; Some missing_item]) tt
    = (Json report, tt, [item_url origin grant_item; item_url origin missing_item])
    /\ length (results report) = 2
    /\ map br_status (results report) = [item_status pending; item_error].
Proof.
  destruct (proj1 (batch_results_are_per_item unit (steady db_unsigned) origin
                     [grant_item; missing_item] tt))
    as [report [Hr [Hlen _]]]; [cbn; lia|].
  exists report. split; [exact Hr|]. split; [exact Hlen|].
  vm_compute in Hr. injection Hr as <-. reflexivity.
Defined.

(** A batch of the grant alone, which has no approval and is pending: the
    summary counts one verified record and one pending record of one. *)
Lemma batch_summary_run :
  exists report,
    batch_route unit (steady db_unsigned) origin (Some [Some grant_item]) tt
    = (Json report, tt, [item_url origin grant_item])
    /\ totalRecords (summary report) = 1
    /\ bs_verified (summary report) = 1
    /\ bs_pending (summary report) = 1
    /\ bs_verified (summary report) + bs_suspicious (summary report)
       + bs_errors (summary report) = totalRecords (summary report).
Proof.
  destruct (batch_summary_counts_pending_twice unit (steady db_unsigned) origin
              [grant_item] tt (steady_answers_with_the_route db_unsigned))
    as [report [Hr [Ht [_ Hsum]]]]; [cbn; lia|].
  exists report. split; [exact Hr|]. split; [exact Ht|].
  assert (E : bs_verified (summary report) = 1 /\ bs_pending (summary report) = 1).
  { vm_compute in Hr. injection Hr as <-. split; reflexivity. }
  destruct E as [E1 E2]. split; [exact E1|]. split; [exact E2 | exact Hsum].
Defined.

End ForgeRuns.
